(** * Image post-processing nodes: a shallow embedding

    The development follows [comfy_extras/nodes_post_processing.py]:
    the six node classes [Blend], [Blur], [Quantize], [Sharpen],
    [Transpose] and [Rotate].

    Conventions of the embedding.
    - A torch tensor is a record of its shape and its nested-list data.
    - A float32 component is an exact number, and rounding of float
      arithmetic is not modelled: a rational ([Q], executable) in
      [Quantize], [Transpose] and [Rotate], which only scale by 255 and
      cut to 8 bits; a real ([R]) in [Blend], [Blur] and [Sharpen], which
      use [sqrt], [exp] and sums.
    - A Python exception is a value of [exn]; a function that can raise
      returns a [Result].
    - A Python string is a string of ASCII characters.  On a character
      outside ASCII Python's [\d], [int] and [str.lower] know more than
      the functions here (other decimal digits, other letters with case);
      where a statement about every string depends on this, it is made for
      the strings of [ascii_only].
    - Pillow, NumPy and torch are libraries outside the repository.  Their
      documented, deterministic parts (array conversion, [Image.transpose],
      the fast paths of [Image.rotate], broadcasting, depthwise
      convolution) are written out; Pillow's colour table, median cut,
      palette conversion and affine resampling, and the bicubic resize of
      [comfy.utils.common_upscale], are parameters. *)

From Stdlib Require Import String Ascii Bool Arith ZArith QArith Qround Reals.
From Stdlib Require Import Lia Psatz List.
From Stdlib Require Import Strings.Byte.
Import ListNotations.

Set Implicit Arguments.

(** ** Exceptions and results *)

Inductive exn : Type :=
| ValueError (msg : string)
| KeyError (key : string)
| RuntimeError (msg : string).

Inductive Result (A : Type) : Type :=
| Ok (a : A)
| Raise (e : exn).

Arguments Ok {A} a.
Arguments Raise {A} e.

Definition bind {A B} (r : Result A) (k : A -> Result B) : Result B :=
  match r with
  | Ok a => k a
  | Raise e => Raise e
  end.

Notation "x <- r ;; k" := (bind r (fun x => k))
  (at level 61, r at next level, right associativity).

Definition raises {A} (r : Result A) : Prop := exists e, r = Raise e.
Definition returns {A} (r : Result A) : Prop := exists a, r = Ok a.

(** [for b in range(n)] over a state that the body updates; an exception
    leaves the loop at once. *)
Fixpoint for_each {S} (bs : list nat) (body : nat -> S -> Result S) (s : S)
  : Result S :=
  match bs with
  | [] => Ok s
  | b :: bs' =>
      match body b s with
      | Ok s' => for_each bs' body s'
      | Raise e => Raise e
      end
  end.

Definition for_range {S} (n : nat) (body : nat -> S -> Result S) (s : S)
  : Result S :=
  for_each (seq 0 n) body s.

(** A Python dict with string keys, as the literal lists its items. *)
Fixpoint dict_get {V} (d : list (string * V)) (k : string) : Result V :=
  match d with
  | [] => Raise (KeyError k)
  | (k', v) :: d' => if String.eqb k k' then Ok v else dict_get d' k
  end.

(** ** Tensors *)

Definition tabulate {A} (n : nat) (f : nat -> A) : list A := map f (seq 0 n).

Definition Shape : Type := (nat * nat * nat * nat)%type.
Definition Shape3 : Type := (nat * nat * nat)%type.

Definition shape_eqb (s t : Shape) : bool :=
  let '(b1, h1, w1, c1) := s in
  let '(b2, h2, w2, c2) := t in
  (b1 =? b2)%nat && (h1 =? h2)%nat && (w1 =? w2)%nat && (c1 =? c2)%nat.

Definition shape3_eqb (s t : Shape3) : bool :=
  let '(h1, w1, c1) := s in
  let '(h2, w2, c2) := t in
  (h1 =? h2)%nat && (w1 =? w2)%nat && (c1 =? c2)%nat.

(** A tensor of rank 3, [image[b]]: height, width, channels. *)
Record Tensor3 (A : Type) : Type := mkTensor3 {
  shape3 : Shape3;
  data3 : list (list (list A))
}.

(** A tensor of rank 4, an image batch: batch, height, width, channels. *)
Record Tensor (A : Type) : Type := mkTensor {
  shape : Shape;
  data : list (list (list (list A)))
}.

Definition rect {A} (n : nat) (P : A -> Prop) (l : list A) : Prop :=
  length l = n /\ Forall P l.

Definition wf3_data {A} (s : Shape3) (d : list (list (list A))) : Prop :=
  let '(h, w, c) := s in
  rect h (rect w (fun px => length px = c)) d.

Definition wf3 {A} (t : Tensor3 A) : Prop := wf3_data (shape3 t) (data3 t).

Definition wf {A} (t : Tensor A) : Prop :=
  let '(b, h, w, c) := shape t in
  rect b (wf3_data (h, w, c)) (data t).

Definition get3 {A} (d : A) (t : Tensor3 A) (y x c : nat) : A :=
  nth c (nth x (nth y (data3 t) []) []) d.

Definition get {A} (d : A) (t : Tensor A) (b y x c : nat) : A :=
  nth c (nth x (nth y (nth b (data t) []) []) []) d.

Definition build3 {A} (s : Shape3) (f : nat -> nat -> nat -> A) : Tensor3 A :=
  let '(h, w, c) := s in
  mkTensor3 s (tabulate h (fun y => tabulate w (fun x => tabulate c (f y x)))).

Definition build {A} (s : Shape) (f : nat -> nat -> nat -> nat -> A) : Tensor A :=
  let '(b, h, w, c) := s in
  mkTensor s
    (tabulate b (fun i =>
       tabulate h (fun y => tabulate w (fun x => tabulate c (f i y x))))).

Definition tmap3 {A B} (f : A -> B) (t : Tensor3 A) : Tensor3 B :=
  mkTensor3 (shape3 t) (map (map (map f)) (data3 t)).

Definition tmap {A B} (f : A -> B) (t : Tensor A) : Tensor B :=
  mkTensor (shape t) (map (map (map (map f))) (data t)).

(** [torch.zeros_like(image)] *)
Definition zeros_like (t : Tensor Q) : Tensor Q := tmap (fun _ => 0%Q) t.

(** [image[b]] for [b] below the batch size. *)
Definition select {A} (t : Tensor A) (b : nat) : Tensor3 A :=
  let '(_, h, w, c) := shape t in
  mkTensor3 (h, w, c) (nth b (data t) []).

(** Broadcasting of one dimension: sizes agree, or one of them is 1. *)
Definition bdim (n m : nat) : option nat :=
  if (n =? m)%nat then Some n
  else if (n =? 1)%nat then Some m
  else if (m =? 1)%nat then Some n
  else None.

(** The index read in a dimension of size [n] for the output index [i]. *)
Definition bidx (n i : nat) : nat := if (n =? 1)%nat then 0%nat else i.

Definition bshape (s t : Shape) : option Shape :=
  let '(b1, h1, w1, c1) := s in
  let '(b2, h2, w2, c2) := t in
  match bdim b1 b2, bdim h1 h2, bdim w1 w2, bdim c1 c2 with
  | Some b, Some h, Some w, Some c => Some (b, h, w, c)
  | _, _, _, _ => None
  end.

Definition bget {A} (d : A) (t : Tensor A) (b y x c : nat) : A :=
  let '(b0, h0, w0, c0) := shape t in
  get d t (bidx b0 b) (bidx h0 y) (bidx w0 x) (bidx c0 c).

(** An elementwise binary operator of torch, [t1 op t2]. *)
Definition bop {A B C} (da : A) (db : B) (f : A -> B -> C)
  (t1 : Tensor A) (t2 : Tensor B) : Result (Tensor C) :=
  match bshape (shape t1) (shape t2) with
  | Some s =>
      Ok (build s (fun b y x c => f (bget da t1 b y x c) (bget db t2 b y x c)))
  | None => Raise (RuntimeError "The size of tensor a must match the size of tensor b")
  end.

(** [result[b] = value]: the value is expanded to the slot's shape, a
    dimension of the value being equal to the slot's or 1. *)
Definition expands_to (v s : Shape3) : bool :=
  let '(h1, w1, c1) := v in
  let '(h2, w2, c2) := s in
  ((h1 =? h2)%nat || (h1 =? 1)%nat) &&
  ((w1 =? w2)%nat || (w1 =? 1)%nat) &&
  ((c1 =? c2)%nat || (c1 =? 1)%nat).

Fixpoint set_nth {A} (n : nat) (a : A) (l : list A) : list A :=
  match l, n with
  | [], _ => []
  | _ :: l', O => a :: l'
  | x :: l', S n' => x :: set_nth n' a l'
  end.

Definition setitem (res : Tensor Q) (b : nat) (value : Tensor3 Q)
  : Result (Tensor Q) :=
  let '(_, h, w, c) := shape res in
  let '(h0, w0, c0) := shape3 value in
  if expands_to (shape3 value) (h, w, c) then
    let slot :=
      build3 (h, w, c)
        (fun y x k => get3 0%Q value (bidx h0 y) (bidx w0 x) (bidx c0 k)) in
    Ok (mkTensor (shape res) (set_nth b (data3 slot) (data res)))
  else Raise (RuntimeError "The expanded size of the tensor must match the existing size").

(** ** 8-bit conversion *)

Definition Z_of_byte (b : byte) : Z := Z.of_N (Byte.to_N b).

Definition byte_of_Z (z : Z) : byte :=
  match Byte.of_N (Z.to_N (z mod 256)) with
  | Some b => b
  | None => x00
  end.

(** Truncation toward zero, as the float-to-integer cast does. *)
Definition Qtrunc (x : Q) : Z := Z.quot (Qnum x) (Zpos (Qden x)).

(** [.to(torch.uint8)]: truncate; a value outside 0..255 is taken modulo
    256. *)
Definition to_uint8 (x : Q) : byte := byte_of_Z (Qtrunc x).

(** [(tensor_image * 255).to(torch.uint8).numpy()] *)
Definition to_uint8_array (t : Tensor3 Q) : Tensor3 byte :=
  tmap3 to_uint8 (tmap3 (fun v => v * 255)%Q t).

(** [torch.tensor(arr).float() / 255] *)
Definition from_uint8 (b : byte) : Q := (inject_Z (Z_of_byte b) / 255)%Q.

Definition from_uint8_array (t : Tensor3 byte) : Tensor3 Q := tmap3 from_uint8 t.

(** ** Pillow images *)

Definition rgb : Type := (byte * byte * byte)%type.

Definition black : rgb := (x00, x00, x00).

(** An image of mode RGB: [size = (width, height)] and its rows. *)
Record Image : Type := mkImage {
  im_width : nat;
  im_height : nat;
  im_pixels : list (list rgb)
}.

(** An image of mode P: palette indices and the palette. *)
Record PImage : Type := mkPImage {
  p_width : nat;
  p_height : nat;
  p_index : list (list nat);
  p_palette : list rgb
}.

Definition getpixel (im : Image) (y x : nat) : rgb :=
  nth x (nth y (im_pixels im) []) black.

(** [Image.fromarray(img, mode='RGB')]: the size is [(shape[1], shape[0])]
    and the array's bytes are read as packed RGB, three bytes a pixel,
    whatever the array's last dimension is; too short a buffer is a
    [ValueError]. *)
Definition fromarray (img : Tensor3 byte) : Result Image :=
  let '(h, w, _) := shape3 img in
  let buf := concat (concat (data3 img)) in
  if (0 <? h * w)%nat && (length buf <? h * w * 3)%nat then
    Raise (ValueError "not enough image data")
  else
    Ok (mkImage w h
          (tabulate h (fun y =>
             tabulate w (fun x =>
               let i := ((y * w + x) * 3)%nat in
               (nth i buf x00, nth (i + 1) buf x00, nth (i + 2) buf x00))))).

(** [np.array(im)] of an RGB image: shape (height, width, 3). *)
Definition np_array (im : Image) : Tensor3 byte :=
  mkTensor3 (im_height im, im_width im, 3%nat)
    (map (map (fun p : rgb => let '(r, g, b) := p in [r; g; b])) (im_pixels im)).

(** [im.convert("RGB")] of an image that is RGB already is a copy. *)
Definition convert_RGB (im : Image) : Image := im.

(** [im.convert("RGB")] of a P image looks every index up in the palette;
    an index past the palette's end reads black. *)
Definition P_convert_RGB (im : PImage) : Image :=
  mkImage (p_width im) (p_height im)
    (map (map (fun i => nth i (p_palette im) black)) (p_index im)).

Inductive TransposeMethod : Type :=
| FLIP_LEFT_RIGHT
| FLIP_TOP_BOTTOM
| ROTATE_90
| ROTATE_180
| ROTATE_270
| TRANSPOSE
| TRANSVERSE.

(** [im.transpose(method)]: the pixel written at row [y], column [x] of
    the output. *)
Definition pil_transpose (im : Image) (m : TransposeMethod) : Image :=
  let w := im_width im in
  let h := im_height im in
  let px := getpixel im in
  match m with
  | FLIP_LEFT_RIGHT =>
      mkImage w h (tabulate h (fun y => tabulate w (fun x => px y (w - 1 - x))))
  | FLIP_TOP_BOTTOM =>
      mkImage w h (tabulate h (fun y => tabulate w (fun x => px (h - 1 - y) x)))
  | ROTATE_90 =>
      mkImage h w (tabulate w (fun y => tabulate h (fun x => px x (w - 1 - y))))
  | ROTATE_180 =>
      mkImage w h
        (tabulate h (fun y => tabulate w (fun x => px (h - 1 - y) (w - 1 - x))))
  | ROTATE_270 =>
      mkImage h w (tabulate w (fun y => tabulate h (fun x => px (h - 1 - x) y)))
  | TRANSPOSE =>
      mkImage h w (tabulate w (fun y => tabulate h (fun x => px x y)))
  | TRANSVERSE =>
      mkImage h w
        (tabulate w (fun y => tabulate h (fun x => px (h - 1 - x) (w - 1 - y))))
  end%nat.

(** ** Transpose *)

Module Transpose.

Definition methods : list (string * TransposeMethod) :=
  [ ("Flip horizontal", FLIP_LEFT_RIGHT);
    ("Flip vertical", FLIP_TOP_BOTTOM);
    ("Rotate 90°", ROTATE_90);
    ("Rotate 180°", ROTATE_180);
    ("Rotate 270°", ROTATE_270);
    ("Transpose", TRANSPOSE);
    ("Transverse", TRANSVERSE) ]%string.

(** One turn of the loop over the batch. *)
Definition transpose_step (image : Tensor Q) (method : string)
  (b : nat) (result : Tensor Q) : Result (Tensor Q) :=
  let tensor_image := select image b in
  let img := to_uint8_array tensor_image in
  pil_image <- fromarray img ;;
  m <- dict_get methods method ;;
  let transposed_image := pil_transpose pil_image m in
  let transposed_array := from_uint8_array (np_array (convert_RGB transposed_image)) in
  setitem result b transposed_array.

Definition transpose (image : Tensor Q) (method : string) : Result (Tensor Q) :=
  let '(batch_size, height, width, _) := shape image in
  let result := zeros_like image in
  for_range batch_size (transpose_step image method) result.

End Transpose.

(** ** The library functions that are parameters *)

Inductive Dither : Type := NONE | FLOYDSTEINBERG.

Inductive Resampling : Type := NEAREST | BILINEAR | BICUBIC.

(** A Python tuple of integers: a colour. *)
Definition color : Type := list Z.

Class Pillow : Type := {
  (** [ImageColor.colormap]: the named colours, keyed by lower-case name *)
  colormap : string -> option color;
  (** the median-cut quantizer, [im.quantize(colors)] on an RGB image *)
  median_cut : Image -> nat -> PImage;
  (** the conversion to a given palette, [im.quantize(palette=p, dither=d)] *)
  convert_palette : Image -> Dither -> PImage -> PImage;
  (** the affine resampling behind [im.rotate] when no fast path applies *)
  affine_rotate : Image -> Q -> Resampling -> color -> Image
}.

(** ** Strings and regular expressions

    The functions of this part are those of Python on ASCII strings. *)

Definition chars (s : string) : list ascii := list_ascii_of_string s.

(** An ASCII character, and a string of ASCII characters only. *)
Definition is_ascii_char (c : ascii) : bool := (nat_of_ascii c <? 128)%nat.

Definition ascii_only (s : string) : Prop :=
  forallb is_ascii_char (chars s) = true.

(** [\d] on an ASCII character: one of 0..9.  (On other characters [\d]
    of a Python 3 pattern also takes the decimal digits of other scripts,
    which are not modelled.) *)
Definition is_digit (c : ascii) : bool :=
  let n := nat_of_ascii c in (48 <=? n)%nat && (n <=? 57)%nat.

Definition is_lower_hex (c : ascii) : bool :=
  let n := nat_of_ascii c in
  is_digit c || ((97 <=? n)%nat && (n <=? 102)%nat).

Definition is_hex (c : ascii) : bool :=
  let n := nat_of_ascii c in
  is_lower_hex c || ((65 <=? n)%nat && (n <=? 70)%nat).

Definition is_upper (c : ascii) : bool :=
  let n := nat_of_ascii c in (65 <=? n)%nat && (n <=? 90)%nat.

Definition is_lower (c : ascii) : bool :=
  let n := nat_of_ascii c in (97 <=? n)%nat && (n <=? 122)%nat.

Definition lower_char (c : ascii) : ascii :=
  if is_upper c then ascii_of_nat (nat_of_ascii c + 32) else c.

(** [str.lower()] of an ASCII string: the letters A..Z become a..z.  (On
    other characters [str.lower] follows Unicode, which is not modelled.) *)
Definition lower (s : string) : string :=
  string_of_list_ascii (map lower_char (chars s)).

(** [s.replace(" ", "")] *)
Definition remove_spaces (s : string) : string :=
  string_of_list_ascii
    (filter (fun c => negb (Ascii.eqb c " "%char)) (chars s)).

(** [$] of a Python pattern: the end of the string, or a newline that ends
    the string. *)
Definition at_end (s : list ascii) : bool :=
  match s with
  | [] => true
  | [c] => (nat_of_ascii c =? 10)%nat
  | _ => false
  end.

(** [re.match(r'^#[a-fA-F0-9]{6}$', s)] *)
Definition match_hex6 (digit : ascii -> bool) (s : list ascii) : bool :=
  match s with
  | h :: a :: b :: c :: d :: e :: f :: rest =>
      Ascii.eqb h "#"%char && forallb digit [a; b; c; d; e; f] && at_end rest
  | _ => false
  end.

Definition digit_val (c : ascii) : Z := Z.of_nat (nat_of_ascii c - 48).

Definition hex_val (c : ascii) : Z :=
  let n := nat_of_ascii c in
  if is_digit c then Z.of_nat (n - 48)
  else if (97 <=? n)%nat then Z.of_nat (n - 87)
  else Z.of_nat (n - 55).

(** [int(s)] of a string of decimal digits *)
Definition int_dec (s : list ascii) : Z :=
  fold_left (fun acc c => 10 * acc + digit_val c)%Z s 0%Z.

(** [int(s, 16)] of a string of hexadecimal digits *)
Definition int_hex (s : list ascii) : Z :=
  fold_left (fun acc c => 16 * acc + hex_val c)%Z s 0%Z.

(** The longest prefix of decimal digits, and the rest. *)
Fixpoint span_digits (s : list ascii) : list ascii * list ascii :=
  match s with
  | c :: s' =>
      if is_digit c then let '(ds, r) := span_digits s' in (c :: ds, r)
      else ([], s)
  | [] => ([], [])
  end.

(** A group [(\d{1,3})] followed by what [k] matches.  The group is
    greedy, and whatever follows it in the pattern is no digit, so the
    group is the whole run of digits, of one to three characters. *)
Definition group_digits (s : list ascii) : option (list ascii * list ascii) :=
  let '(ds, r) := span_digits s in
  if (1 <=? length ds)%nat && (length ds <=? 3)%nat then Some (ds, r) else None.

Definition skip_char (c : ascii) (s : list ascii) : list ascii :=
  match s with
  | c' :: s' => if Ascii.eqb c c' then s' else s
  | [] => []
  end.

Definition expect_char (c : ascii) (s : list ascii) : option (list ascii) :=
  match s with
  | c' :: s' => if Ascii.eqb c c' then Some s' else None
  | [] => None
  end.

(** [re.match(r'^\(?(\d{1,3}),(\d{1,3}),(\d{1,3})\)?$', s)]: the three
    groups of a match. *)
Definition match_triplet (s : list ascii)
  : option (list ascii * list ascii * list ascii) :=
  match group_digits (skip_char "("%char s) with
  | None => None
  | Some (g1, r1) =>
      match expect_char ","%char r1 with
      | None => None
      | Some r1' =>
          match group_digits r1' with
          | None => None
          | Some (g2, r2) =>
              match expect_char ","%char r2 with
              | None => None
              | Some r2' =>
                  match group_digits r2' with
                  | None => None
                  | Some (g3, r3) =>
                      if at_end (skip_char ")"%char r3)
                      then Some (g1, g2, g3) else None
                  end
              end
          end
      end
  end.

(** [re.findall(r'\d{1,3}', s)]: the runs of digits from left to right,
    a run of more than three digits being cut after every third. *)
Fixpoint findall_digits (cur : list ascii) (s : list ascii)
  : list (list ascii) :=
  let emit := match cur with [] => [] | _ => [cur] end in
  match s with
  | [] => emit
  | c :: s' =>
      if is_digit c then
        if (length cur =? 2)%nat then (cur ++ [c]) :: findall_digits [] s'
        else findall_digits (cur ++ [c]) s'
      else emit ++ findall_digits [] s'
  end.

(** ** Rotate *)

Module Rotate.

Section WithPillow.
Context {pil : Pillow}.

(** [ImageColor.getrgb], as far as [parse_palette] can reach it: a name of
    the colour map, or six hexadecimal digits.  (The other notations of
    [getrgb] need a string that the guard of [parse_palette] refuses.) *)
Definition getrgb (color_str : string) : Result color :=
  if (100 <? String.length color_str)%nat then
    Raise (ValueError "color specifier is too long")
  else
    let c := lower color_str in
    match colormap c with
    | Some rgb => Ok rgb
    | None =>
        if match_hex6 is_lower_hex (chars c) then
          match chars c with
          | _ :: r1 :: r2 :: g1 :: g2 :: b1 :: b2 :: _ =>
              Ok [int_hex [r1; r2]; int_hex [g1; g2]; int_hex [b1; b2]]
          | _ => Raise (ValueError "unknown color specifier")
          end
        else Raise (ValueError "unknown color specifier")
    end.

Definition in_colormap (s : string) : bool :=
  match colormap s with Some _ => true | None => false end.

Definition parse_palette (color_str : string) : Result color :=
  if match_hex6 is_hex (chars color_str) || in_colormap (lower color_str) then
    getrgb color_str
  else
    let color_rgb := match_triplet (chars color_str) in
    match color_rgb with
    | Some (g1, g2, g3) =>
        if (int_dec g1 <=? 255)%Z && (int_dec g2 <=? 255)%Z
           && (int_dec g3 <=? 255)%Z
        then Ok (map int_dec (findall_digits [] (chars color_str)))
        else Raise (ValueError "Invalid color format")
    | None => Raise (ValueError "Invalid color format")
    end.

(** [fill_color or "#000000"], then the spaces removed, then parsed: the
    fill colour of one turn of the loop.  [None] is a missing spec. *)
Definition or_default (fill_color : option string) : string :=
  match fill_color with
  | None => "#000000"
  | Some EmptyString => "#000000"
  | Some s => s
  end.

Definition parse_fill_color (fill_color : option string) : Result color :=
  let fill_color := or_default fill_color in
  let color := remove_spaces fill_color in
  parse_palette color.

Definition resamplers : list (string * Resampling) :=
  [ ("Nearest Neighbor", NEAREST);
    ("Bilinear", BILINEAR);
    ("Bicubic", BICUBIC) ]%string.

(** [angle % 360.0] *)
Definition mod360 (angle : Q) : Q :=
  (angle - 360 * inject_Z (Qfloor (angle / 360)))%Q.

(** [im.rotate(angle, resample, expand=False, fillcolor=color)]: no centre
    and no translation are given, so the fast paths come first. *)
Definition pil_rotate (im : Image) (angle : Q) (resample : Resampling)
  (fillcolor : color) : Image :=
  let angle := mod360 angle in
  if Qeq_bool angle 0 then im
  else if Qeq_bool angle 180 then pil_transpose im ROTATE_180
  else if (Qeq_bool angle 90 || Qeq_bool angle 270)
          && (im_width im =? im_height im)%nat
  then pil_transpose im (if Qeq_bool angle 90 then ROTATE_90 else ROTATE_270)
  else affine_rotate im angle resample fillcolor.

(** One turn of the loop over the batch.  [fill_color] is rebound in the
    loop; [or_default] is idempotent, so every turn sees the same value. *)
Definition rotate_step (image : Tensor Q) (angle : Q) (resample : string)
  (fill_color : option string) (b : nat) (result : Tensor Q)
  : Result (Tensor Q) :=
  let tensor_image := select image b in
  let img := to_uint8_array tensor_image in
  pil_image <- fromarray img ;;
  color <- parse_fill_color fill_color ;;
  r <- dict_get resamplers resample ;;
  let rotated_image := pil_rotate pil_image angle r color in
  let rotated_array := from_uint8_array (np_array (convert_RGB rotated_image)) in
  setitem result b rotated_array.

Definition rotate (image : Tensor Q) (angle : Q) (resample : string)
  (fill_color : option string) : Result (Tensor Q) :=
  let '(batch_size, height, width, _) := shape image in
  let result := zeros_like image in
  for_range batch_size (rotate_step image angle resample fill_color) result.

End WithPillow.

End Rotate.

(** ** Quantize *)

Module Quantize.

Section WithPillow.
Context {pil : Pillow}.

(** [im.quantize(colors, palette=palette, dither=dither)] on an RGB image.
    With a palette image the number of colours is not looked at. *)
Definition pil_quantize (im : Image) (colors : Z) (palette : option PImage)
  (dither : Dither) : Result PImage :=
  match palette with
  | Some p => Ok (convert_palette im dither p)
  | None =>
      if (1 <=? colors)%Z && (colors <=? 256)%Z
      then Ok (median_cut im (Z.to_nat colors))
      else Raise (ValueError "bad number of colors")
  end.

Definition dither_option (dither : string) : Dither :=
  if String.eqb dither "floyd-steinberg" then FLOYDSTEINBERG else NONE.

(** What one turn of the loop computes from [image[b]]. *)
Definition quantize_image (colors : Z) (d : Dither) (tensor_image : Tensor3 Q)
  : Result (Tensor3 Q) :=
  let img := to_uint8_array tensor_image in
  pil_image <- fromarray img ;;
  palette <- pil_quantize pil_image colors None FLOYDSTEINBERG ;;
  quantized_image <- pil_quantize pil_image colors (Some palette) d ;;
  Ok (from_uint8_array (np_array (P_convert_RGB quantized_image))).

Definition quantize_step (image : Tensor Q) (colors : Z) (d : Dither)
  (b : nat) (result : Tensor Q) : Result (Tensor Q) :=
  quantized_array <- quantize_image colors d (select image b) ;;
  setitem result b quantized_array.

Definition quantize (image : Tensor Q) (colors : Z) (dither : string)
  : Result (Tensor Q) :=
  let '(batch_size, height, width, _) := shape image in
  let result := zeros_like image in
  let dither_option := dither_option dither in
  for_range batch_size (quantize_step image colors dither_option) result.

End WithPillow.

End Quantize.

(** ** A small executable instance of the library parameters

    It serves to run the nodes on concrete inputs.  The colour map holds the
    sixteen basic colour keywords of Pillow's table; the quantizer keeps the
    first [colors] distinct colours and maps a pixel to the nearest of them;
    the resampler only shows the fill colour. *)

Module Reference.

Definition basic_colors : list (string * color) :=
  [ ("black", [0; 0; 0]); ("silver", [192; 192; 192]);
    ("gray", [128; 128; 128]); ("white", [255; 255; 255]);
    ("maroon", [128; 0; 0]); ("red", [255; 0; 0]);
    ("purple", [128; 0; 128]); ("fuchsia", [255; 0; 255]);
    ("green", [0; 128; 0]); ("lime", [0; 255; 0]);
    ("olive", [128; 128; 0]); ("yellow", [255; 255; 0]);
    ("navy", [0; 0; 128]); ("blue", [0; 0; 255]);
    ("teal", [0; 128; 128]); ("aqua", [0; 255; 255]) ]%string%Z.

Fixpoint assoc {V} (d : list (string * V)) (k : string) : option V :=
  match d with
  | [] => None
  | (k', v) :: d' => if String.eqb k k' then Some v else assoc d' k
  end.

Definition rgb_eq_dec (p q : rgb) : {p = q} + {p <> q}.
Proof. decide equality; try apply byte_eq_dec. decide equality; apply byte_eq_dec. Defined.

Definition dist (p q : rgb) : Z :=
  let '(r1, g1, b1) := p in
  let '(r2, g2, b2) := q in
  let d x y := ((Z_of_byte x - Z_of_byte y) * (Z_of_byte x - Z_of_byte y))%Z in
  (d r1 r2 + d g1 g2 + d b1 b2)%Z.

(** The index of a palette entry nearest to [p], the first on a tie. *)
Fixpoint nearest_from (p : rgb) (pal : list rgb) (i best : nat) (bd : Z) : nat :=
  match pal with
  | [] => best
  | q :: pal' =>
      if (dist p q <? bd)%Z then nearest_from p pal' (S i) i (dist p q)
      else nearest_from p pal' (S i) best bd
  end.

Definition nearest (pal : list rgb) (p : rgb) : nat :=
  match pal with
  | [] => 0%nat
  | q :: pal' => nearest_from p pal' 1 0 (dist p q)
  end.

Definition to_palette (im : Image) (pal : list rgb) : PImage :=
  mkPImage (im_width im) (im_height im)
    (tabulate (im_height im) (fun y =>
       tabulate (im_width im) (fun x => nearest pal (getpixel im y x))))
    pal.

Definition first_colors (im : Image) (colors : nat) : list rgb :=
  match firstn colors (nodup rgb_eq_dec (concat (im_pixels im))) with
  | [] => [black]
  | pal => pal
  end.

Definition fill_rgb (c : color) : rgb :=
  (byte_of_Z (nth 0 c 0%Z), byte_of_Z (nth 1 c 0%Z), byte_of_Z (nth 2 c 0%Z)).

#[export] Instance pillow : Pillow := {
  colormap := assoc basic_colors;
  median_cut := fun im colors => to_palette im (first_colors im colors);
  convert_palette := fun im _ p => to_palette im (p_palette p);
  affine_rotate := fun im _ _ c =>
    mkImage (im_width im) (im_height im)
      (tabulate (im_height im) (fun _ =>
         tabulate (im_width im) (fun _ => fill_rgb c)))
}.

End Reference.

(** ** Predicates on tensors *)

(** Every component of a tensor satisfies [P]. *)
Definition tall3 {A} (P : A -> Prop) (t : Tensor3 A) : Prop :=
  Forall (Forall (Forall P)) (data3 t).

Definition tall {A} (P : A -> Prop) (t : Tensor A) : Prop :=
  Forall (Forall (Forall (Forall P))) (data t).

(** The 8-bit lattice: the values [n/255] for an integer [n] of 0..255. *)
Definition on_lattice (v : Q) : Prop :=
  exists n : Z, (0 <= n <= 255)%Z /\ v == inject_Z n / 255.

(** Two batches are equal: the same shape and, component by component, the
    same number. *)
Definition tensor_eq (s t : Tensor Q) : Prop :=
  shape s = shape t /\
  Forall2 (Forall2 (Forall2 (Forall2 Qeq))) (data s) (data t).

(** The shape of a loop turn: an array is computed from [image[b]] and
    stored in [result[b]]. *)
Definition store (process : nat -> Result (Tensor3 Q)) (b : nat)
  (result : Tensor Q) : Result (Tensor Q) :=
  v <- process b ;; setitem result b v.

(** What one turn of [Transpose.transpose] computes from [image[b]]. *)
Definition transpose_image (method : string) (tensor_image : Tensor3 Q)
  : Result (Tensor3 Q) :=
  pil_image <- fromarray (to_uint8_array tensor_image) ;;
  m <- dict_get Transpose.methods method ;;
  Ok (from_uint8_array (np_array (convert_RGB (pil_transpose pil_image m)))).

(** What one turn of [Rotate.rotate] computes from [image[b]]. *)
Definition rotate_image {pil : Pillow} (angle : Q) (resample : string)
  (fill_color : option string) (tensor_image : Tensor3 Q)
  : Result (Tensor3 Q) :=
  pil_image <- fromarray (to_uint8_array tensor_image) ;;
  color <- Rotate.parse_fill_color fill_color ;;
  r <- dict_get Rotate.resamplers resample ;;
  Ok (from_uint8_array
        (np_array (convert_RGB (Rotate.pil_rotate pil_image angle r color)))).

(** The 8-bit round trip of one component. *)
Definition requantize (v : Q) : Q := from_uint8 (to_uint8 (v * 255)).

(** The number [floor (255 v) / 255]. *)
Definition floor255 (v : Q) : Q := inject_Z (Qfloor (v * 255)) / 255.

(** A batch returned by one of the three nodes that pass every image
    through an 8-bit Pillow image. *)
Definition lattice_node_output {pil : Pillow} (r : Tensor Q) : Prop :=
  (exists image colors dither, Quantize.quantize image colors dither = Ok r) \/
  (exists image method, Transpose.transpose image method = Ok r) \/
  (exists image angle resample fill_color,
      Rotate.rotate image angle resample fill_color = Ok r).

(** The four methods of [Transpose] that swap width and height. *)
Definition swapping_methods : list string :=
  ["Rotate 90°"; "Rotate 270°"; "Transpose"; "Transverse"]%string.

(** ** Example batches *)

Definition px3 (r g b : Q) : list Q := [r; g; b].

(** One image, one row, two pixels. *)
Definition ex12 : Tensor Q :=
  mkTensor (1, 1, 2, 3)%nat [[[px3 1 0 0; px3 0 (1#2) 1]]].

(** One image of two rows and two columns. *)
Definition ex22 : Tensor Q :=
  mkTensor (1, 2, 2, 3)%nat
    [[[px3 1 0 0; px3 0 (1#2) 1]; [px3 0 0 0; px3 1 1 1]]].

(** An empty batch of 1 x 2 images. *)
Definition ex_empty : Tensor Q := mkTensor (0, 1, 2, 3)%nat [].

(** One 1 x 2 image whose components are multiples of 1/255. *)
Definition ex_lattice : Tensor Q :=
  mkTensor (1, 1, 2, 3)%nat [[[px3 1 0 0; px3 0 (127 # 255) 1]]].

(** ** The forms of a fill colour that the parser takes *)

Definition newline : ascii := ascii_of_nat 10.

(** Nothing, or the one character [c]. *)
Definition optional (c : ascii) (s : list ascii) : Prop := s = [] \/ s = [c].

(** ['#'] and six hexadecimal digits, and possibly a final newline. *)
Definition hex6_form (s : list ascii) : Prop :=
  exists ds nl,
    s = "#"%char :: ds ++ nl /\ length ds = 6%nat /\
    forallb is_hex ds = true /\ optional newline nl.

(** A name of the colour map, in any case of the letters. *)
Definition named_form {pil : Pillow} (s : string) : Prop :=
  colormap (lower s) <> None.

(** One to three decimal digits that denote at most 255. *)
Definition component (d : list ascii) : Prop :=
  (1 <= length d <= 3)%nat /\ forallb is_digit d = true /\ (int_dec d <= 255)%Z.

(** Three components between commas, possibly after ['('], possibly before
    [')'] (the one does not need the other), and possibly a final newline. *)
Definition triplet_form (s : list ascii) : Prop :=
  exists lp r g b rp nl,
    s = lp ++ r ++ ","%char :: g ++ ","%char :: b ++ rp ++ nl /\
    optional "("%char lp /\ optional ")"%char rp /\ optional newline nl /\
    component r /\ component g /\ component b.

(** The names of Pillow's colour map are made of lower-case letters. *)
Definition lowercase_names (pil : Pillow) : Prop :=
  forall k v, colormap k = Some v -> forallb is_lower (chars k) = true.

(** The forms in the words of the specification: [#RRGGBB]; a named
    colour; ["r,g,b"] or ["(r,g,b)"] with every component in 0..255. *)
Definition spec_hex6 (s : list ascii) : Prop :=
  exists ds, s = "#"%char :: ds /\ length ds = 6%nat /\ forallb is_hex ds = true.

Definition spec_component (d : list ascii) : Prop :=
  d <> [] /\ forallb is_digit d = true /\ (int_dec d <= 255)%Z.

Definition spec_triplet (s : list ascii) : Prop :=
  exists r g b,
    spec_component r /\ spec_component g /\ spec_component b /\
    (s = r ++ ","%char :: g ++ ","%char :: b \/
     s = "("%char :: r ++ ","%char :: g ++ ","%char :: b ++ [")"%char]).

(** * The nodes on real components

    [Blend], [Blur] and [Sharpen] compute with [sqrt], [exp] and sums; a
    float32 component is a real number there. *)

Definition Rleb (x y : R) : bool := if Rle_dec x y then true else false.

(** [torch.clamp(x, 0, 1)] *)
Definition clamp01 (x : R) : R := Rmin (Rmax x 0) 1.

(** [t.permute(0, 3, 1, 2)]: (B, H, W, C) to (B, C, H, W). *)
Definition permute_0312 (t : Tensor R) : Tensor R :=
  let '(b, h, w, c) := shape t in
  build (b, c, h, w) (fun i k y x => get 0%R t i y x k).

(** [t.permute(0, 2, 3, 1)]: (B, C, H, W) to (B, H, W, C). *)
Definition permute_0231 (t : Tensor R) : Tensor R :=
  let '(b, c, h, w) := shape t in
  build (b, h, w, c) (fun i y x k => get 0%R t i k y x).

(** Elementwise [t1 op t2] on real tensors. *)
Definition tbin (f : R -> R -> R) (t1 t2 : Tensor R) : Result (Tensor R) :=
  bop 0%R 0%R f t1 t2.

(** [torch.where(cond, a, b)]: the three tensors are broadcast together. *)
Definition twhere (cond : Tensor bool) (a b : Tensor R) : Result (Tensor R) :=
  match bshape (shape cond) (shape a) with
  | None => Raise (RuntimeError "The size of tensor a must match the size of tensor b")
  | Some s1 =>
      match bshape s1 (shape b) with
      | None => Raise (RuntimeError "The size of tensor a must match the size of tensor b")
      | Some s =>
          Ok (build s (fun i y x k =>
                if bget false cond i y x k
                then bget 0%R a i y x k else bget 0%R b i y x k))
      end
  end.

(** Modelled from the spec: [comfy.utils.common_upscale] is not among the
    sources.  The specification says that image2 "is resampled (bicubic,
    center-cropped) to image1's height/width" and that the resize "never
    changes batch size or channel count".  The interpolation itself stays a
    parameter: [common_upscale samples width height] stands for
    [common_upscale(samples, width, height, upscale_method='bicubic',
    crop='center')] on a (B, C, H, W) tensor. *)
Class Comfy : Type := {
  common_upscale : Tensor R -> nat -> nat -> Result (Tensor R)
}.

(** What is used of it: a result has the requested height and width and the
    batch size and channel count of the samples, and samples and sizes that
    are not empty do give a result. *)
Record upscale_contract (comfy : Comfy) : Prop := {
  upscale_shape : forall t w h t' b c h0 w0,
    shape t = (b, c, h0, w0) -> common_upscale t w h = Ok t' ->
    shape t' = (b, c, h, w) /\ wf t';
  upscale_returns : forall t w h b c h0 w0,
    shape t = (b, c, h0, w0) -> wf t ->
    (0 < h0)%nat -> (0 < w0)%nat -> (0 < h)%nat -> (0 < w)%nat ->
    returns (common_upscale t w h)
}.

(** ** Blend *)

Module Blend.

Definition modes : list string :=
  ["normal"; "multiply"; "screen"; "overlay"; "soft_light"]%string.

Section WithComfy.
Context {comfy : Comfy}.
Local Open Scope R_scope.

Definition g (x : Tensor R) : Result (Tensor R) :=
  p <- tbin Rmult (tmap (fun v => v - 12) (tmap (fun v => 16 * v) x)) x ;;
  q <- tbin Rmult (tmap (fun v => v + 4) p) x ;;
  twhere (tmap (fun v => Rleb v (1 / 4)) x) q (tmap sqrt x).

Definition blend_mode (img1 img2 : Tensor R) (mode : string)
  : Result (Tensor R) :=
  if String.eqb mode "normal" then Ok img2
  else if String.eqb mode "multiply" then tbin Rmult img1 img2
  else if String.eqb mode "screen" then
    m <- tbin Rmult (tmap (fun v => 1 - v) img1) (tmap (fun v => 1 - v) img2) ;;
    Ok (tmap (fun v => 1 - v) m)
  else if String.eqb mode "overlay" then
    a <- tbin Rmult (tmap (fun v => 2 * v) img1) img2 ;;
    m <- tbin Rmult (tmap (fun v => 2 * v) (tmap (fun v => 1 - v) img1))
           (tmap (fun v => 1 - v) img2) ;;
    twhere (tmap (fun v => Rleb v (1 / 2)) img1) a (tmap (fun v => 1 - v) m)
  else if String.eqb mode "soft_light" then
    p <- tbin Rmult (tmap (fun v => 1 - v) (tmap (fun v => 2 * v) img2)) img1 ;;
    p' <- tbin Rmult p (tmap (fun v => 1 - v) img1) ;;
    a <- tbin Rminus img1 p' ;;
    gi <- g img1 ;;
    dg <- tbin Rminus gi img1 ;;
    q <- tbin Rmult (tmap (fun v => v - 1) (tmap (fun v => 2 * v) img2)) dg ;;
    b <- tbin Rplus img1 q ;;
    twhere (tmap (fun v => Rleb v (1 / 2)) img2) a b
  else Raise (ValueError "Unsupported blend mode").

(** The test [image1.shape != image2.shape]. *)
Definition needs_resize (image1 image2 : Tensor R) : bool :=
  negb (shape_eqb (shape image1) (shape image2)).

(** [image2] as it enters the blend. *)
Definition resized (image1 image2 : Tensor R) : Result (Tensor R) :=
  if needs_resize image1 image2 then
    let image2 := permute_0312 image2 in
    let '(_, h1, w1, _) := shape image1 in
    image2 <- common_upscale image2 w1 h1 ;;
    Ok (permute_0231 image2)
  else Ok image2.

Definition blend_images (image1 image2 : Tensor R) (blend_factor : R)
  (blend_mode_name : string) : Result (Tensor R) :=
  image2 <- resized image1 image2 ;;
  blended_image <- blend_mode image1 image2 blend_mode_name ;;
  blended_image <-
    tbin Rplus (tmap (fun v => v * (1 - blend_factor)) image1)
               (tmap (fun v => v * blend_factor) blended_image) ;;
  let blended_image := tmap clamp01 blended_image in
  Ok blended_image.

End WithComfy.

End Blend.

(** The formulas of the specification, on one component. *)
Definition g_formula (x : R) : R :=
  if Rle_dec x (1 / 4) then (((16 * x - 12) * x + 4) * x)%R else sqrt x.

Definition blend_formula (mode : string) (img1 img2 : R) : R :=
  if String.eqb mode "normal" then img2
  else if String.eqb mode "multiply" then (img1 * img2)%R
  else if String.eqb mode "screen" then (1 - (1 - img1) * (1 - img2))%R
  else if String.eqb mode "overlay" then
    if Rle_dec img1 (1 / 2) then (2 * img1 * img2)%R
    else (1 - 2 * (1 - img1) * (1 - img2))%R
  else
    if Rle_dec img2 (1 / 2) then (img1 - (1 - 2 * img2) * img1 * (1 - img1))%R
    else (img1 + (2 * img2 - 1) * (g_formula img1 - img1))%R.

Definition blend_output (mode : string) (factor img1 img2 : R) : R :=
  clamp01 (img1 * (1 - factor) + blend_formula mode img1 img2 * factor).

(** An index below a shape. *)
Definition in_shape (s : Shape) (b y x c : nat) : Prop :=
  let '(B, H, W, C) := s in (b < B /\ y < H /\ x < W /\ c < C)%nat.

(** The tensor [t] has the shape [s] and the component [f b y x c] at
    every index. *)
Definition denotes {A} (d : A) (t : Tensor A) (s : Shape)
  (f : nat -> nat -> nat -> nat -> A) : Prop :=
  shape t = s /\ wf t /\
  forall b y x c, in_shape s b y x c -> get d t b y x c = f b y x c.

(** A stand-in for the resize, for running examples: nearest-neighbour
    sampling instead of the bicubic kernel, and no crop. *)
Definition nearest_upscale (t : Tensor R) (w h : nat) : Result (Tensor R) :=
  let '(b, c, h0, w0) := shape t in
  if ((h0 =? 0) || (w0 =? 0))%nat then
    Raise (RuntimeError "float division by zero")
  else
    Ok (build (b, c, h, w)
          (fun i k y x => get 0%R t i k (y * h0 / h)%nat (x * w0 / w)%nat)).

#[export] Instance reference_comfy : Comfy := {
  common_upscale := nearest_upscale
}.

(** Two 1 x 1 x 1 batches of one image, and a batch of two such images. *)
Definition gray (v : R) : Tensor R := mkTensor (1, 1, 1, 1)%nat [[[[v]]]].

Definition gray_pair (u v : R) : Tensor R :=
  mkTensor (2, 1, 1, 1)%nat [[[[u]]]; [[[v]]]].

(** ** Kernels and convolution *)

Definition Rsum (l : list R) : R := fold_right Rplus 0%R l.

(** [k.sum()] of a 2-D tensor *)
Definition sum2 (k : list (list R)) : R := Rsum (map Rsum k).

(** An elementwise function of a 2-D tensor *)
Definition map2 (f : R -> R) (k : list (list R)) : list (list R) :=
  map (map f) k.

(** An elementwise operator of two 2-D tensors of one shape *)
Definition zip2 (f : R -> R -> R) (a b : list (list R)) : list (list R) :=
  map (fun rows => map (fun uv => f (fst uv) (snd uv))
                     (combine (fst rows) (snd rows)))
      (combine a b).

(** [torch.linspace(start, stop, steps)] *)
Definition linspace (start stop : R) (steps : nat) : list R :=
  tabulate steps
    (fun i => (start + INR i * ((stop - start) / INR (steps - 1)))%R).

(** [torch.meshgrid(a, b, indexing="ij")] *)
Definition meshgrid_ij (a b : list R) : list (list R) * list (list R) :=
  (map (fun ai => map (fun _ => ai) b) a, map (fun _ => b) a).

(** [kernel.repeat(channels, 1, 1).unsqueeze(1)]: shape (C, 1, k, k). *)
Definition repeat_kernel (kernel : list (list R)) (kernel_size channels : nat)
  : Tensor R :=
  build (channels, 1, kernel_size, kernel_size)%nat
    (fun _ _ i j => nth j (nth i kernel []) 0%R).

(** The input of a convolution, zero outside the image. *)
Definition padded (input : Tensor R) (padding n k y x : nat) : R :=
  let '(_, _, h, w) := shape input in
  if ((padding <=? y) && (y - padding <? h)
      && (padding <=? x) && (x - padding <? w))%nat
  then get 0%R input n k (y - padding) (x - padding)
  else 0%R.

(** [F.conv2d(input, weight, padding=padding, groups=channels)] on an
    input (B, C, H, W) and a weight (C, 1, kh, kw): every channel is
    correlated with its own kernel, stride 1. *)
Definition conv2d_depthwise (input weight : Tensor R) (padding : nat)
  : Result (Tensor R) :=
  let '(b, c, h, w) := shape input in
  let '(co, ci, kh, kw) := shape weight in
  if (c =? 0)%nat then
    Raise (RuntimeError "non-positive groups is not supported")
  else if negb ((co =? c) && (ci =? 1))%nat then
    Raise (RuntimeError "weight does not match the groups")
  else if ((h + 2 * padding <? kh) || (w + 2 * padding <? kw))%nat then
    Raise (RuntimeError "Kernel size can't be greater than actual input size")
  else
    Ok (build (b, c, h + 2 * padding - kh + 1, w + 2 * padding - kw + 1)%nat
          (fun n k y x =>
             Rsum (tabulate kh (fun i =>
               Rsum (tabulate kw (fun j =>
                 (get 0%R weight k 0 i j
                  * padded input padding n k (y + i) (x + j))%R)))))).

(** ** Blur *)

Module Blur.

Definition gaussian_kernel (kernel_size : nat) (sigma : R) : list (list R) :=
  let '(x, y) :=
    meshgrid_ij (linspace (-1) 1 kernel_size) (linspace (-1) 1 kernel_size) in
  let d := map2 sqrt (zip2 Rplus (zip2 Rmult x x) (zip2 Rmult y y)) in
  let g :=
    map2 exp
      (map2 (fun v => v / (2 * sigma * sigma))%R
         (map2 Ropp (zip2 Rmult d d))) in
  map2 (fun v => v / sum2 g)%R g.

Definition blur (image : Tensor R) (blur_radius : nat) (sigma : R)
  : Result (Tensor R) :=
  if (blur_radius =? 0)%nat then Ok image
  else
    let '(batch_size, height, width, channels) := shape image in
    let kernel_size := (blur_radius * 2 + 1)%nat in
    let kernel :=
      repeat_kernel (gaussian_kernel kernel_size sigma) kernel_size channels in
    let image := permute_0312 image in
    blurred <- conv2d_depthwise image kernel (kernel_size / 2) ;;
    let blurred := permute_0231 blurred in
    Ok blurred.

End Blur.

(** ** Sharpen *)

Module Sharpen.

Definition sharpen_kernel (sharpen_radius : nat) (alpha : R) : list (list R) :=
  let kernel_size := (sharpen_radius * 2 + 1)%nat in
  let kernel :=
    tabulate kernel_size (fun _ => tabulate kernel_size (fun _ => (1 * -1)%R)) in
  let center := (kernel_size / 2)%nat in
  let kernel :=
    set_nth center
      (set_nth center (INR (kernel_size ^ 2)) (nth center kernel [])) kernel in
  map2 (fun v => v * alpha)%R kernel.

(** The convolution before it is clamped. *)
Definition sharpened (image : Tensor R) (sharpen_radius : nat) (alpha : R)
  : Result (Tensor R) :=
  let '(batch_size, height, width, channels) := shape image in
  let kernel_size := (sharpen_radius * 2 + 1)%nat in
  let center := (kernel_size / 2)%nat in
  let kernel :=
    repeat_kernel (sharpen_kernel sharpen_radius alpha) kernel_size channels in
  let tensor_image := permute_0312 image in
  sharpened <- conv2d_depthwise tensor_image kernel center ;;
  Ok (permute_0231 sharpened).

Definition sharpen (image : Tensor R) (sharpen_radius : nat) (alpha : R)
  : Result (Tensor R) :=
  if (sharpen_radius =? 0)%nat then Ok image
  else
    sharpened <- sharpened image sharpen_radius alpha ;;
    let result := tmap clamp01 sharpened in
    Ok result.

End Sharpen.

(** A 2-D tensor given by a function on the pairs of the elements of a
    coordinate list. *)
Definition grid {A} (F : A -> A -> R) (l : list A) : list (list R) :=
  map (fun a => map (fun b => F a b) l) l.

(** The Gaussian of the specification and its sampling grid: [2 r + 1]
    coordinates from -1 to 1, a step of [1 / r] apart. *)
Definition coordinate (r i : nat) : R := (-1 + INR i / INR r)%R.

Definition gaussian (sigma x y : R) : R :=
  exp (- (x * x + y * y) / (2 * sigma * sigma)).

Definition gaussian_samples (r : nat) (sigma : R) : list (list R) :=
  tabulate (2 * r + 1) (fun i =>
    tabulate (2 * r + 1) (fun j =>
      gaussian sigma (coordinate r i) (coordinate r j))).

(** ** The convolution of [Blur] and [Sharpen], by components *)

(** The component of channel [c] at row [y'], column [x'] of the image
    padded with [p] zeros on every side. *)
Definition pixel_or_zero (image : Tensor R) (p b y' x' c : nat) : R :=
  let '(_, h, w, _) := shape image in
  if ((p <=? y') && (y' - p <? h) && (p <=? x') && (x' - p <? w))%nat
  then get 0%R image b (y' - p) (x' - p) c
  else 0%R.

(** The sum of kernel times window at the pixel (y, x): the window is the
    [ks] x [ks] square whose centre is the pixel when [ks = 2 p + 1]. *)
Definition window_sum (kernel : list (list R)) (ks p : nat) (image : Tensor R)
  (b y x c : nat) : R :=
  Rsum (tabulate ks (fun i =>
    Rsum (tabulate ks (fun j =>
      (nth j (nth i kernel []) 0 * pixel_or_zero image p b (y + i) (x + j) c)%R)))).

(** The window of side [2 r + 1] around the pixel (y, x) is constant [v]
    in channel [c]. *)
Definition flat_window (image : Tensor R) (r b y x c : nat) (v : R) : Prop :=
  forall dy dx, (dy <= 2 * r)%nat -> (dx <= 2 * r)%nat ->
    get 0%R image b (y - r + dy) (x - r + dx) c = v.

(** A batch of one H x W image of one channel, every component [v]. *)
Definition flat (H W : nat) (v : R) : Tensor R :=
  build (1, H, W, 1)%nat (fun _ _ _ _ => v).

(** ** Transposition as a permutation of pixels *)

(** The methods that swap width and height. *)
Definition swaps (m : TransposeMethod) : bool :=
  match m with
  | ROTATE_90 | ROTATE_270 | TRANSPOSE | TRANSVERSE => true
  | _ => false
  end.

(** The pixel of an h x w image that a method moves to row [y], column
    [x] of its result. *)
Definition source_pixel (m : TransposeMethod) (h w y x : nat) : nat * nat :=
  match m with
  | FLIP_LEFT_RIGHT => (y, w - 1 - x)
  | FLIP_TOP_BOTTOM => (h - 1 - y, x)
  | ROTATE_90 => (x, w - 1 - y)
  | ROTATE_180 => (h - 1 - y, w - 1 - x)
  | ROTATE_270 => (h - 1 - x, y)
  | TRANSPOSE => (x, y)
  | TRANSVERSE => (h - 1 - x, w - 1 - y)
  end%nat.

(** The method that undoes a method. *)
Definition inverse_method (m : TransposeMethod) : TransposeMethod :=
  match m with
  | ROTATE_90 => ROTATE_270
  | ROTATE_270 => ROTATE_90
  | _ => m
  end.

(** The array that one turn of [Transpose.transpose] stores. *)
Definition transposed (method : string) (tensor_image : Tensor3 Q)
  : Tensor3 Q :=
  match transpose_image method tensor_image with
  | Ok v => v
  | Raise _ => mkTensor3 (0, 0, 0)%nat []
  end.

Definition rgb_list (p : rgb) : list byte := let '(r, g, b) := p in [r; g; b].

(** The colours of Pillow's colour map are triples of 0..255. *)
Definition rgb_values (pil : Pillow) : Prop :=
  forall k v, colormap k = Some v ->
    length v = 3%nat /\ Forall (fun z => (0 <= z <= 255)%Z) v.

(** A string does not go on with a digit. *)
Definition no_digit_head (s : list ascii) : Prop :=
  match s with
  | [] => True
  | c :: _ => is_digit c = false
  end.

(** * Properties *)

Unset Implicit Arguments.

(** ** Lists built by index *)

Section Lists.
Local Open Scope nat_scope.
Context {A : Type}.

Lemma tabulate_length (n : nat) (f : nat -> A) : length (tabulate n f) = n.
Proof. unfold tabulate. now rewrite length_map, length_seq. Qed.

Lemma tabulate_nth (n : nat) (f : nat -> A) (i : nat) (d : A) :
  i < n -> nth i (tabulate n f) d = f i.
Proof.
  intros Hi. unfold tabulate.
  rewrite (nth_indep _ d (f 0)) by now rewrite length_map, length_seq.
  rewrite map_nth, seq_nth; auto.
Qed.

Lemma tabulate_ext (n : nat) (f g : nat -> A) :
  (forall i, i < n -> f i = g i) -> tabulate n f = tabulate n g.
Proof.
  intros H. unfold tabulate. apply map_ext_in.
  intros i Hi. apply in_seq in Hi. apply H. lia.
Qed.

Lemma tabulate_nth_id (l : list A) (d : A) :
  tabulate (length l) (fun i => nth i l d) = l.
Proof.
  apply nth_ext with (d := d) (d' := d).
  - apply tabulate_length.
  - intros i Hi. rewrite tabulate_length in Hi. now apply tabulate_nth.
Qed.

Lemma Forall_tabulate (P : A -> Prop) (n : nat) (f : nat -> A) :
  (forall i, i < n -> P (f i)) -> Forall P (tabulate n f).
Proof.
  intros H. unfold tabulate. apply Forall_forall. intros x Hx.
  apply in_map_iff in Hx. destruct Hx as (i & <- & Hi).
  apply in_seq in Hi. apply H. lia.
Qed.

Lemma Forall_nth_default (P : A -> Prop) (l : list A) (i : nat) (d : A) :
  P d -> Forall P l -> P (nth i l d).
Proof.
  intros Hd Hl. destruct (Nat.lt_ge_cases i (length l)) as [Hi | Hi].
  - rewrite Forall_forall in Hl. apply Hl. now apply nth_In.
  - now rewrite nth_overflow.
Qed.

Lemma set_nth_length (n : nat) (a : A) (l : list A) :
  length (set_nth n a l) = length l.
Proof.
  revert n. induction l as [| x l IH]; intros [| n]; simpl; auto.
Qed.

Lemma set_nth_same (n : nat) (a : A) (l : list A) (d : A) :
  n < length l -> nth n (set_nth n a l) d = a.
Proof.
  revert n. induction l as [| x l IH]; intros [| n] H; simpl in *; try lia; auto.
  apply IH. lia.
Qed.

Lemma set_nth_other (n m : nat) (a : A) (l : list A) (d : A) :
  n <> m -> nth m (set_nth n a l) d = nth m l d.
Proof.
  revert n m.
  induction l as [| x l IH]; intros [| n] [| m] H; simpl; auto; try lia.
Qed.

Lemma Forall_set_nth (P : A -> Prop) (n : nat) (a : A) (l : list A) :
  P a -> Forall P l -> Forall P (set_nth n a l).
Proof.
  intros Ha. revert n. induction l as [| x l IH]; intros [| n] Hl; simpl; auto.
  - inversion Hl; subst. now constructor.
  - inversion Hl; subst. constructor; auto.
Qed.

End Lists.

Lemma bidx_in_range (n i : nat) : (i < n)%nat -> bidx n i = i.
Proof.
  intros H. unfold bidx. destruct (Nat.eqb_spec n 1); subst; lia.
Qed.

(** ** Storing into the result batch *)

Section SetItem.
Local Open Scope nat_scope.

Lemma setitem_shape (res : Tensor Q) (b : nat) (v : Tensor3 Q) (r : Tensor Q) :
  setitem res b v = Ok r -> shape r = shape res.
Proof.
  unfold setitem. destruct (shape res) as [[[B H] W] C] eqn:Es.
  destruct (shape3 v) as [[h0 w0] c0].
  destruct (expands_to _ _); intros E; inversion E; subst; simpl.
  reflexivity.
Qed.

Lemma setitem_tall (P : Q -> Prop) (res : Tensor Q) (b : nat) (v : Tensor3 Q)
  (r : Tensor Q) :
  P 0%Q -> tall3 P v -> tall P res -> setitem res b v = Ok r -> tall P r.
Proof.
  intros H0 Hv Hres. unfold setitem.
  destruct (shape res) as [[[B H] W] C] eqn:Es.
  destruct (shape3 v) as [[h0 w0] c0].
  destruct (expands_to _ _); intros E; inversion E; subst; clear E.
  unfold tall; simpl. apply Forall_set_nth; auto.
  repeat (apply Forall_tabulate; intros).
  unfold get3. repeat (apply Forall_nth_default; auto).
Qed.

Lemma rebuild_data3 (H W C : nat) (v : Tensor3 Q) :
  shape3 v = (H, W, C) -> wf3 v ->
  data3 (build3 (H, W, C)
           (fun y x k => get3 0%Q v (bidx H y) (bidx W x) (bidx C k)))
  = data3 v.
Proof.
  intros Es Hwf. unfold wf3 in Hwf. rewrite Es in Hwf.
  destruct Hwf as [LH FH]. simpl. unfold get3.
  etransitivity; [| apply (tabulate_nth_id (data3 v) [])]. rewrite LH.
  apply tabulate_ext. intros y Hy. rewrite (bidx_in_range _ _ Hy).
  assert (Hrow : rect W (fun px : list Q => length px = C) (nth y (data3 v) [])).
  { rewrite Forall_forall in FH. apply FH. apply nth_In. lia. }
  destruct Hrow as [LW FW].
  etransitivity; [| apply (tabulate_nth_id (nth y (data3 v) []) [])].
  rewrite LW. apply tabulate_ext. intros x Hx. rewrite (bidx_in_range _ _ Hx).
  assert (Hpx : length (nth x (nth y (data3 v) []) []) = C).
  { rewrite Forall_forall in FW. apply FW. apply nth_In. lia. }
  etransitivity; [| apply (tabulate_nth_id (nth x (nth y (data3 v) []) []) 0%Q)].
  rewrite Hpx. apply tabulate_ext. intros k Hk. now rewrite (bidx_in_range _ _ Hk).
Qed.

Lemma expands_to_refl (s : Shape3) : expands_to s s = true.
Proof.
  destruct s as [[h w] c]. simpl. now rewrite !Nat.eqb_refl.
Qed.

Lemma setitem_same_shape (res : Tensor Q) (b : nat) (v : Tensor3 Q)
  (B H W C : nat) :
  shape res = (B, H, W, C) -> shape3 v = (H, W, C) -> wf3 v ->
  setitem res b v = Ok (mkTensor (shape res) (set_nth b (data3 v) (data res))).
Proof.
  intros Es Ev Hwf. unfold setitem. rewrite Es.
  pose proof (rebuild_data3 _ _ _ v Ev Hwf) as Hd.
  rewrite Ev in *. rewrite expands_to_refl. now rewrite Hd.
Qed.

Lemma setitem_mismatch (res : Tensor Q) (b : nat) (v : Tensor3 Q)
  (B H W C : nat) :
  shape res = (B, H, W, C) -> expands_to (shape3 v) (H, W, C) = false ->
  raises (setitem res b v).
Proof.
  intros Es Hx. unfold setitem. rewrite Es.
  destruct (shape3 v) as [[h0 w0] c0]. rewrite Hx. now eexists.
Qed.

End SetItem.

(** ** The loop over the batch *)

Section BatchLoop.
Local Open Scope nat_scope.
Variable process : nat -> Result (Tensor3 Q).

Lemma for_each_shape (bs : list nat) (r0 r : Tensor Q) :
  for_each bs (store process) r0 = Ok r -> shape r = shape r0.
Proof.
  revert r0. induction bs as [| b bs IH]; simpl; intros r0 E.
  - now inversion E.
  - destruct (store process b r0) as [r1 |] eqn:E1; try discriminate.
    rewrite (IH _ E). unfold store in E1.
    destruct (process b) as [v |]; simpl in E1; try discriminate.
    eapply setitem_shape; eauto.
Qed.

Lemma for_each_tall (P : Q -> Prop) (bs : list nat) (r0 r : Tensor Q) :
  P 0%Q ->
  (forall b v, In b bs -> process b = Ok v -> tall3 P v) ->
  tall P r0 -> for_each bs (store process) r0 = Ok r -> tall P r.
Proof.
  intros H0. revert r0. induction bs as [| b bs IH]; simpl; intros r0 Hp Hr0 E.
  - now inversion E; subst.
  - destruct (store process b r0) as [r1 |] eqn:E1; try discriminate.
    apply (IH r1); auto.
    + intros b0 v Hin. apply Hp. now right.
    + unfold store in E1.
      destruct (process b) as [v |] eqn:Ev; simpl in E1; try discriminate.
      apply (setitem_tall P r0 b v r1); auto.
      apply (Hp b v); auto.
Qed.

Lemma for_each_raises (bs : list nat) (b : nat) (r0 : Tensor Q) :
  In b bs -> raises (process b) -> raises (for_each bs (store process) r0).
Proof.
  intros Hin [e He]. revert r0.
  induction bs as [| b0 bs IH]; simpl; intros r0; [contradiction |].
  destruct (store process b0 r0) as [r1 |] eqn:E1; [| now eexists].
  destruct Hin as [-> | Hin]; [| now apply IH].
  unfold store in E1. rewrite He in E1. discriminate.
Qed.

Lemma for_each_mismatch (bs : list nat) (b : nat) (r0 : Tensor Q)
  (v : Tensor3 Q) (B H W C : nat) :
  In b bs -> process b = Ok v -> shape r0 = (B, H, W, C) ->
  expands_to (shape3 v) (H, W, C) = false ->
  raises (for_each bs (store process) r0).
Proof.
  intros Hin Hv. revert r0.
  induction bs as [| b0 bs IH]; simpl; intros r0 Es Hx; [contradiction |].
  destruct (store process b0 r0) as [r1 |] eqn:E1; [| now eexists].
  assert (Es1 : shape r1 = (B, H, W, C)).
  { rewrite <- Es. apply (for_each_shape [b0]). simpl. now rewrite E1. }
  destruct Hin as [-> | Hin]; [| now apply IH].
  unfold store in E1. rewrite Hv in E1. simpl in E1.
  destruct (setitem_mismatch r0 b v _ _ _ _ Es Hx) as [e He]. congruence.
Qed.

(** When every turn yields an array of the slot's shape, the loop returns
    the batch of these arrays. *)
Lemma for_each_ok (B H W C : nat) (vs : nat -> Tensor3 Q) :
  (forall b, b < B ->
     process b = Ok (vs b) /\ shape3 (vs b) = (H, W, C) /\ wf3 (vs b)) ->
  forall n k r0,
    k + n = B -> shape r0 = (B, H, W, C) -> length (data r0) = B ->
    exists r,
      for_each (seq k n) (store process) r0 = Ok r /\
      shape r = (B, H, W, C) /\ length (data r) = B /\
      (forall b, b < k -> nth b (data r) [] = nth b (data r0) []) /\
      (forall b, k <= b < B -> nth b (data r) [] = data3 (vs b)).
Proof.
  intros Hvs. induction n as [| n IH]; intros k r0 Hk Es Hl; simpl.
  - exists r0. repeat split; auto. intros b Hb. lia.
  - destruct (Hvs k) as (Hp & Hs & Hwf); [lia |].
    unfold store at 1. rewrite Hp. simpl.
    rewrite (setitem_same_shape r0 k _ _ _ _ _ Es Hs Hwf).
    set (r1 := mkTensor (shape r0) (set_nth k (data3 (vs k)) (data r0))).
    destruct (IH (S k) r1) as (r & Er & Esr & Hlr & Hlow & Hhigh).
    + lia.
    + exact Es.
    + unfold r1. simpl. now rewrite set_nth_length.
    + exists r. repeat split; auto.
      * intros b Hb. rewrite Hlow by lia. unfold r1. simpl.
        apply set_nth_other. lia.
      * intros b Hb. destruct (Nat.eq_dec b k) as [-> | Hne].
        -- rewrite Hlow by lia. unfold r1. simpl. apply set_nth_same. lia.
        -- apply Hhigh. lia.
Qed.

Lemma for_range_ok (B H W C : nat) (vs : nat -> Tensor3 Q) (r0 : Tensor Q) :
  (forall b, b < B ->
     process b = Ok (vs b) /\ shape3 (vs b) = (H, W, C) /\ wf3 (vs b)) ->
  shape r0 = (B, H, W, C) -> length (data r0) = B ->
  for_range B (store process) r0
  = Ok (mkTensor (B, H, W, C) (tabulate B (fun b => data3 (vs b)))).
Proof.
  intros Hvs Es Hl.
  destruct (for_each_ok B H W C vs Hvs B 0 r0) as (r & Er & Esr & Hlr & _ & Hhigh); auto.
  unfold for_range. rewrite Er. f_equal.
  destruct r as [s d]. simpl in *. subst s. f_equal.
  rewrite <- (tabulate_nth_id d []). rewrite Hlr.
  apply tabulate_ext. intros b Hb. apply Hhigh. lia.
Qed.

End BatchLoop.

(** ** Bytes and the 8-bit round trip *)

Lemma Z_of_byte_range (b : byte) : (0 <= Z_of_byte b <= 255)%Z.
Proof.
  unfold Z_of_byte. pose proof (Byte.to_N_bounded b) as Hb. lia.
Qed.

Lemma Z_of_byte_of_Z (z : Z) : Z_of_byte (byte_of_Z z) = (z mod 256)%Z.
Proof.
  unfold Z_of_byte, byte_of_Z.
  assert (Hm : (0 <= z mod 256 < 256)%Z) by (apply Z.mod_pos_bound; lia).
  destruct (Byte.of_N (Z.to_N (z mod 256))) as [b |] eqn:E.
  - apply Byte.to_of_N in E. rewrite E. apply Z2N.id. lia.
  - exfalso. pose proof (Byte.to_of_N_option_map (Z.to_N (z mod 256))) as Ho.
    rewrite E in Ho. simpl in Ho.
    destruct (N.leb_spec (Z.to_N (z mod 256)) 255) as [Hle | Hgt];
      [discriminate | lia].
Qed.

Lemma Qtrunc_inject_Z (x : Q) (n : Z) : x == inject_Z n -> Qtrunc x = n.
Proof.
  unfold Qeq, Qtrunc. destruct x as [p q]. simpl. intros E.
  rewrite Z.mul_1_r in E. subst p. apply Z.quot_mul. discriminate.
Qed.

Lemma Qtrunc_nonneg (x : Q) : 0 <= x -> Qtrunc x = Qfloor x.
Proof.
  unfold Qle, Qtrunc, Qfloor. destruct x as [p q]. simpl. intros Hx.
  apply Z.quot_div_nonneg; lia.
Qed.

Lemma on_lattice_0 : on_lattice 0.
Proof. exists 0%Z. split; [lia | reflexivity]. Qed.

Lemma on_lattice_from_uint8 (b : byte) : on_lattice (from_uint8 b).
Proof.
  exists (Z_of_byte b). split; [apply Z_of_byte_range | reflexivity].
Qed.

Lemma on_lattice_roundtrip (v : Q) :
  on_lattice v -> from_uint8 (to_uint8 (v * 255)) == v.
Proof.
  intros (n & Hn & Hv). unfold from_uint8, to_uint8.
  assert (E : v * 255 == inject_Z n) by (rewrite Hv; field).
  rewrite (Qtrunc_inject_Z _ _ E), Z_of_byte_of_Z, Z.mod_small by lia.
  now rewrite Hv.
Qed.

(** A component of [0,1] is cut to [floor (255 x)]. *)
Lemma to_uint8_floor (x : Q) :
  0 <= x <= 1 -> Z_of_byte (to_uint8 (x * 255)) = Qfloor (x * 255).
Proof.
  intros [H0 H1]. unfold to_uint8.
  assert (Hlo : 0 <= x * 255) by lra.
  assert (Hhi : x * 255 <= 255) by lra.
  rewrite Z_of_byte_of_Z, (Qtrunc_nonneg _ Hlo).
  apply Z.mod_small. split.
  - apply (Qfloor_resp_le 0) in Hlo. exact Hlo.
  - apply Qfloor_resp_le in Hhi. change (Qfloor 255) with 255%Z in Hhi. lia.
Qed.

(** ** Arrays and images *)

Section Arrays.
Local Open Scope nat_scope.

Lemma tall3_tmap3 {A B} (P : B -> Prop) (f : A -> B) (t : Tensor3 A) :
  (forall a, P (f a)) -> tall3 P (tmap3 f t).
Proof.
  intros H. unfold tall3, tmap3. simpl.
  repeat (apply Forall_forall; intros ? ?Hin; apply in_map_iff in Hin;
          destruct Hin as (? & <- & ?)).
  apply H.
Qed.

Lemma tall_zeros_like (P : Q -> Prop) (t : Tensor Q) :
  P 0%Q -> tall P (zeros_like t).
Proof.
  intros H. unfold tall, zeros_like, tmap. simpl.
  repeat (apply Forall_forall; intros ? ?Hin; apply in_map_iff in Hin;
          destruct Hin as (? & <- & ?)).
  apply H.
Qed.

Lemma wf3_tmap3 {A B} (f : A -> B) (t : Tensor3 A) : wf3 t -> wf3 (tmap3 f t).
Proof.
  unfold wf3, tmap3. simpl. destruct (shape3 t) as [[h w] c]. simpl.
  intros [Lh Fh]. split; [now rewrite length_map |].
  apply Forall_forall. intros row Hrow. apply in_map_iff in Hrow.
  destruct Hrow as (row0 & <- & Hin). rewrite Forall_forall in Fh.
  destruct (Fh _ Hin) as [Lw Fw]. split; [now rewrite length_map |].
  apply Forall_forall. intros px Hpx. apply in_map_iff in Hpx.
  destruct Hpx as (px0 & <- & Hin0). rewrite Forall_forall in Fw.
  rewrite length_map. now apply Fw.
Qed.

Lemma map_tabulate {A B} (g : A -> B) (n : nat) (f : nat -> A) :
  map g (tabulate n f) = tabulate n (fun i => g (f i)).
Proof. unfold tabulate. apply map_map. Qed.

Lemma length_concat_uniform {A} (m : nat) (l : list (list A)) :
  Forall (fun r => length r = m) l -> length (concat l) = length l * m.
Proof.
  induction 1 as [| r l Hr Hl IH]; simpl; auto.
  rewrite length_app, IH, Hr. reflexivity.
Qed.

Lemma nth_concat_uniform {A} (m : nat) (l : list (list A)) (i j : nat) (d : A) :
  Forall (fun r => length r = m) l -> j < m -> i < length l ->
  nth (i * m + j) (concat l) d = nth j (nth i l []) d.
Proof.
  intros Hl Hj. revert i. induction Hl as [| r l Hr Hl IH]; intros i Hi;
    simpl in Hi; [lia |].
  destruct i as [| i]; simpl.
  - apply app_nth1. lia.
  - rewrite app_nth2 by lia. rewrite Hr.
    replace (m + i * m + j - m) with (i * m + j) by lia. apply IH. lia.
Qed.

Lemma Forall_concat {A} (P : A -> Prop) (l : list (list A)) :
  Forall (Forall P) l -> Forall P (concat l).
Proof.
  induction 1 as [| r l Hr Hl IH]; simpl; auto. apply Forall_app. now split.
Qed.

(** Reading an (H, W, 3) byte array as an RGB image and turning the image
    into an array again gives the array back. *)
Lemma fromarray_np_array (t : Tensor3 byte) (H W : nat) :
  shape3 t = (H, W, 3) -> wf3 t ->
  exists im, fromarray t = Ok im /\ np_array im = t /\
             im_width im = W /\ im_height im = H.
Proof.
  intros Es Hwf. unfold wf3 in Hwf. rewrite Es in Hwf. simpl in Hwf.
  destruct Hwf as [LH FH].
  assert (Hrows : Forall (fun r : list (list byte) => length r = W) (data3 t)).
  { eapply Forall_impl; [| exact FH]. now intros r [Lr _]. }
  assert (Hpx : Forall (fun p : list byte => length p = 3) (concat (data3 t))).
  { apply Forall_concat. eapply Forall_impl; [| exact FH]. now intros r [_ Fr]. }
  assert (Lc : length (concat (data3 t)) = H * W).
  { now rewrite (length_concat_uniform W), LH. }
  assert (Lb : length (concat (concat (data3 t))) = H * W * 3).
  { now rewrite (length_concat_uniform 3), Lc. }
  unfold fromarray. rewrite Es, Lb, Nat.ltb_irrefl, andb_false_r.
  eexists. split; [reflexivity |]. unfold np_array. simpl.
  split; [| split; reflexivity].
  destruct t as [s d]. simpl in *. subst s. f_equal.
  rewrite map_tabulate.
  etransitivity; [| apply (tabulate_nth_id d [])]. rewrite LH.
  apply tabulate_ext. intros y Hy. rewrite map_tabulate.
  assert (Hrow : rect W (fun px : list byte => length px = 3) (nth y d [])).
  { rewrite Forall_forall in FH. apply FH. apply nth_In. lia. }
  destruct Hrow as [LW FW].
  etransitivity; [| apply (tabulate_nth_id (nth y d []) [])]. rewrite LW.
  apply tabulate_ext. intros x Hx.
  assert (Hi : y * W + x < length (concat d)) by (rewrite Lc; nia).
  assert (Hp : nth (y * W + x) (concat d) [] = nth x (nth y d []) []).
  { apply nth_concat_uniform; auto. lia. }
  assert (L3 : length (nth x (nth y d []) []) = 3).
  { rewrite Forall_forall in FW. apply FW. apply nth_In. lia. }
  rewrite <- (Nat.add_0_r ((y * W + x) * 3)) at 1.
  rewrite !(nth_concat_uniform 3) by (auto; lia). rewrite Hp.
  destruct (nth x (nth y d []) []) as [| r [| g [| b [| ? ?]]]];
    simpl in L3; try discriminate.
  reflexivity.
Qed.

End Arrays.

(** ** The three nodes that go through 8-bit images, as loops of [store] *)

Lemma for_each_ext {S} (f g : nat -> S -> Result S) (bs : list nat) (s : S) :
  (forall b r, f b r = g b r) -> for_each bs f s = for_each bs g s.
Proof.
  intros H. revert s. induction bs as [| b bs IH]; intros s; simpl; auto.
  rewrite H. destruct (g b s); auto.
Qed.

Lemma dict_get_missing {V} (d : list (string * V)) (k : string) :
  ~ In k (map fst d) -> dict_get d k = Raise (KeyError k).
Proof.
  induction d as [| [k' v] d IH]; simpl; intros H; auto.
  destruct (String.eqb_spec k k') as [-> | Hne].
  - exfalso. apply H. now left.
  - apply IH. intros Hin. apply H. now right.
Qed.

Lemma fromarray_size {t : Tensor3 byte} {im : Image} {H W C : nat} :
  shape3 t = (H, W, C) -> fromarray t = Ok im ->
  im_width im = W /\ im_height im = H.
Proof.
  unfold fromarray. intros ->.
  destruct (_ && _); intros E; inversion E; subst; simpl; auto.
Qed.

Section Loops.
Context {pil : Pillow}.

Lemma transpose_loop (image : Tensor Q) (method : string) :
  Transpose.transpose image method
  = for_range (fst (fst (fst (shape image))))
      (store (fun b => transpose_image method (select image b)))
      (zeros_like image).
Proof.
  unfold Transpose.transpose. destruct (shape image) as [[[B H] W] C]. simpl.
  apply for_each_ext. intros b r.
  unfold Transpose.transpose_step, store, transpose_image.
  destruct (fromarray _); cbn [bind]; [| reflexivity].
  destruct (dict_get Transpose.methods method); reflexivity.
Qed.

Lemma rotate_loop (image : Tensor Q) (angle : Q) (resample : string)
  (fill_color : option string) :
  Rotate.rotate image angle resample fill_color
  = for_range (fst (fst (fst (shape image))))
      (store (fun b => rotate_image angle resample fill_color (select image b)))
      (zeros_like image).
Proof.
  unfold Rotate.rotate. destruct (shape image) as [[[B H] W] C]. simpl.
  apply for_each_ext. intros b r.
  unfold Rotate.rotate_step, store, rotate_image.
  destruct (fromarray _); cbn [bind]; [| reflexivity].
  destruct (Rotate.parse_fill_color _); cbn [bind]; [| reflexivity].
  destruct (dict_get Rotate.resamplers resample); reflexivity.
Qed.

Lemma quantize_loop (image : Tensor Q) (colors : Z) (dither : string) :
  Quantize.quantize image colors dither
  = for_range (fst (fst (fst (shape image))))
      (store (fun b =>
         Quantize.quantize_image colors (Quantize.dither_option dither)
           (select image b)))
      (zeros_like image).
Proof.
  unfold Quantize.quantize. destruct (shape image) as [[[B H] W] C].
  reflexivity.
Qed.

Lemma transpose_image_lattice (method : string) (t v : Tensor3 Q) :
  transpose_image method t = Ok v -> tall3 on_lattice v.
Proof.
  unfold transpose_image. destruct (fromarray _); cbn [bind]; try discriminate.
  destruct (dict_get Transpose.methods method); cbn [bind]; try discriminate.
  intros E. inversion E. apply tall3_tmap3, on_lattice_from_uint8.
Qed.

Lemma rotate_image_lattice (angle : Q) (resample : string)
  (fill_color : option string) (t v : Tensor3 Q) :
  rotate_image angle resample fill_color t = Ok v -> tall3 on_lattice v.
Proof.
  unfold rotate_image. destruct (fromarray _); cbn [bind]; try discriminate.
  destruct (Rotate.parse_fill_color _); cbn [bind]; try discriminate.
  destruct (dict_get Rotate.resamplers resample); cbn [bind]; try discriminate.
  intros E. inversion E. apply tall3_tmap3, on_lattice_from_uint8.
Qed.

Lemma quantize_image_lattice (colors : Z) (d : Dither) (t v : Tensor3 Q) :
  Quantize.quantize_image colors d t = Ok v -> tall3 on_lattice v.
Proof.
  unfold Quantize.quantize_image.
  destruct (fromarray _); cbn [bind]; try discriminate.
  destruct (Quantize.pil_quantize _ _ None _); cbn [bind]; try discriminate.
  intros E. inversion E. apply tall3_tmap3, on_lattice_from_uint8.
Qed.

Lemma transpose_lattice (image : Tensor Q) (method : string) (r : Tensor Q) :
  Transpose.transpose image method = Ok r -> tall on_lattice r.
Proof.
  rewrite transpose_loop. unfold for_range.
  apply for_each_tall; auto using on_lattice_0, tall_zeros_like.
  intros b v _. apply transpose_image_lattice.
Qed.

Lemma rotate_lattice (image : Tensor Q) (angle : Q) (resample : string)
  (fill_color : option string) (r : Tensor Q) :
  Rotate.rotate image angle resample fill_color = Ok r -> tall on_lattice r.
Proof.
  rewrite rotate_loop. unfold for_range.
  apply for_each_tall; auto using on_lattice_0, tall_zeros_like.
  intros b v _. apply rotate_image_lattice.
Qed.

Lemma quantize_lattice (image : Tensor Q) (colors : Z) (dither : string)
  (r : Tensor Q) :
  Quantize.quantize image colors dither = Ok r -> tall on_lattice r.
Proof.
  rewrite quantize_loop. unfold for_range.
  apply for_each_tall; auto using on_lattice_0, tall_zeros_like.
  intros b v _. apply quantize_image_lattice.
Qed.

End Loops.

(** ** Transpose: shapes *)

Section TransposeShape.
Local Open Scope nat_scope.

Lemma shape_zeros_like (t : Tensor Q) : shape (zeros_like t) = shape t.
Proof. reflexivity. Qed.

(** Whatever the method, a batch that [transpose] returns has the shape of
    the input: the result buffer is [zeros_like(image)]. *)
Lemma transpose_keeps_shape (image : Tensor Q) (method : string) (r : Tensor Q) :
  Transpose.transpose image method = Ok r -> shape r = shape image.
Proof.
  rewrite transpose_loop. unfold for_range. intros E.
  apply for_each_shape in E. now rewrite E.
Qed.

Lemma transpose_image_swaps (method : string) (t v : Tensor3 Q) (H W C : nat) :
  shape3 t = (H, W, C) -> In method swapping_methods ->
  transpose_image method t = Ok v -> shape3 v = (W, H, 3).
Proof.
  intros Es Hm. unfold transpose_image.
  destruct (fromarray (to_uint8_array t)) as [im |] eqn:Ef; cbn [bind];
    try discriminate.
  assert (Hs : im_width im = W /\ im_height im = H).
  { apply (@fromarray_size (to_uint8_array t) im H W C); [exact Es | exact Ef]. }
  destruct Hs as [Hw Hh].
  simpl in Hm.
  destruct Hm as [<- | [<- | [<- | [<- | []]]]]; simpl;
    intros E; inversion E; subst; simpl; reflexivity.
Qed.

Lemma swapped_does_not_expand (H W C : nat) :
  H <> W -> expands_to (W, H, 3) (H, W, C) = false.
Proof.
  intros Hne. simpl.
  destruct (Nat.eqb_spec W H); [congruence |].
  destruct (Nat.eqb_spec W 1); simpl; auto.
  destruct (Nat.eqb_spec H W); [congruence |].
  destruct (Nat.eqb_spec H 1); simpl; auto. lia.
Qed.

(** On a batch that is not empty and whose images are not square, the four
    swapping methods make [transpose] raise: the transposed array does not
    fit the slot [result[b]]. *)
Lemma transpose_swap_nonsquare_raises (image : Tensor Q) (method : string)
  (B H W C : nat) :
  shape image = (S B, H, W, C) -> H <> W -> In method swapping_methods ->
  raises (Transpose.transpose image method).
Proof.
  intros Es Hne Hm. rewrite transpose_loop, Es. simpl fst. unfold for_range.
  destruct (transpose_image method (select image 0)) as [v | e] eqn:E.
  - apply (for_each_mismatch _ _ 0 _ v (S B) H W C); auto.
    + simpl. now left.
    + assert (E3 : shape3 (select image 0) = (H, W, C)).
      { unfold select. now rewrite Es. }
      rewrite (transpose_image_swaps _ _ _ _ _ _ E3 Hm E).
      now apply swapped_does_not_expand.
  - apply (for_each_raises _ _ 0); [simpl; now left | now exists e].
Qed.

End TransposeShape.

(** C2.  On the batch [ex12] of one 1 x 2 image every swapping method
    raises, where the specification asks for a batch of shape (1, 2, 1, 3):
    [transpose] does not return a batch whose height and width are
    swapped. *)
Theorem transpose_swap_1x2_raises :
  shape ex12 = (1, 1, 2, 3)%nat /\
  Forall (fun method =>
            Transpose.transpose ex12 method
            = Raise (RuntimeError
                "The expanded size of the tensor must match the existing size"))
         swapping_methods.
Proof.
  split; [reflexivity |]. repeat constructor.
Qed.

(** ** The 8-bit lattice *)

Lemma on_lattice_Qeq (v x : Q) : on_lattice v -> v == x -> on_lattice x.
Proof.
  intros (n & Hn & Hv) E. exists n. split; auto. now rewrite <- E.
Qed.

Lemma tall_impl {A} (P R : A -> Prop) (t : Tensor A) :
  (forall a, P a -> R a) -> tall P t -> tall R t.
Proof.
  intros H. unfold tall.
  repeat (apply Forall_impl; intros ?). apply H.
Qed.

(** C10.  Every component of a batch returned by quantize, transpose or
    rotate is [n/255] for an integer [n] of 0..255; the conversion that
    causes it cuts a component [x] of [0,1] to [floor (255 x)]; hence a
    number that is no multiple of 1/255 is no component of the output. *)
Theorem eight_bit_lattice {pil : Pillow} (r : Tensor Q) :
  lattice_node_output r ->
  tall on_lattice r /\
  (forall x, 0 <= x <= 1 -> Z_of_byte (to_uint8 (x * 255)) = Qfloor (x * 255)) /\
  (forall x, ~ on_lattice x -> tall (fun v => ~ v == x) r).
Proof.
  intros Hr.
  assert (Hl : tall on_lattice r).
  { destruct Hr as [(image & colors & dither & E) |
                    [(image & method & E) |
                     (image & angle & resample & fill_color & E)]].
    - eapply quantize_lattice; eauto.
    - eapply transpose_lattice; eauto.
    - eapply rotate_lattice; eauto. }
  split; [exact Hl |]. split; [exact to_uint8_floor |].
  intros x Hx. apply (tall_impl on_lattice); auto.
  intros v Hv E. apply Hx. now apply (on_lattice_Qeq v).
Qed.

Lemma eight_bit_lattice_witness :
  let r := mkTensor (1, 1, 2, 3)%nat
             [[[px3 (0 # 255) (127 # 255) (255 # 255);
                px3 (255 # 255) (0 # 255) (0 # 255)]]] in
  lattice_node_output (pil := Reference.pillow) r /\ tall on_lattice r.
Proof.
  intros r.
  assert (H : lattice_node_output (pil := Reference.pillow) r).
  { right. left. exists ex12, "Flip horizontal"%string. reflexivity. }
  split; [exact H |].
  exact (proj1 (eight_bit_lattice (pil := Reference.pillow) r H)).
Defined.

(** The component 1/2 of [ex12] comes back as 127/255. *)
Example flip_does_not_keep_half :
  Transpose.transpose ex12 "Flip horizontal"
  = Ok (mkTensor (1, 1, 2, 3)%nat
          [[[px3 (0 # 255) (127 # 255) (255 # 255);
             px3 (255 # 255) (0 # 255) (0 # 255)]]]).
Proof. reflexivity. Qed.

(** ** Unknown enumeration strings *)

Section UnknownStrings.
Context {pil : Pillow}.

Lemma transpose_unknown_method_raises (image : Tensor Q) (method : string)
  (B H W C : nat) :
  shape image = (S B, H, W, C) ->
  ~ In method (map fst Transpose.methods) ->
  raises (Transpose.transpose image method).
Proof.
  intros Es Hm. rewrite transpose_loop, Es. simpl fst. unfold for_range.
  apply (for_each_raises _ _ 0); [simpl; now left |].
  unfold transpose_image. destruct (fromarray _); cbn [bind]; [| now eexists].
  rewrite (dict_get_missing _ _ Hm). now eexists.
Qed.

Lemma rotate_unknown_resample_raises (image : Tensor Q) (angle : Q)
  (resample : string) (fill_color : option string) (B H W C : nat) :
  shape image = (S B, H, W, C) ->
  ~ In resample (map fst Rotate.resamplers) ->
  raises (Rotate.rotate image angle resample fill_color).
Proof.
  intros Es Hm. rewrite rotate_loop, Es. simpl fst. unfold for_range.
  apply (for_each_raises _ _ 0); [simpl; now left |].
  unfold rotate_image. destruct (fromarray _); cbn [bind]; [| now eexists].
  destruct (Rotate.parse_fill_color _); cbn [bind]; [| now eexists].
  rewrite (dict_get_missing _ _ Hm). now eexists.
Qed.

(** On an empty batch the loop body does not run: the method and the
    resampler are not looked up. *)
Lemma transpose_empty_batch (image : Tensor Q) (method : string) (H W C : nat) :
  shape image = (0%nat, H, W, C) ->
  Transpose.transpose image method = Ok (zeros_like image).
Proof. intros Es. rewrite transpose_loop, Es. reflexivity. Qed.

Lemma rotate_empty_batch (image : Tensor Q) (angle : Q) (resample : string)
  (fill_color : option string) (H W C : nat) :
  shape image = (0%nat, H, W, C) ->
  Rotate.rotate image angle resample fill_color = Ok (zeros_like image).
Proof. intros Es. rewrite rotate_loop, Es. reflexivity. Qed.

(** [quantize] has two cases only: a dither string other than
    ["floyd-steinberg"] is read as no dithering. *)
Lemma quantize_dither_fallback (image : Tensor Q) (colors : Z) (dither : string) :
  dither <> "floyd-steinberg"%string ->
  Quantize.quantize image colors dither = Quantize.quantize image colors "none".
Proof.
  intros Hd. rewrite !quantize_loop. unfold Quantize.dither_option.
  destruct (String.eqb_spec dither "floyd-steinberg"); [contradiction |].
  reflexivity.
Qed.

End UnknownStrings.

(** ** Rotate by angle 0 *)

Section RotateZero.
Local Open Scope nat_scope.
Context {pil : Pillow}.

Lemma Forall2_map_self {A} (R : A -> A -> Prop) (f : A -> A) (l : list A) :
  Forall (fun x => R (f x) x) l -> Forall2 R (map f l) l.
Proof. induction 1; simpl; constructor; auto. Qed.

Lemma Forall2_map_map {A B} (R : B -> B -> Prop) (f g : A -> B) (s : list A) :
  (forall i, In i s -> R (f i) (g i)) -> Forall2 R (map f s) (map g s).
Proof.
  induction s as [| i s IH]; simpl; intros H; constructor; auto.
Qed.

Lemma Forall2_tabulate_nth {A} (R : A -> A -> Prop) (f : nat -> A)
  (l : list A) (d : A) :
  (forall i, i < length l -> R (f i) (nth i l d)) ->
  Forall2 R (tabulate (length l) f) l.
Proof.
  intros H. rewrite <- (tabulate_nth_id l d) at 2.
  apply Forall2_map_map. intros i Hi. apply in_seq in Hi. apply H. lia.
Qed.

Lemma wf_select (image : Tensor Q) (B H W C b : nat) :
  shape image = (B, H, W, C) -> wf image -> b < B ->
  shape3 (select image b) = (H, W, C) /\ wf3 (select image b).
Proof.
  intros Es Hwf Hb. unfold wf in Hwf. rewrite Es in Hwf.
  destruct Hwf as [L F]. unfold select, wf3. rewrite Es. simpl.
  split; auto. rewrite Forall_forall in F. apply F, nth_In. lia.
Qed.

Lemma tmap3_tmap3 {A B C} (f : B -> C) (g : A -> B) (t : Tensor3 A) :
  tmap3 f (tmap3 g t) = tmap3 (fun a => f (g a)) t.
Proof.
  unfold tmap3. simpl. f_equal. rewrite map_map. apply map_ext. intros row.
  rewrite map_map. apply map_ext. intros px. apply map_map.
Qed.

Lemma rotate_image_zero (fill_color : option string) (t : Tensor3 Q)
  (H W : nat) :
  shape3 t = (H, W, 3) -> wf3 t ->
  returns (Rotate.parse_fill_color fill_color) ->
  rotate_image 0 "Nearest Neighbor" fill_color t = Ok (tmap3 requantize t).
Proof.
  intros Es Hwf [c Hc]. unfold rotate_image.
  destruct (fromarray_np_array (to_uint8_array t) H W) as (im & Ei & En & _).
  { exact Es. }
  { unfold to_uint8_array. now repeat apply wf3_tmap3. }
  rewrite Ei, Hc. cbn [bind]. simpl dict_get. cbn [bind].
  unfold Rotate.pil_rotate, convert_RGB.
  change (Qeq_bool (Rotate.mod360 0) 0) with true. cbv iota.
  rewrite En. unfold from_uint8_array, to_uint8_array.
  now rewrite !tmap3_tmap3.
Qed.

(** C3, as the code has it.  On a batch of RGB images whose components are
    all multiples of 1/255, and with a fill colour that parses, rotate by
    angle 0 with nearest resampling returns a batch equal to the input. *)
Theorem rotate_zero_nearest_on_lattice (image : Tensor Q)
  (fill_color : option string) (B H W : nat) :
  shape image = (B, H, W, 3) -> wf image -> tall on_lattice image ->
  returns (Rotate.parse_fill_color fill_color) ->
  exists r,
    Rotate.rotate image 0 "Nearest Neighbor" fill_color = Ok r /\
    tensor_eq r image.
Proof.
  intros Es Hwf Hlat Hfill.
  assert (HB : length (data image) = B).
  { unfold wf in Hwf. rewrite Es in Hwf. apply Hwf. }
  rewrite rotate_loop, Es. simpl fst.
  rewrite (for_range_ok _ B H W 3 (fun b => tmap3 requantize (select image b))).
  - eexists. split; [reflexivity |]. split; [now rewrite Es |]. simpl.
    rewrite <- HB. apply (Forall2_tabulate_nth _ _ _ []).
    intros b Hb. unfold select. rewrite Es. simpl.
    assert (Himg : Forall (Forall (Forall on_lattice)) (nth b (data image) [])).
    { unfold tall in Hlat. rewrite Forall_forall in Hlat. now apply Hlat, nth_In. }
    apply Forall2_map_self. eapply Forall_impl; [| exact Himg].
    intros row Hrow. apply Forall2_map_self. eapply Forall_impl; [| exact Hrow].
    intros px Hpx. apply Forall2_map_self. eapply Forall_impl; [| exact Hpx].
    intros v Hv. now apply on_lattice_roundtrip.
  - intros b Hb. destruct (wf_select image B H W 3 b Es Hwf Hb) as [E3 W3].
    split; [| split].
    + now apply (rotate_image_zero fill_color _ H W).
    + exact E3.
    + now apply wf3_tmap3.
  - now rewrite shape_zeros_like.
  - unfold zeros_like, tmap. simpl. now rewrite length_map.
Qed.

End RotateZero.

Lemma rotate_zero_nearest_on_lattice_witness :
  exists r,
    Rotate.rotate (pil := Reference.pillow) ex_lattice 0 "Nearest Neighbor"
      (Some "(255, 0 ,0)"%string) = Ok r /\
    tensor_eq r ex_lattice.
Proof.
  apply (rotate_zero_nearest_on_lattice (pil := Reference.pillow)
           ex_lattice (Some "(255, 0 ,0)"%string) 1 1 2).
  - reflexivity.
  - repeat (split || constructor).
  - repeat constructor.
    + exists 255%Z. split; [lia | reflexivity].
    + exists 0%Z. split; [lia | reflexivity].
    + exists 0%Z. split; [lia | reflexivity].
    + exists 0%Z. split; [lia | reflexivity].
    + exists 127%Z. split; [lia | reflexivity].
    + exists 255%Z. split; [lia | reflexivity].
  - eexists. reflexivity.
Defined.

(** C3 as stated fails: the component 1/2 of [ex12] is cut to 127/255. *)
Lemma rotate_zero_nearest_changes_half :
  exists r,
    Rotate.rotate (pil := Reference.pillow) ex12 0 "Nearest Neighbor"
      (Some "#000000"%string) = Ok r /\
    ~ tensor_eq r ex12.
Proof.
  exists (mkTensor (1, 1, 2, 3)%nat
            [[[px3 (255 # 255) (0 # 255) (0 # 255);
               px3 (0 # 255) (127 # 255) (255 # 255)]]]).
  split; [reflexivity |].
  intros [_ H]. unfold ex12, px3 in H. simpl in H.
  repeat match goal with
         | H : Forall2 _ (_ :: _) (_ :: _) |- _ => inversion H; clear H; subst
         end.
  match goal with
  | H : 127 # 255 == 1 # 2 |- _ => vm_compute in H; discriminate H
  end.
Qed.

(** ** The fill-colour parser *)

Section Parser.
Local Open Scope nat_scope.

Lemma at_end_optional (s : list ascii) : at_end s = true -> optional newline s.
Proof.
  destruct s as [| c [| c' s]]; simpl; intros H; try discriminate.
  - now left.
  - right. apply Nat.eqb_eq in H. unfold newline. rewrite <- H.
    now rewrite ascii_nat_embedding.
Qed.

Lemma match_hex6_sound (s : list ascii) :
  match_hex6 is_hex s = true -> hex6_form s.
Proof.
  destruct s as [| h [| a [| b [| c [| d [| e [| f rest]]]]]]]; simpl;
    try discriminate.
  intros H. repeat (apply andb_prop in H; destruct H as [H ?]).
  apply Ascii.eqb_eq in H. subst h.
  exists [a; b; c; d; e; f], rest.
  split; [reflexivity |]. split; [reflexivity |].
  split; [simpl; assumption | now apply at_end_optional].
Qed.

Lemma span_digits_spec (s ds r : list ascii) :
  span_digits s = (ds, r) -> s = ds ++ r /\ forallb is_digit ds = true.
Proof.
  revert ds r. induction s as [| c s IH]; simpl; intros ds r E.
  - inversion E. auto.
  - destruct (is_digit c) eqn:Ec.
    + destruct (span_digits s) as [ds' r'] eqn:Es. inversion E; subst.
      destruct (IH ds' r eq_refl) as [-> Hd]. simpl. now rewrite Ec, Hd.
    + inversion E. auto.
Qed.

Lemma group_digits_spec (s ds r : list ascii) :
  group_digits s = Some (ds, r) ->
  s = ds ++ r /\ forallb is_digit ds = true /\ 1 <= length ds <= 3.
Proof.
  unfold group_digits. destruct (span_digits s) as [ds' r'] eqn:Es.
  destruct (_ && _) eqn:El; intros E; inversion E; subst.
  apply span_digits_spec in Es. destruct Es as [-> Hd].
  apply andb_prop in El. destruct El as [H1 H3].
  apply Nat.leb_le in H1, H3. auto.
Qed.

Lemma skip_char_spec (c : ascii) (s : list ascii) :
  exists p, optional c p /\ s = p ++ skip_char c s.
Proof.
  destruct s as [| c' s]; simpl.
  - exists []. split; [now left | reflexivity].
  - destruct (Ascii.eqb_spec c c') as [<- | Hne].
    + exists [c]. split; [now right | reflexivity].
    + exists []. split; [now left | reflexivity].
Qed.

Lemma expect_char_spec (c : ascii) (s r : list ascii) :
  expect_char c s = Some r -> s = c :: r.
Proof.
  destruct s as [| c' s]; simpl; try discriminate.
  destruct (Ascii.eqb_spec c c') as [<- | Hne]; intros E; inversion E; auto.
Qed.

Lemma match_triplet_sound (s g1 g2 g3 : list ascii) :
  match_triplet s = Some (g1, g2, g3) ->
  exists lp rp nl,
    s = lp ++ g1 ++ ","%char :: g2 ++ ","%char :: g3 ++ rp ++ nl /\
    optional "("%char lp /\ optional ")"%char rp /\ optional newline nl /\
    (1 <= length g1 <= 3 /\ forallb is_digit g1 = true) /\
    (1 <= length g2 <= 3 /\ forallb is_digit g2 = true) /\
    (1 <= length g3 <= 3 /\ forallb is_digit g3 = true).
Proof.
  unfold match_triplet.
  destruct (skip_char_spec "("%char s) as (lp & Hlp & Es).
  destruct (group_digits _) as [[d1 r1] |] eqn:E1; try discriminate.
  apply group_digits_spec in E1. destruct E1 as (E1 & D1 & L1).
  destruct (expect_char _ r1) as [r1' |] eqn:X1; try discriminate.
  apply expect_char_spec in X1.
  destruct (group_digits r1') as [[d2 r2] |] eqn:E2; try discriminate.
  apply group_digits_spec in E2. destruct E2 as (E2 & D2 & L2).
  destruct (expect_char _ r2) as [r2' |] eqn:X2; try discriminate.
  apply expect_char_spec in X2.
  destruct (group_digits r2') as [[d3 r3] |] eqn:E3; try discriminate.
  apply group_digits_spec in E3. destruct E3 as (E3 & D3 & L3).
  destruct (skip_char_spec ")"%char r3) as (rp & Hrp & Er).
  destruct (at_end _) eqn:Ee; intros E; inversion E; subst g1 g2 g3.
  apply at_end_optional in Ee.
  exists lp, rp, (skip_char ")"%char r3). repeat split; auto; try lia.
  rewrite Es at 1. rewrite E1, X1, E2, X2, E3. rewrite Er at 1. reflexivity.
Qed.

Context {pil : Pillow}.
Hypothesis names : lowercase_names pil.

Lemma not_a_name (k : string) :
  forallb is_lower (chars k) = false -> colormap k = None.
Proof.
  intros H. destruct (colormap k) as [v |] eqn:E; auto.
  apply names in E. congruence.
Qed.

(** A string of none of the three forms is refused. *)
Lemma parse_palette_refuses (s : string) :
  ~ hex6_form (chars s) -> ~ named_form s -> ~ triplet_form (chars s) ->
  Rotate.parse_palette s = Raise (ValueError "Invalid color format").
Proof.
  intros Hh Hn Ht. unfold Rotate.parse_palette.
  destruct (match_hex6 is_hex (chars s)) eqn:Eh.
  { exfalso. now apply Hh, match_hex6_sound. }
  unfold Rotate.in_colormap.
  destruct (colormap (lower s)) eqn:Ec.
  { exfalso. apply Hn. unfold named_form. now rewrite Ec. }
  simpl. destruct (match_triplet (chars s)) as [[[g1 g2] g3] |] eqn:Em; auto.
  destruct (_ && _) eqn:El; auto.
  exfalso. apply Ht. apply match_triplet_sound in Em.
  destruct Em as (lp & rp & nl & E & Hlp & Hrp & Hnl & [L1 D1] & [L2 D2] & [L3 D3]).
  apply andb_prop in El. destruct El as [El B3].
  apply andb_prop in El. destruct El as [B1 B2].
  apply Z.leb_le in B1, B2, B3.
  exists lp, g1, g2, g3, rp, nl. unfold component. repeat split; auto; lia.
Qed.

Lemma parse_hex_red :
  Rotate.parse_fill_color (Some "#ff0000"%string) = Ok [255; 0; 0]%Z.
Proof.
  unfold Rotate.parse_fill_color.
  change (remove_spaces (Rotate.or_default (Some "#ff0000"%string)))
    with "#ff0000"%string.
  unfold Rotate.parse_palette, Rotate.getrgb.
  change (lower "#ff0000") with "#ff0000"%string.
  rewrite (not_a_name "#ff0000" eq_refl). reflexivity.
Qed.

Lemma parse_triplet_red :
  Rotate.parse_fill_color (Some "255,0,0"%string) = Ok [255; 0; 0]%Z.
Proof.
  unfold Rotate.parse_fill_color.
  change (remove_spaces (Rotate.or_default (Some "255,0,0"%string)))
    with "255,0,0"%string.
  unfold Rotate.parse_palette, Rotate.in_colormap.
  change (lower "255,0,0") with "255,0,0"%string.
  rewrite (not_a_name "255,0,0" eq_refl). reflexivity.
Qed.

Lemma parse_spaced_triplet_red :
  Rotate.parse_fill_color (Some "(255, 0 ,0)"%string) = Ok [255; 0; 0]%Z.
Proof.
  unfold Rotate.parse_fill_color.
  change (remove_spaces (Rotate.or_default (Some "(255, 0 ,0)"%string)))
    with "(255,0,0)"%string.
  unfold Rotate.parse_palette, Rotate.in_colormap.
  change (lower "(255,0,0)") with "(255,0,0)"%string.
  rewrite (not_a_name "(255,0,0)" eq_refl). reflexivity.
Qed.

Lemma parse_default_black (fill_color : option string) :
  fill_color = None \/ fill_color = Some ""%string ->
  Rotate.parse_fill_color fill_color = Ok [0; 0; 0]%Z.
Proof.
  intros [-> | ->]; unfold Rotate.parse_fill_color;
    change (remove_spaces (Rotate.or_default _)) with "#000000"%string;
    unfold Rotate.parse_palette, Rotate.getrgb;
    change (lower "#000000") with "#000000"%string;
    rewrite (not_a_name "#000000" eq_refl); reflexivity.
Qed.

Lemma parse_bad_hex :
  Rotate.parse_fill_color (Some "#zz0000"%string)
  = Raise (ValueError "Invalid color format").
Proof.
  unfold Rotate.parse_fill_color.
  change (remove_spaces (Rotate.or_default (Some "#zz0000"%string)))
    with "#zz0000"%string.
  unfold Rotate.parse_palette, Rotate.in_colormap.
  change (lower "#zz0000") with "#zz0000"%string.
  rewrite (not_a_name "#zz0000" eq_refl). reflexivity.
Qed.

End Parser.

(** C9, as the code has it.  The three notations of red parse to
    (255, 0, 0); an empty or a missing spec parses to (0, 0, 0);
    ["#zz0000"] is refused; and so is every string of ASCII characters
    that is none of the forms [hex6_form], [named_form], [triplet_form]. *)
Theorem fill_color_parser {pil : Pillow} :
  lowercase_names pil ->
  Rotate.parse_fill_color (Some "#ff0000"%string) = Ok [255; 0; 0]%Z /\
  Rotate.parse_fill_color (Some "255,0,0"%string) = Ok [255; 0; 0]%Z /\
  Rotate.parse_fill_color (Some "(255, 0 ,0)"%string) = Ok [255; 0; 0]%Z /\
  Rotate.parse_fill_color (Some ""%string) = Ok [0; 0; 0]%Z /\
  Rotate.parse_fill_color None = Ok [0; 0; 0]%Z /\
  Rotate.parse_fill_color (Some "#zz0000"%string)
    = Raise (ValueError "Invalid color format") /\
  (forall s : string,
     ascii_only s ->
     ~ hex6_form (chars s) -> ~ named_form s -> ~ triplet_form (chars s) ->
     Rotate.parse_palette s = Raise (ValueError "Invalid color format")).
Proof.
  intros names. repeat split.
  - now apply parse_hex_red.
  - now apply parse_triplet_red.
  - now apply parse_spaced_triplet_red.
  - apply parse_default_black; auto.
  - apply parse_default_black; auto.
  - now apply parse_bad_hex.
  - intros s _. now apply parse_palette_refuses.
Qed.

Lemma reference_lowercase_names : lowercase_names Reference.pillow.
Proof.
  intros k v. simpl. unfold Reference.basic_colors. simpl.
  repeat match goal with
         | |- context [String.eqb k ?n] =>
             destruct (String.eqb_spec k n); [subst; reflexivity |]
         end.
  discriminate.
Qed.

Lemma fill_color_parser_witness :
  lowercase_names Reference.pillow /\
  Rotate.parse_fill_color (pil := Reference.pillow) (Some "(255, 0 ,0)"%string)
    = Ok [255; 0; 0]%Z /\
  ascii_only "#zz0000" /\
  Rotate.parse_palette (pil := Reference.pillow) "#zz0000"
    = Raise (ValueError "Invalid color format").
Proof.
  split; [exact reference_lowercase_names |].
  destruct (fill_color_parser (pil := Reference.pillow) reference_lowercase_names)
    as (_ & _ & H3 & _ & _ & _ & H7).
  split; [exact H3 |]. split; [reflexivity |]. apply H7.
  - reflexivity.
  - intros (ds & nl & E & L & F & _).
    destruct ds as [| a [| b [| c [| d [| e [| f [| ? ?]]]]]]];
      simpl in L; try discriminate.
    inversion E; subst. discriminate F.
  - intros H. apply H. reflexivity.
  - intros (lp & r & g & b & rp & nl & E & Hlp & _ & _ & (Lr & Dr & _) & _).
    destruct Hlp as [-> | ->]; simpl in E.
    + destruct r as [| c r]; simpl in Lr; [lia |].
      inversion E; subst. discriminate Dr.
    + inversion E.
Defined.

(** C9 as stated fails on an unbalanced parenthesis: ["(255,0,0"] is none
    of the forms of the specification, and it parses to (255, 0, 0). *)
Lemma unbalanced_triplet_is_parsed :
  Rotate.parse_fill_color (pil := Reference.pillow) (Some "(255,0,0"%string)
    = Ok [255; 0; 0]%Z /\
  ~ spec_hex6 (chars "(255,0,0") /\
  ~ named_form (pil := Reference.pillow) "(255,0,0" /\
  ~ spec_triplet (chars "(255,0,0").
Proof.
  split; [reflexivity |]. split; [| split].
  - intros (ds & E & _). inversion E.
  - intros H. apply H. reflexivity.
  - intros (r & g & b & (Nr & Dr & _) & _ & _ & [E | E]).
    + destruct r as [| c r]; [congruence |].
      inversion E; subst. discriminate Dr.
    + apply (f_equal (@rev ascii)) in E. simpl in E.
      repeat (rewrite rev_app_distr in E; simpl in E).
      discriminate E.
Qed.

(** ** Tensors by their components *)

Section Denotes.
Local Open Scope nat_scope.

Lemma nth_map_in_range {A B} (g : A -> B) (l : list A) (i : nat) (d : A) (d' : B) :
  i < length l -> nth i (map g l) d' = g (nth i l d).
Proof.
  intros H. rewrite (nth_indep _ d' (g d)) by now rewrite length_map.
  apply map_nth.
Qed.

Lemma wf_lengths {A} (t : Tensor A) (B H W C b y x : nat) :
  shape t = (B, H, W, C) -> wf t ->
  length (data t) = B /\
  (b < B -> length (nth b (data t) []) = H) /\
  (b < B -> y < H -> length (nth y (nth b (data t) []) []) = W) /\
  (b < B -> y < H -> x < W ->
   length (nth x (nth y (nth b (data t) []) []) []) = C).
Proof.
  intros Es Hwf. unfold wf in Hwf. rewrite Es in Hwf.
  destruct Hwf as [LB FB]. split; [exact LB |].
  assert (Hb : b < B -> wf3_data (H, W, C) (nth b (data t) [])).
  { intros Hb. rewrite Forall_forall in FB. apply FB, nth_In. lia. }
  split; [intros Hb'; now destruct (Hb Hb') |].
  assert (Hy : b < B -> y < H ->
               rect W (fun px : list A => length px = C)
                 (nth y (nth b (data t) []) [])).
  { intros Hb' Hy. destruct (Hb Hb') as [LH FH].
    rewrite Forall_forall in FH. apply FH, nth_In. lia. }
  split; [intros Hb' Hy'; now destruct (Hy Hb' Hy') |].
  intros Hb' Hy' Hx. destruct (Hy Hb' Hy') as [LW FW].
  rewrite Forall_forall in FW. apply FW, nth_In. lia.
Qed.

Lemma shape_build {A} (s : Shape) (f : nat -> nat -> nat -> nat -> A) :
  shape (build s f) = s.
Proof. now destruct s as [[[B H] W] C]. Qed.

Lemma wf_build {A} (s : Shape) (f : nat -> nat -> nat -> nat -> A) :
  wf (build s f).
Proof.
  destruct s as [[[B H] W] C]. unfold wf. simpl.
  split; [apply tabulate_length |]. apply Forall_tabulate. intros b _.
  split; [apply tabulate_length |]. apply Forall_tabulate. intros y _.
  split; [apply tabulate_length |]. apply Forall_tabulate. intros x _.
  apply tabulate_length.
Qed.

Lemma get_build {A} (d : A) (s : Shape) (f : nat -> nat -> nat -> nat -> A)
  (b y x c : nat) :
  in_shape s b y x c -> get d (build s f) b y x c = f b y x c.
Proof.
  destruct s as [[[B H] W] C]. simpl. intros (Hb & Hy & Hx & Hc).
  unfold get. simpl. now rewrite !tabulate_nth.
Qed.

Lemma denotes_build {A} (d : A) (s : Shape) (f : nat -> nat -> nat -> nat -> A) :
  denotes d (build s f) s f.
Proof.
  split; [apply shape_build |]. split; [apply wf_build |].
  intros b y x c. apply get_build.
Qed.

Lemma denotes_self {A} (d : A) (t : Tensor A) :
  wf t -> denotes d t (shape t) (get d t).
Proof. intros H. repeat split; auto. Qed.

Lemma denotes_ext {A} (d : A) (t : Tensor A) (s : Shape)
  (f f' : nat -> nat -> nat -> nat -> A) :
  denotes d t s f ->
  (forall b y x c, in_shape s b y x c -> f b y x c = f' b y x c) ->
  denotes d t s f'.
Proof.
  intros (Es & Hwf & Hg) He. repeat split; auto.
  intros b y x c Hi. rewrite Hg by exact Hi. now apply He.
Qed.

Lemma wf_tmap {A B} (g : A -> B) (t : Tensor A) : wf t -> wf (tmap g t).
Proof.
  unfold wf, tmap. simpl. destruct (shape t) as [[[B0 H] W] C].
  intros [LB FB]. split; [now rewrite length_map |].
  apply Forall_forall. intros img Hin. apply in_map_iff in Hin.
  destruct Hin as (img0 & <- & Hin). rewrite Forall_forall in FB.
  apply (wf3_tmap3 g (mkTensor3 (H, W, C) img0)). now apply FB.
Qed.

Lemma denotes_tmap {A B} (d : A) (d' : B) (g : A -> B) (t : Tensor A)
  (s : Shape) (f : nat -> nat -> nat -> nat -> A) :
  denotes d t s f ->
  denotes d' (tmap g t) s (fun b y x c => g (f b y x c)).
Proof.
  intros (Es & Hwf & Hg). split; [exact Es |]. split; [now apply wf_tmap |].
  intros b y x c Hi. rewrite <- Hg by exact Hi.
  destruct s as [[[B0 H] W] C]. simpl in Hi. destruct Hi as (Hb & Hy & Hx & Hc).
  destruct (wf_lengths t B0 H W C b y x Es Hwf) as (L0 & L1 & L2 & L3).
  unfold get, tmap. simpl.
  rewrite (nth_map_in_range _ _ _ []) by lia.
  rewrite (nth_map_in_range _ _ _ []) by (rewrite L1; lia).
  rewrite (nth_map_in_range _ _ _ []) by (rewrite L2; lia).
  apply nth_map_in_range. rewrite L3; lia.
Qed.

Lemma bdim_refl (n : nat) : bdim n n = Some n.
Proof. unfold bdim. now rewrite Nat.eqb_refl. Qed.

Lemma bshape_refl (s : Shape) : bshape s s = Some s.
Proof. destruct s as [[[B H] W] C]. simpl. now rewrite !bdim_refl. Qed.

Lemma bget_in_shape {A} (d : A) (t : Tensor A) (b y x c : nat) :
  in_shape (shape t) b y x c -> bget d t b y x c = get d t b y x c.
Proof.
  unfold bget. destruct (shape t) as [[[B H] W] C]. simpl.
  intros (Hb & Hy & Hx & Hc). now rewrite !bidx_in_range.
Qed.

Lemma denotes_bop {A B C} (da : A) (db : B) (dc : C) (g : A -> B -> C)
  (t1 : Tensor A) (t2 : Tensor B) (s : Shape)
  (f1 : nat -> nat -> nat -> nat -> A) (f2 : nat -> nat -> nat -> nat -> B) :
  denotes da t1 s f1 -> denotes db t2 s f2 ->
  exists r, bop da db g t1 t2 = Ok r /\
            denotes dc r s (fun b y x c => g (f1 b y x c) (f2 b y x c)).
Proof.
  intros (E1 & W1 & G1) (E2 & W2 & G2). unfold bop.
  rewrite E1, E2, bshape_refl. eexists. split; [reflexivity |].
  eapply denotes_ext; [apply denotes_build |].
  intros b y x c Hi. simpl.
  rewrite !bget_in_shape by (rewrite ?E1, ?E2; exact Hi).
  now rewrite G1, G2.
Qed.

Lemma denotes_twhere (cond : Tensor bool) (a b : Tensor R) (s : Shape)
  (fc : nat -> nat -> nat -> nat -> bool)
  (fa fb : nat -> nat -> nat -> nat -> R) :
  denotes false cond s fc -> denotes 0%R a s fa -> denotes 0%R b s fb ->
  exists r, twhere cond a b = Ok r /\
            denotes 0%R r s
              (fun i y x k => if fc i y x k then fa i y x k else fb i y x k).
Proof.
  intros (Ec & Wc & Gc) (Ea & Wa & Ga) (Eb & Wb & Gb). unfold twhere.
  rewrite Ec, Ea, bshape_refl, Eb, bshape_refl. eexists. split; [reflexivity |].
  eapply denotes_ext; [apply denotes_build |].
  intros i y x k Hi. simpl.
  rewrite !bget_in_shape by (rewrite ?Ec, ?Ea, ?Eb; exact Hi).
  now rewrite Gc, Ga, Gb.
Qed.

End Denotes.

(** ** Blend: the formulas *)

Ltac den := repeat (first [eassumption | eapply (denotes_tmap 0%R)]).

Ltac bstep :=
  match goal with
  | |- context [bind (bop _ _ ?g ?a ?b) _] =>
      let r := fresh "r" in
      let E := fresh "E" in
      let D := fresh "D" in
      edestruct (denotes_bop 0%R 0%R 0%R g a b) as (r & E & D);
      [den | den | rewrite E; cbn [bind]; clear E]
  end.

Section BlendFormula.
Context {comfy : Comfy}.
Local Open Scope R_scope.

Lemma if_Rleb {A} (x y : R) (a b : A) :
  (if Rleb x y then a else b) = (if Rle_dec x y then a else b).
Proof. unfold Rleb. now destruct (Rle_dec x y). Qed.

Lemma g_denotes (x : Tensor R) (s : Shape) (f : nat -> nat -> nat -> nat -> R) :
  denotes 0 x s f ->
  exists r, Blend.g x = Ok r /\
            denotes 0 r s (fun b y x c => g_formula (f b y x c)).
Proof.
  intros Dx. unfold Blend.g, tbin. bstep. bstep.
  edestruct (denotes_twhere (tmap (fun v => Rleb v (1 / 4)) x) r0
               (tmap sqrt x)) as (r' & E & D'); [den | den | den |].
  exists r'. split; [exact E |].
  eapply denotes_ext; [exact D' |]. intros b y x0 c _. simpl.
  unfold g_formula. apply if_Rleb.
Qed.

Lemma blend_mode_denotes (img1 img2 : Tensor R) (mode : string) (s : Shape)
  (f1 f2 : nat -> nat -> nat -> nat -> R) :
  denotes 0 img1 s f1 -> denotes 0 img2 s f2 -> In mode Blend.modes ->
  exists r, Blend.blend_mode img1 img2 mode = Ok r /\
            denotes 0 r s
              (fun b y x c => blend_formula mode (f1 b y x c) (f2 b y x c)).
Proof.
  intros D1 D2 Hm. simpl in Hm.
  destruct Hm as [<- | [<- | [<- | [<- | [<- | []]]]]];
    unfold Blend.blend_mode, blend_formula, tbin; simpl String.eqb; cbv iota.
  - exists img2. split; [reflexivity | exact D2].
  - apply denotes_bop; assumption.
  - bstep. eexists. split; [reflexivity |]. den.
  - bstep. bstep.
    edestruct (denotes_twhere (tmap (fun v => Rleb v (1 / 2)) img1) r
                 (tmap (fun v => 1 - v) r0)) as (r' & E & D'); [den | den | den |].
    exists r'. split; [exact E |].
    eapply denotes_ext; [exact D' |]. intros b y x c _. simpl. apply if_Rleb.
  - bstep. bstep. bstep.
    destruct (g_denotes img1 s f1 D1) as (gi & Eg & Dg). rewrite Eg. cbn [bind].
    bstep. bstep. bstep.
    edestruct (denotes_twhere (tmap (fun v => Rleb v (1 / 2)) img2) r1 r4)
      as (r' & E & D'); [den | den | den |].
    exists r'. split; [exact E |].
    eapply denotes_ext; [exact D' |]. intros b y x c _. simpl.
    rewrite if_Rleb. destruct (Rle_dec _ _); unfold Rminus; ring.
Qed.

Lemma shape_eqb_refl (s : Shape) : shape_eqb s s = true.
Proof. destruct s as [[[B H] W] C]. simpl. now rewrite !Nat.eqb_refl. Qed.

(** C4.  On two well-formed batches of one shape, [blend_images] returns
    a batch of that shape whose every component is
    [clamp (img1 * (1 - factor) + blended * factor, 0, 1)], [blended]
    being the formula of the mode at the two components. *)
Theorem blend_computes_formula (image1 image2 : Tensor R) (factor : R)
  (mode : string) (s : Shape) :
  shape image1 = s -> shape image2 = s -> wf image1 -> wf image2 ->
  tall (fun v => 0 <= v <= 1) image1 -> tall (fun v => 0 <= v <= 1) image2 ->
  0 <= factor <= 1 -> In mode Blend.modes ->
  exists r,
    Blend.blend_images image1 image2 factor mode = Ok r /\
    shape r = s /\ wf r /\
    forall b y x c, in_shape s b y x c ->
      get 0 r b y x c
      = blend_output mode factor (get 0 image1 b y x c) (get 0 image2 b y x c).
Proof.
  intros E1 E2 W1 W2 _ _ _ Hm.
  assert (D1 : denotes 0 image1 s (get 0 image1)).
  { rewrite <- E1. now apply denotes_self. }
  assert (D2 : denotes 0 image2 s (get 0 image2)).
  { rewrite <- E2. now apply denotes_self. }
  unfold Blend.blend_images, Blend.resized, Blend.needs_resize.
  rewrite E1, E2, shape_eqb_refl. cbn [negb bind].
  destruct (blend_mode_denotes image1 image2 mode s _ _ D1 D2 Hm)
    as (m & Em & Dm).
  rewrite Em. cbn [bind]. unfold tbin. bstep.
  eexists. split; [reflexivity |].
  assert (Dr : denotes 0 (tmap clamp01 r) s
                 (fun b y x c =>
                    blend_output mode factor (get 0 image1 b y x c)
                      (get 0 image2 b y x c))).
  { eapply denotes_ext; [den |]. intros b y x c _. reflexivity. }
  destruct Dr as (Es & Wr & Gr). auto.
Qed.

End BlendFormula.

Lemma blend_computes_formula_witness :
  exists r,
    Blend.blend_images (comfy := reference_comfy)
      (gray (1 / 2)) (gray (1 / 4)) (1 / 2) "overlay" = Ok r /\
    shape r = (1, 1, 1, 1)%nat /\ wf r /\
    forall b y x c, in_shape (1, 1, 1, 1)%nat b y x c ->
      get 0%R r b y x c
      = blend_output "overlay" (1 / 2)
          (get 0%R (gray (1 / 2)) b y x c) (get 0%R (gray (1 / 4)) b y x c).
Proof.
  apply (blend_computes_formula (comfy := reference_comfy)
           (gray (1 / 2)) (gray (1 / 4)) (1 / 2)%R "overlay" (1, 1, 1, 1)%nat).
  - reflexivity.
  - reflexivity.
  - repeat (split || constructor).
  - repeat (split || constructor).
  - unfold tall, gray. simpl. repeat (apply Forall_cons || apply Forall_nil). lra.
  - unfold tall, gray. simpl. repeat (apply Forall_cons || apply Forall_nil). lra.
  - lra.
  - simpl. auto.
Defined.

(** ** Blend: shapes, resizing and broadcasting *)

Section Broadcast.
Local Open Scope nat_scope.

Ltac eqbs :=
  repeat match goal with
         | |- context [Nat.eqb ?a ?b] => destruct (Nat.eqb_spec a b)
         | H : context [Nat.eqb ?a ?b] |- _ => destruct (Nat.eqb_spec a b)
         end.

Lemma bdim_facts (n m k : nat) :
  bdim n m = Some k ->
  bdim m n = Some k /\ bdim n k = Some k /\ bdim k n = Some k /\
  bdim m k = Some k /\ bdim k m = Some k /\ bdim k k = Some k.
Proof.
  unfold bdim. intros H. eqbs; inversion H; subst;
    repeat split; try reflexivity; try lia; f_equal; lia.
Qed.

Lemma bdim_none_comm (n m : nat) : bdim n m = None -> bdim m n = None.
Proof.
  unfold bdim. intros H. eqbs; try discriminate; try reflexivity; lia.
Qed.

Lemma bshape_facts (s1 s2 s : Shape) :
  bshape s1 s2 = Some s ->
  bshape s2 s1 = Some s /\ bshape s1 s = Some s /\ bshape s s1 = Some s /\
  bshape s2 s = Some s /\ bshape s s2 = Some s /\ bshape s s = Some s.
Proof.
  destruct s1 as [[[b1 h1] w1] c1], s2 as [[[b2 h2] w2] c2]. simpl.
  destruct (bdim b1 b2) as [b |] eqn:Eb; try discriminate.
  destruct (bdim h1 h2) as [h |] eqn:Eh; try discriminate.
  destruct (bdim w1 w2) as [w |] eqn:Ew; try discriminate.
  destruct (bdim c1 c2) as [c |] eqn:Ec; try discriminate.
  intros E. inversion E; subst. simpl.
  destruct (bdim_facts _ _ _ Eb) as (-> & -> & -> & -> & -> & ->).
  destruct (bdim_facts _ _ _ Eh) as (-> & -> & -> & -> & -> & ->).
  destruct (bdim_facts _ _ _ Ew) as (-> & -> & -> & -> & -> & ->).
  destruct (bdim_facts _ _ _ Ec) as (-> & -> & -> & -> & -> & ->).
  repeat split.
Qed.

Lemma bshape_none_comm (s1 s2 : Shape) :
  bshape s1 s2 = None -> bshape s2 s1 = None.
Proof.
  destruct s1 as [[[b1 h1] w1] c1], s2 as [[[b2 h2] w2] c2]. simpl.
  destruct (bdim b1 b2) eqn:Eb.
  2:{ now rewrite (bdim_none_comm _ _ Eb). }
  destruct (bdim h1 h2) eqn:Eh.
  2:{ rewrite (bdim_none_comm _ _ Eh). now destruct (bdim b2 b1). }
  destruct (bdim w1 w2) eqn:Ew.
  2:{ rewrite (bdim_none_comm _ _ Ew).
      now destruct (bdim b2 b1), (bdim h2 h1). }
  destruct (bdim c1 c2) eqn:Ec; try discriminate.
  rewrite (bdim_none_comm _ _ Ec).
  now destruct (bdim b2 b1), (bdim h2 h1), (bdim w2 w1).
Qed.

Lemma bop_ok {A B C} (da : A) (db : B) (g : A -> B -> C)
  (t1 : Tensor A) (t2 : Tensor B) (s : Shape) :
  bshape (shape t1) (shape t2) = Some s ->
  exists r, bop da db g t1 t2 = Ok r /\ shape r = s.
Proof.
  intros E. unfold bop. rewrite E. eexists. split; [reflexivity |].
  apply shape_build.
Qed.

Lemma bop_raises {A B C} (da : A) (db : B) (g : A -> B -> C)
  (t1 : Tensor A) (t2 : Tensor B) :
  bshape (shape t1) (shape t2) = None -> raises (bop da db g t1 t2).
Proof. intros E. unfold bop. rewrite E. now eexists. Qed.

Lemma twhere_ok (cond : Tensor bool) (a b : Tensor R) (s1 s : Shape) :
  bshape (shape cond) (shape a) = Some s1 -> bshape s1 (shape b) = Some s ->
  exists r, twhere cond a b = Ok r /\ shape r = s.
Proof.
  intros E1 E2. unfold twhere. rewrite E1, E2. eexists.
  split; [reflexivity |]. apply shape_build.
Qed.

End Broadcast.

Ltac shp :=
  cbn [shape tmap];
  repeat match goal with
         | H : shape ?r = _ |- context [shape ?r] => rewrite H
         end;
  first [eassumption | apply bshape_refl].

Ltac sstep :=
  match goal with
  | |- context [bind (bop ?da ?db ?g ?a ?b) _] =>
      let r := fresh "r" in
      let E := fresh "E" in
      let S := fresh "S" in
      edestruct (bop_ok da db g a b) as (r & E & S);
      [shp | rewrite E; cbn [bind]; clear E]
  end.

Section BlendShapes.
Context {comfy : Comfy}.
Local Open Scope nat_scope.

Lemma g_shape (x : Tensor R) :
  exists r, Blend.g x = Ok r /\ shape r = shape x.
Proof.
  unfold Blend.g, tbin. sstep. sstep.
  edestruct (twhere_ok (tmap (fun v => Rleb v (1 / 4)) x) r0 (tmap sqrt x))
    as (r' & E & S'); [shp | shp |].
  exists r'. split; auto.
Qed.

(** Broadcast-compatible operands: [blend_mode] returns, and what it
    returns broadcasts with [img1] to the common shape. *)
Lemma blend_mode_broadcasts (img1 img2 : Tensor R) (mode : string) (s : Shape) :
  bshape (shape img1) (shape img2) = Some s -> In mode Blend.modes ->
  exists r, Blend.blend_mode img1 img2 mode = Ok r /\
            bshape (shape img1) (shape r) = Some s.
Proof.
  intros F0 Hm.
  destruct (bshape_facts _ _ _ F0) as (F1 & F2 & F3 & F4 & F5 & F6).
  simpl in Hm.
  destruct Hm as [<- | [<- | [<- | [<- | [<- | []]]]]];
    unfold Blend.blend_mode, tbin; simpl String.eqb; cbv iota.
  - exists img2. auto.
  - destruct (bop_ok 0%R 0%R Rmult img1 img2 s F0) as (r & E & S).
    exists r. split; auto. now rewrite S.
  - sstep. eexists. split; [reflexivity |]. shp.
  - sstep. sstep.
    edestruct (twhere_ok (tmap (fun v => Rleb v (1 / 2)%R) img1) r
                 (tmap (fun v => (1 - v)%R) r0)) as (r' & E & S'); [shp | shp |].
    exists r'. split; auto. now rewrite S'.
  - sstep. sstep. sstep.
    destruct (g_shape img1) as (gi & Eg & Sg). rewrite Eg. cbn [bind].
    sstep. sstep. sstep.
    edestruct (twhere_ok (tmap (fun v => Rleb v (1 / 2)%R) img2) r1 r4)
      as (r' & E & S'); [shp | shp |].
    exists r'. split; auto. now rewrite S'.
Qed.

(** Operands that do not broadcast: [blend_mode] raises, but for mode
    normal, which hands [img2] back without looking at [img1]. *)
Lemma blend_mode_incompatible (img1 img2 : Tensor R) (mode : string) :
  bshape (shape img1) (shape img2) = None -> In mode Blend.modes ->
  raises (Blend.blend_mode img1 img2 mode) \/
  Blend.blend_mode img1 img2 mode = Ok img2.
Proof.
  intros F0 Hm. pose proof (bshape_none_comm _ _ F0) as F1. simpl in Hm.
  destruct Hm as [<- | [<- | [<- | [<- | [<- | []]]]]];
    unfold Blend.blend_mode, tbin; simpl String.eqb; cbv iota.
  - now right.
  - left. now apply bop_raises.
  - left. unfold bop. cbn [shape tmap]. rewrite F0. now eexists.
  - left. unfold bop at 1. cbn [shape tmap]. rewrite F0. now eexists.
  - left. unfold bop at 1. cbn [shape tmap]. rewrite F1. now eexists.
Qed.

Lemma blend_unknown_mode_raises (image1 image2 : Tensor R) (factor : R)
  (mode : string) :
  ~ In mode Blend.modes ->
  raises (Blend.blend_images image1 image2 factor mode).
Proof.
  intros Hm. unfold Blend.blend_images.
  destruct (Blend.resized image1 image2) as [img2 | e]; cbn [bind];
    [| now eexists].
  unfold Blend.blend_mode.
  repeat match goal with
         | |- context [String.eqb mode ?m] =>
             destruct (String.eqb_spec mode m);
             [exfalso; apply Hm; subst; simpl; tauto |]
         end.
  now eexists.
Qed.

End BlendShapes.

Section BlendResize.
Context {comfy : Comfy}.
Hypothesis contract : upscale_contract comfy.
Local Open Scope nat_scope.

Lemma shape_eqb_spec (s t : Shape) : shape_eqb s t = true <-> s = t.
Proof.
  destruct s as [[[b1 h1] w1] c1], t as [[[b2 h2] w2] c2]. simpl.
  rewrite !andb_true_iff, !Nat.eqb_eq. split.
  - intros [[[-> ->] ->] ->]. reflexivity.
  - intros E. inversion E. auto.
Qed.

Lemma needs_resize_iff (image1 image2 : Tensor R) :
  Blend.needs_resize image1 image2 = true <-> shape image1 <> shape image2.
Proof.
  unfold Blend.needs_resize. rewrite negb_true_iff, <- not_true_iff_false.
  now rewrite shape_eqb_spec.
Qed.

Lemma shape_permute_0312 (t : Tensor R) (b h w c : nat) :
  shape t = (b, h, w, c) -> shape (permute_0312 t) = (b, c, h, w).
Proof. intros E. unfold permute_0312. rewrite E. reflexivity. Qed.

Lemma shape_permute_0231 (t : Tensor R) (b c h w : nat) :
  shape t = (b, c, h, w) -> shape (permute_0231 t) = (b, h, w, c).
Proof. intros E. unfold permute_0231. rewrite E. reflexivity. Qed.

Lemma wf_permute_0312 (t : Tensor R) : wf (permute_0312 t).
Proof.
  unfold permute_0312. destruct (shape t) as [[[b h] w] c]. apply wf_build.
Qed.

(** Whatever enters the blend as image2 has the height and width of image1
    and the batch size and channel count of image2. *)
Lemma resized_shape (image1 image2 img2 : Tensor R)
  (B1 H1 W1 C1 B2 H2 W2 C2 : nat) :
  shape image1 = (B1, H1, W1, C1) -> shape image2 = (B2, H2, W2, C2) ->
  Blend.resized image1 image2 = Ok img2 -> shape img2 = (B2, H1, W1, C2).
Proof.
  intros E1 E2. unfold Blend.resized.
  destruct (Blend.needs_resize image1 image2) eqn:En.
  - rewrite E1.
    destruct (common_upscale (permute_0312 image2) W1 H1) as [t' |] eqn:Eu;
      cbn [bind]; try discriminate.
    intros E. inversion E; subst.
    destruct (@upscale_shape comfy contract _ _ _ _ _ _ _ _
                (shape_permute_0312 _ _ _ _ _ E2) Eu) as [Et _].
    now apply shape_permute_0231.
  - intros E. inversion E; subst.
    apply not_true_iff_false in En. rewrite needs_resize_iff in En.
    assert (Es : shape image1 = shape img2).
    { destruct (shape_eqb (shape image1) (shape img2)) eqn:Eq.
      - now apply shape_eqb_spec.
      - exfalso. apply En. intros Es. apply shape_eqb_spec in Es. congruence. }
    rewrite E1, E2 in Es. inversion Es; subst. exact E2.
Qed.

Lemma resized_returns (image1 image2 : Tensor R)
  (B1 H1 W1 C1 B2 H2 W2 C2 : nat) :
  shape image1 = (B1, H1, W1, C1) -> shape image2 = (B2, H2, W2, C2) ->
  0 < H1 -> 0 < W1 -> 0 < H2 -> 0 < W2 ->
  returns (Blend.resized image1 image2).
Proof.
  intros E1 E2 P1 P2 P3 P4. unfold Blend.resized.
  destruct (Blend.needs_resize image1 image2); [| now eexists].
  rewrite E1.
  destruct (@upscale_returns comfy contract (permute_0312 image2) W1 H1
              _ _ _ _ (shape_permute_0312 _ _ _ _ _ E2)
              (wf_permute_0312 image2))
    as [t' Et]; auto.
  rewrite Et. now eexists.
Qed.


End BlendResize.

Lemma reference_upscale_contract : upscale_contract reference_comfy.
Proof.
  constructor; simpl; unfold nearest_upscale.
  - intros t w h t' b c h0 w0 Es. rewrite Es.
    destruct (_ || _)%bool; intros E; inversion E; subst.
    split; [reflexivity |].
    exact (wf_build (b, c, h, w)
             (fun i k y x => get 0%R t i k (y * h0 / h)%nat (x * w0 / w)%nat)).
  - intros t w h b c h0 w0 Es _ Hh Hw _ _. rewrite Es.
    destruct (Nat.eqb_spec h0 0); [lia |].
    destruct (Nat.eqb_spec w0 0); [lia |]. now eexists.
Qed.



(** ** Enumeration strings outside the listed values *)

(** C1, as the code has it.  An unlisted blend mode makes [blend_images]
    raise; an unlisted method makes [transpose], and an unlisted resampler
    makes [rotate], raise on a batch that is not empty; [quantize] reads
    every dither string other than ["floyd-steinberg"] as no dithering. *)
Theorem unknown_enum_strings {pil : Pillow} {comfy : Comfy} :
  (forall image1 image2 factor mode,
     ~ In mode Blend.modes ->
     raises (Blend.blend_images image1 image2 factor mode)) /\
  (forall image method B H W C,
     shape image = (S B, H, W, C) ->
     ~ In method (map fst Transpose.methods) ->
     raises (Transpose.transpose image method)) /\
  (forall image angle resample fill_color B H W C,
     shape image = (S B, H, W, C) ->
     ~ In resample (map fst Rotate.resamplers) ->
     raises (Rotate.rotate image angle resample fill_color)) /\
  (forall image colors dither,
     dither <> "floyd-steinberg"%string ->
     Quantize.quantize image colors dither
     = Quantize.quantize image colors "none").
Proof.
  split; [| split; [| split]].
  - intros. now apply blend_unknown_mode_raises.
  - intros. eapply transpose_unknown_method_raises; eauto.
  - intros. eapply rotate_unknown_resample_raises; eauto.
  - intros. now apply quantize_dither_fallback.
Qed.

Ltac not_listed :=
  simpl; intros H;
  repeat match goal with
         | H : _ \/ _ |- _ => destruct H as [H | H]; [discriminate H |]
         end;
  exact H.

Lemma unknown_enum_strings_witness :
  raises (Blend.blend_images (comfy := reference_comfy)
            (gray (1 / 2)) (gray (1 / 4)) (1 / 2) "bogus") /\
  raises (Transpose.transpose ex12 "bogus") /\
  raises (Rotate.rotate (pil := Reference.pillow) ex12 0 "bogus" None) /\
  Quantize.quantize (pil := Reference.pillow) ex22 2 "bogus"
  = Quantize.quantize (pil := Reference.pillow) ex22 2 "none".
Proof.
  destruct (unknown_enum_strings (pil := Reference.pillow)
              (comfy := reference_comfy)) as (H1 & H2 & H3 & H4).
  split; [| split; [| split]].
  - apply H1. not_listed.
  - apply (H2 ex12 "bogus"%string 0%nat 1%nat 2%nat 3%nat eq_refl). not_listed.
  - apply (H3 ex12 0 "bogus"%string None 0%nat 1%nat 2%nat 3%nat eq_refl).
    not_listed.
  - apply H4. discriminate.
Defined.

(** C1 as stated fails: with a dither string that is not listed, quantize
    returns a quantized batch; and on an empty batch transpose returns
    without looking the method up. *)
Lemma quantize_unknown_dither_returns :
  Quantize.quantize (pil := Reference.pillow) ex22 2 "bogus"
  = Ok (mkTensor (1, 2, 2, 3)%nat
          [[[px3 (255 # 255) (0 # 255) (0 # 255);
             px3 (0 # 255) (127 # 255) (255 # 255)];
            [px3 (255 # 255) (0 # 255) (0 # 255);
             px3 (0 # 255) (127 # 255) (255 # 255)]]]) /\
  Transpose.transpose ex_empty "bogus" = Ok ex_empty.
Proof. split; reflexivity. Qed.

(** ** The Gaussian kernel *)

Section Gaussian.
Local Open Scope R_scope.

Lemma combine_map_map {A B C} (f : A -> B) (g : A -> C) (l : list A) :
  combine (map f l) (map g l) = map (fun a => (f a, g a)) l.
Proof. induction l as [| a l IH]; simpl; congruence. Qed.

Lemma zip2_grid {A} (f : R -> R -> R) (F G : A -> A -> R) (l : list A) :
  zip2 f (grid F l) (grid G l) = grid (fun a b => f (F a b) (G a b)) l.
Proof.
  unfold zip2, grid. rewrite combine_map_map, map_map.
  apply map_ext. intros a. simpl. now rewrite combine_map_map, map_map.
Qed.

Lemma map2_grid {A} (f : R -> R) (F : A -> A -> R) (l : list A) :
  map2 f (grid F l) = grid (fun a b => f (F a b)) l.
Proof.
  unfold map2, grid. rewrite map_map. apply map_ext. intros a.
  now rewrite map_map.
Qed.

Lemma grid_ext {A} (F G : A -> A -> R) (l : list A) :
  (forall a b, F a b = G a b) -> grid F l = grid G l.
Proof.
  intros H. unfold grid. apply map_ext. intros a. apply map_ext. intros b.
  apply H.
Qed.

Lemma meshgrid_grids (l : list R) :
  meshgrid_ij l l = (grid (fun a _ => a) l, grid (fun _ b => b) l).
Proof.
  unfold meshgrid_ij, grid. f_equal. apply map_ext. intros a.
  now rewrite map_id.
Qed.

Lemma Rsum_map_div (S : R) (l : list R) :
  Rsum (map (fun v => v / S) l) = Rsum l / S.
Proof.
  induction l as [| a l IH]; simpl.
  - unfold Rdiv. ring.
  - rewrite IH. unfold Rdiv. ring.
Qed.

Lemma sum2_map2_div (S : R) (k : list (list R)) :
  sum2 (map2 (fun v => v / S) k) = sum2 k / S.
Proof.
  unfold sum2, map2. rewrite map_map.
  rewrite (map_ext _ (fun row => Rsum row / S)) by (intros; apply Rsum_map_div).
  rewrite <- (map_map Rsum (fun v => v / S)). apply Rsum_map_div.
Qed.

Lemma Rsum_pos (l : list R) :
  l <> [] -> Forall (fun v => 0 < v) l -> 0 < Rsum l.
Proof.
  intros Hne Hl. destruct l as [| a l]; [congruence |].
  inversion Hl as [| ? ? Ha Hl']; subst. simpl.
  assert (H0 : 0 <= Rsum l).
  { clear Hne Hl Ha. induction Hl' as [| b l Hb _ IH]; simpl; lra. }
  lra.
Qed.

Lemma gaussian_samples_sum_pos (r : nat) (sigma : R) :
  0 < sum2 (gaussian_samples r sigma).
Proof.
  unfold sum2, gaussian_samples. apply Rsum_pos.
  - unfold tabulate. rewrite Nat.add_1_r. simpl. discriminate.
  - apply Forall_forall. intros v Hv. apply in_map_iff in Hv.
    destruct Hv as (row & <- & Hrow). apply in_map_iff in Hrow.
    destruct Hrow as (i & <- & _). apply Rsum_pos.
    + unfold tabulate. rewrite Nat.add_1_r. simpl. discriminate.
    + apply Forall_tabulate. intros j _. apply exp_pos.
Qed.

(** The coordinates of the sampling grid. *)
Lemma linspace_coordinate (r : nat) :
  (1 <= r)%nat ->
  linspace (-1) 1 (r * 2 + 1) = tabulate (2 * r + 1) (coordinate r).
Proof.
  intros Hr. unfold linspace. replace (r * 2 + 1)%nat with (2 * r + 1)%nat by lia.
  apply tabulate_ext. intros i _. unfold coordinate.
  replace (2 * r + 1 - 1)%nat with (2 * r)%nat by lia.
  rewrite mult_INR. simpl (INR 2).
  assert (Hr0 : INR r <> 0) by (apply not_0_INR; lia).
  field. exact Hr0.
Qed.

(** The kernel before it is normalized is the Gaussian at the samples. *)
Lemma gaussian_kernel_samples (r : nat) (sigma : R) :
  (1 <= r)%nat ->
  Blur.gaussian_kernel (r * 2 + 1) sigma
  = map2 (fun v => v / sum2 (gaussian_samples r sigma))
      (gaussian_samples r sigma).
Proof.
  intros Hr. unfold Blur.gaussian_kernel.
  rewrite meshgrid_grids, !zip2_grid, map2_grid, zip2_grid, !map2_grid.
  set (lin := linspace (-1) 1 (r * 2 + 1)).
  assert (Hg : grid (fun a b =>
                 exp (- (sqrt (a * a + b * b) * sqrt (a * a + b * b))
                      / (2 * sigma * sigma))) lin
               = gaussian_samples r sigma).
  { rewrite (grid_ext _ (gaussian sigma)).
    - unfold lin. rewrite (linspace_coordinate r Hr).
      unfold grid, gaussian_samples. rewrite map_tabulate.
      apply tabulate_ext. intros i _. now rewrite map_tabulate.
    - intros a b. unfold gaussian. rewrite sqrt_sqrt; [reflexivity |]. nra. }
  rewrite Hg.
  rewrite <- (map2_grid (fun v => v / sum2 (gaussian_samples r sigma))).
  now rewrite Hg.
Qed.

(** C6.  For a radius r >= 1 and 0.1 <= sigma <= 10 the kernel has
    (2r+1) x (2r+1) entries; its samples run from -1 to 1 in both axes,
    whatever r is; an entry is [exp (-(x^2+y^2) / (2 sigma^2))] at its
    sample, divided by the sum of these values over the grid; and the
    entries sum to 1, so to 1 within 1e-5. *)
Theorem gaussian_kernel_normalized (r : nat) (sigma : R) :
  (1 <= r)%nat -> 1 / 10 <= sigma <= 10 ->
  let k := Blur.gaussian_kernel (r * 2 + 1) sigma in
  let S := sum2 (gaussian_samples r sigma) in
  length k = (2 * r + 1)%nat /\
  Forall (fun row => length row = (2 * r + 1)%nat) k /\
  coordinate r 0 = -1 /\ coordinate r (2 * r) = 1 /\
  (forall i j, (i < 2 * r + 1)%nat -> (j < 2 * r + 1)%nat ->
     nth j (nth i k []) 0
     = exp (- (coordinate r i * coordinate r i
               + coordinate r j * coordinate r j) / (2 * sigma * sigma)) / S) /\
  sum2 k = 1 /\ Rabs (sum2 k - 1) <= 1 / 100000.
Proof.
  intros Hr _ k S. unfold k. rewrite (gaussian_kernel_samples r sigma Hr).
  fold S. assert (HS : 0 < S) by apply gaussian_samples_sum_pos.
  assert (Hr0 : INR r <> 0) by (apply not_0_INR; lia).
  assert (Hsum : sum2 (map2 (fun v => v / S) (gaussian_samples r sigma)) = 1).
  { rewrite sum2_map2_div. fold S. field. lra. }
  split; [| split; [| split; [| split; [| split; [| split]]]]].
  - unfold map2, gaussian_samples. now rewrite length_map, tabulate_length.
  - unfold map2, gaussian_samples. rewrite map_tabulate.
    apply Forall_tabulate. intros i _. now rewrite length_map, tabulate_length.
  - unfold coordinate. simpl. unfold Rdiv. ring.
  - unfold coordinate. rewrite mult_INR. simpl (INR 2). field. exact Hr0.
  - intros i j Hi Hj. unfold map2, gaussian_samples.
    rewrite map_tabulate, (tabulate_nth _ _ _ [] Hi).
    rewrite map_tabulate, (tabulate_nth _ _ _ 0 Hj). reflexivity.
  - exact Hsum.
  - rewrite Hsum. replace (1 - 1) with 0 by ring. rewrite Rabs_R0. lra.
Qed.

End Gaussian.

Lemma gaussian_kernel_normalized_witness :
  sum2 (Blur.gaussian_kernel (1 * 2 + 1) 1) = 1%R.
Proof.
  apply (gaussian_kernel_normalized 1 1%R).
  - lia.
  - lra.
Defined.

(** ** The sharpen kernel and the clamp *)

Section SharpenProps.
Local Open Scope R_scope.

Lemma clamp01_range (x : R) : 0 <= clamp01 x <= 1.
Proof.
  unfold clamp01, Rmin, Rmax.
  destruct (Rle_dec x 0); destruct (Rle_dec _ 1); lra.
Qed.

Lemma tall_tmap {A B} (P : B -> Prop) (g : A -> B) (t : Tensor A) :
  (forall a, P (g a)) -> tall P (tmap g t).
Proof.
  intros H. unfold tall, tmap. simpl.
  repeat (apply Forall_forall; intros ? ?Hin; apply in_map_iff in Hin;
          destruct Hin as (? & <- & ?)).
  apply H.
Qed.

Lemma center_of_kernel (r : nat) : ((r * 2 + 1) / 2 = r)%nat.
Proof.
  symmetry. apply (Nat.div_unique _ 2 r 1); lia.
Qed.

Lemma sharpen_kernel_cells (r : nat) (alpha : R) (i j : nat) :
  (i < 2 * r + 1)%nat -> (j < 2 * r + 1)%nat ->
  nth j (nth i (Sharpen.sharpen_kernel r alpha) []) 0
  = if ((i =? r) && (j =? r))%nat then alpha * INR (2 * r + 1) ^ 2
    else - alpha.
Proof.
  intros Hi Hj. unfold Sharpen.sharpen_kernel, map2.
  rewrite center_of_kernel.
  replace (r * 2 + 1)%nat with (2 * r + 1)%nat by lia.
  set (ks := (2 * r + 1)%nat) in *.
  set (ones := tabulate ks (fun _ => tabulate ks (fun _ => 1 * -1))).
  assert (Lo : length ones = ks) by apply tabulate_length.
  assert (Lrow : forall y, (y < ks)%nat -> nth y ones [] = tabulate ks (fun _ => 1 * -1)).
  { intros y Hy. unfold ones. now rewrite tabulate_nth. }
  rewrite (nth_map_in_range _ _ _ []) by (rewrite set_nth_length; lia).
  destruct (Nat.eqb_spec i r) as [-> | Hne]; cbn [andb].
  - rewrite set_nth_same by lia.
    rewrite (nth_map_in_range _ _ _ 0)
      by (rewrite set_nth_length, Lrow, tabulate_length; unfold ks; lia).
    destruct (Nat.eqb_spec j r) as [-> | Hnj].
    + rewrite set_nth_same
        by (rewrite Lrow, tabulate_length; unfold ks; lia).
      rewrite pow_INR. ring.
    + rewrite set_nth_other by lia. rewrite Lrow by (unfold ks; lia).
      rewrite tabulate_nth by exact Hj. ring.
  - rewrite set_nth_other by lia. rewrite Lrow by exact Hi.
    rewrite (nth_map_in_range _ _ _ 0) by (now rewrite tabulate_length).
    rewrite tabulate_nth by exact Hj. ring.
Qed.

Lemma sharpen_clamped (image out : Tensor R) (r : nat) (alpha : R) :
  (1 <= r)%nat -> Sharpen.sharpen image r alpha = Ok out ->
  tall (fun v => 0 <= v <= 1) out.
Proof.
  intros Hr. unfold Sharpen.sharpen.
  destruct (Nat.eqb_spec r 0); [lia |].
  destruct (Sharpen.sharpened image r alpha); cbn [bind]; try discriminate.
  intros E. inversion E. apply tall_tmap, clamp01_range.
Qed.

Lemma sharpen_returns (image : Tensor R) (r : nat) (alpha : R)
  (B H W C : nat) :
  (1 <= r)%nat -> shape image = (B, H, W, C) ->
  (0 < H)%nat -> (0 < W)%nat -> (0 < C)%nat ->
  exists out, Sharpen.sharpen image r alpha = Ok out /\
              shape out = (B, H, W, C).
Proof.
  intros Hr Es HH HW HC. unfold Sharpen.sharpen, Sharpen.sharpened.
  destruct (Nat.eqb_spec r 0); [lia |]. rewrite Es.
  unfold conv2d_depthwise, repeat_kernel.
  rewrite (shape_permute_0312 image B H W C Es), shape_build.
  rewrite center_of_kernel.
  destruct (Nat.eqb_spec C 0); [lia |].
  rewrite Nat.eqb_refl. cbn [andb negb Nat.eqb].
  destruct (Nat.ltb_spec (H + 2 * r) (r * 2 + 1)); [lia |].
  destruct (Nat.ltb_spec (W + 2 * r) (r * 2 + 1)); [lia |].
  cbn [orb bind]. eexists. split; [reflexivity |].
  cbn [shape tmap]. unfold permute_0231. rewrite shape_build, shape_build.
  repeat f_equal; lia.
Qed.

(** C7.  For a radius r >= 1 and 0.1 <= alpha <= 5, the cell of the
    sharpen kernel at the centre is [alpha (2r+1)^2] and every other cell
    is [-alpha]; [sharpen] returns a batch on an image that is not empty,
    and every component of what it returns lies in [0,1]. *)
Theorem sharpen_kernel_and_clamp (r : nat) (alpha : R) :
  (1 <= r)%nat -> 1 / 10 <= alpha <= 5 ->
  (forall i j, (i < 2 * r + 1)%nat -> (j < 2 * r + 1)%nat ->
     nth j (nth i (Sharpen.sharpen_kernel r alpha) []) 0
     = if ((i =? r) && (j =? r))%nat then alpha * INR (2 * r + 1) ^ 2
       else - alpha) /\
  (forall image B H W C,
     shape image = (B, H, W, C) -> (0 < H)%nat -> (0 < W)%nat -> (0 < C)%nat ->
     exists out, Sharpen.sharpen image r alpha = Ok out /\
                 shape out = (B, H, W, C)) /\
  (forall image out,
     Sharpen.sharpen image r alpha = Ok out ->
     tall (fun v => 0 <= v <= 1) out).
Proof.
  intros Hr _. split; [| split].
  - intros i j. apply sharpen_kernel_cells.
  - intros image B H W C. now apply sharpen_returns.
  - intros image out. now apply sharpen_clamped.
Qed.

End SharpenProps.

Lemma sharpen_kernel_and_clamp_witness :
  nth 1 (nth 1 (Sharpen.sharpen_kernel 1 1) []) 0%R = (1 * INR (2 * 1 + 1) ^ 2)%R /\
  exists out,
    Sharpen.sharpen (gray 1) 1 1 = Ok out /\
    shape out = (1, 1, 1, 1)%nat /\
    tall (fun v => 0 <= v <= 1)%R out.
Proof.
  assert (Hr : (1 <= 1)%nat) by lia.
  assert (Ha : (1 / 10 <= 1 <= 5)%R) by lra.
  destruct (sharpen_kernel_and_clamp 1 1%R Hr Ha) as (Hk & Hret & Hcl).
  split.
  - apply (Hk 1%nat 1%nat); lia.
  - destruct (Hret (gray 1) 1%nat 1%nat 1%nat 1%nat eq_refl) as (out & E & Es);
      try lia.
    exists out. split; [exact E |]. split; [exact Es |].
    now apply (Hcl (gray 1)).
Defined.

(** On the one white pixel [gray 1] with radius 1 and alpha 1 the
    convolution gives 9, and [sharpen] returns 1. *)
Example sharpen_clamps_overshoot :
  exists s out,
    Sharpen.sharpened (gray 1) 1 1 = Ok s /\ get 0%R s 0 0 0 0 = 9%R /\
    Sharpen.sharpen (gray 1) 1 1 = Ok out /\ get 0%R out 0 0 0 0 = 1%R.
Proof.
  eexists. eexists. split; [reflexivity |]. split.
  - cbv - [Rplus Rmult Rminus Ropp Rinv Rdiv IZR Rle_dec Rmin Rmax]. lra.
  - split; [reflexivity |].
    cbv - [Rplus Rmult Rminus Ropp Rinv Rdiv IZR Rle_dec Rmin Rmax].
    unfold Rmin, Rmax.
    repeat match goal with
           | |- context [Rle_dec ?a ?b] => destruct (Rle_dec a b)
           end; lra.
Qed.

(** * Further properties of the nodes *)

(** ** Tensors are determined by their components *)

Section TensorExt.
Local Open Scope nat_scope.

Lemma tensor_ext {A} (d : A) (t1 t2 : Tensor A) :
  shape t1 = shape t2 -> wf t1 -> wf t2 ->
  (forall b y x c, in_shape (shape t1) b y x c ->
     get d t1 b y x c = get d t2 b y x c) ->
  t1 = t2.
Proof.
  intros Es W1 W2 Hg. destruct t1 as [s d1], t2 as [s2 d2]. simpl in *.
  subst s2. f_equal. destruct s as [[[B H] W] C].
  pose proof (fun b y x => wf_lengths (mkTensor (B, H, W, C) d1) B H W C b y x
                             eq_refl W1) as L1.
  pose proof (fun b y x => wf_lengths (mkTensor (B, H, W, C) d2) B H W C b y x
                             eq_refl W2) as L2.
  simpl in L1, L2.
  destruct (L1 0 0 0) as (Ld1 & _). destruct (L2 0 0 0) as (Ld2 & _).
  apply (nth_ext _ _ [] []); [congruence |]. intros b Hb. rewrite Ld1 in Hb.
  destruct (L1 b 0 0) as (_ & Lb1 & _). destruct (L2 b 0 0) as (_ & Lb2 & _).
  apply (nth_ext _ _ [] []); [rewrite Lb1, Lb2; auto |].
  intros y Hy. rewrite Lb1 in Hy by exact Hb.
  destruct (L1 b y 0) as (_ & _ & Ly1 & _).
  destruct (L2 b y 0) as (_ & _ & Ly2 & _).
  apply (nth_ext _ _ [] []); [rewrite Ly1, Ly2; auto |].
  intros x Hx. rewrite Ly1 in Hx by assumption.
  destruct (L1 b y x) as (_ & _ & _ & Lx1).
  destruct (L2 b y x) as (_ & _ & _ & Lx2).
  apply (nth_ext _ _ d d); [rewrite Lx1, Lx2; auto |].
  intros c Hc. rewrite Lx1 in Hc by assumption.
  apply (Hg b y x c). simpl. auto.
Qed.

Lemma tall_get {A} (P : A -> Prop) (d : A) (t : Tensor A) (b y x c : nat) :
  wf t -> tall P t -> in_shape (shape t) b y x c -> P (get d t b y x c).
Proof.
  intros Hwf Ht Hi. destruct (shape t) as [[[B H] W] C] eqn:Es.
  simpl in Hi. destruct Hi as (Hb & Hy & Hx & Hc).
  destruct (wf_lengths t B H W C b y x Es Hwf) as (L0 & L1 & L2 & L3).
  unfold tall in Ht. unfold get.
  assert (F1 : Forall (Forall (Forall P)) (nth b (data t) [])).
  { rewrite Forall_forall in Ht. apply Ht, nth_In. lia. }
  assert (F2 : Forall (Forall P) (nth y (nth b (data t) []) [])).
  { rewrite Forall_forall in F1. apply F1, nth_In. rewrite L1; lia. }
  assert (F3 : Forall P (nth x (nth y (nth b (data t) []) []) [])).
  { rewrite Forall_forall in F2. apply F2, nth_In. rewrite L2; lia. }
  rewrite Forall_forall in F3. apply F3, nth_In. rewrite L3; lia.
Qed.

End TensorExt.

(** ** Blend: range, and the two ends of the factor *)

Section BlendMore.
Context {comfy : Comfy}.
Local Open Scope R_scope.

Lemma blend_images_denotes (image1 image2 : Tensor R) (factor : R)
  (mode : string) (s : Shape) (f1 f2 : nat -> nat -> nat -> nat -> R) :
  denotes 0 image1 s f1 -> denotes 0 image2 s f2 -> In mode Blend.modes ->
  exists r,
    Blend.blend_images image1 image2 factor mode = Ok r /\
    denotes 0 r s
      (fun b y x c => blend_output mode factor (f1 b y x c) (f2 b y x c)).
Proof.
  intros D1 D2 Hm.
  unfold Blend.blend_images, Blend.resized, Blend.needs_resize.
  destruct D1 as (E1 & W1 & G1). destruct D2 as (E2 & W2 & G2).
  rewrite E1, E2, shape_eqb_refl. cbn [negb bind].
  assert (D1 : denotes 0 image1 s f1) by (repeat split; auto).
  assert (D2 : denotes 0 image2 s f2) by (repeat split; auto).
  destruct (blend_mode_denotes image1 image2 mode s _ _ D1 D2 Hm)
    as (m & Em & Dm).
  rewrite Em. cbn [bind]. unfold tbin. bstep.
  eexists. split; [reflexivity |].
  eapply denotes_ext; [den |]. intros b y x c _. reflexivity.
Qed.

Lemma clamp01_id (x : R) : 0 <= x <= 1 -> clamp01 x = x.
Proof.
  intros H. unfold clamp01, Rmin, Rmax.
  destruct (Rle_dec x 0); destruct (Rle_dec _ 1); lra.
Qed.

Lemma g_formula_range (a : R) : 0 <= a <= 1 -> a <= g_formula a <= 1.
Proof.
  intros [H0 H1]. unfold g_formula. destruct (Rle_dec a (1 / 4)) as [Hq | Hq].
  - split.
    + nra.
    + assert (0 <= a * a * (3 - 4 * a)) by (apply Rmult_le_pos; nra). nra.
  - assert (Hs : sqrt a * sqrt a = a) by (apply sqrt_sqrt; lra).
    assert (Hp : 0 <= sqrt a) by apply sqrt_pos.
    assert (Hle : sqrt a <= 1).
    { rewrite <- sqrt_1. apply sqrt_le_1; lra. }
    split; nra.
Qed.

Lemma blend_formula_range (mode : string) (a b : R) :
  0 <= a <= 1 -> 0 <= b <= 1 -> 0 <= blend_formula mode a b <= 1.
Proof.
  intros Ha Hb. unfold blend_formula.
  destruct (String.eqb mode "normal"); [lra |].
  destruct (String.eqb mode "multiply"); [nra |].
  destruct (String.eqb mode "screen"); [nra |].
  destruct (String.eqb mode "overlay").
  - destruct (Rle_dec a (1 / 2)); nra.
  - pose proof (g_formula_range a Ha) as Hg.
    destruct (Rle_dec b (1 / 2)).
    + assert (Hu : 0 <= a * (1 - a)) by nra.
      assert (Ht : 0 <= (1 - 2 * b) * (a * (1 - a)) <= a * (1 - a)) by nra.
      replace ((1 - 2 * b) * a * (1 - a)) with ((1 - 2 * b) * (a * (1 - a)))
        by ring.
      nra.
    + assert (Ht : 0 <= (2 * b - 1) * (g_formula a - a) <= g_formula a - a)
        by nra.
      lra.
Qed.

(** X1.  Whatever the inputs, every component of a batch that
    [blend_images] returns lies in [0,1]. *)
Theorem blend_result_in_unit_range (image1 image2 : Tensor R) (factor : R)
  (mode : string) (r : Tensor R) :
  Blend.blend_images image1 image2 factor mode = Ok r ->
  tall (fun v => 0 <= v <= 1) r.
Proof.
  unfold Blend.blend_images.
  destruct (Blend.resized image1 image2) as [img2 |]; cbn [bind];
    try discriminate.
  destruct (Blend.blend_mode image1 img2 mode) as [m |]; cbn [bind];
    try discriminate.
  destruct (tbin _ _ _) as [t |]; cbn [bind]; try discriminate.
  intros E. inversion E. apply tall_tmap, clamp01_range.
Qed.

(** X2.  With factor 0, and image1 in [0,1], the blend of two batches of
    one shape is image1 itself, in every mode. *)
Theorem blend_factor_zero (image1 image2 : Tensor R) (mode : string) :
  shape image1 = shape image2 -> wf image1 -> wf image2 ->
  tall (fun v => 0 <= v <= 1) image1 -> In mode Blend.modes ->
  Blend.blend_images image1 image2 0 mode = Ok image1.
Proof.
  intros Es W1 W2 H1 Hm.
  destruct (blend_images_denotes image1 image2 0 mode (shape image1)
              (get 0 image1) (get 0 image2)) as (r & E & (Er & Wr & Gr)); auto.
  { now apply denotes_self. }
  { rewrite Es. now apply denotes_self. }
  rewrite E. f_equal. apply (tensor_ext 0); auto.
  intros b y x c Hi. rewrite Er in Hi. rewrite (Gr b y x c Hi).
  unfold blend_output.
  pose proof (tall_get _ 0 image1 b y x c W1 H1 Hi) as Ha. simpl in Ha.
  transitivity (clamp01 (get 0 image1 b y x c));
    [f_equal; ring | now apply clamp01_id].
Qed.

(** X3.  In mode normal with factor 1, and image2 in [0,1], the blend of
    two batches of one shape is image2. *)
Theorem blend_normal_factor_one (image1 image2 : Tensor R) :
  shape image1 = shape image2 -> wf image1 -> wf image2 ->
  tall (fun v => 0 <= v <= 1) image2 ->
  Blend.blend_images image1 image2 1 "normal" = Ok image2.
Proof.
  intros Es W1 W2 H2.
  destruct (blend_images_denotes image1 image2 1 "normal" (shape image1)
              (get 0 image1) (get 0 image2)) as (r & E & (Er & Wr & Gr)); auto.
  { now apply denotes_self. }
  { rewrite Es. now apply denotes_self. }
  { simpl. auto. }
  rewrite E. f_equal. apply (tensor_ext 0); auto; [congruence |].
  intros b y x c Hi. rewrite Er in Hi. rewrite (Gr b y x c Hi).
  unfold blend_output, blend_formula. simpl String.eqb. cbv iota.
  assert (Hi2 : in_shape (shape image2) b y x c) by (now rewrite <- Es).
  pose proof (tall_get _ 0 image2 b y x c W2 H2 Hi2) as Hb. simpl in Hb.
  transitivity (clamp01 (get 0 image2 b y x c));
    [f_equal; ring | now apply clamp01_id].
Qed.

(** X4.  On components of [0,1] and a factor of [0,1] the clamp cuts
    nothing: the blended value of every mode lies in [0,1], and the output
    is [img1 * (1 - factor) + blended * factor] as it stands. *)
Theorem blend_clamp_cuts_nothing (image1 image2 : Tensor R) (factor : R)
  (mode : string) :
  shape image1 = shape image2 -> wf image1 -> wf image2 ->
  tall (fun v => 0 <= v <= 1) image1 -> tall (fun v => 0 <= v <= 1) image2 ->
  0 <= factor <= 1 -> In mode Blend.modes ->
  exists r,
    Blend.blend_images image1 image2 factor mode = Ok r /\
    shape r = shape image1 /\
    forall b y x c, in_shape (shape image1) b y x c ->
      0 <= blend_formula mode (get 0 image1 b y x c) (get 0 image2 b y x c) <= 1
      /\ get 0 r b y x c
         = get 0 image1 b y x c * (1 - factor)
           + blend_formula mode (get 0 image1 b y x c) (get 0 image2 b y x c)
             * factor.
Proof.
  intros Es W1 W2 H1 H2 Hf Hm.
  destruct (blend_images_denotes image1 image2 factor mode (shape image1)
              (get 0 image1) (get 0 image2)) as (r & E & (Er & Wr & Gr)); auto.
  { now apply denotes_self. }
  { rewrite Es. now apply denotes_self. }
  exists r. split; [exact E |]. split; [exact Er |].
  intros b y x c Hi. rewrite (Gr b y x c Hi). unfold blend_output.
  assert (Hi2 : in_shape (shape image2) b y x c) by (now rewrite <- Es).
  pose proof (tall_get _ 0 image1 b y x c W1 H1 Hi) as Ha.
  pose proof (tall_get _ 0 image2 b y x c W2 H2 Hi2) as Hb.
  simpl in Ha, Hb.
  pose proof (blend_formula_range mode _ _ Ha Hb) as Hr.
  split; [exact Hr |]. apply clamp01_id. nra.
Qed.

End BlendMore.

Ltac wf_example := repeat (split || constructor).

Ltac unit_range_example :=
  unfold tall, gray; simpl; repeat (apply Forall_cons || apply Forall_nil); lra.

Lemma blend_result_in_unit_range_witness :
  exists r,
    Blend.blend_images (comfy := reference_comfy)
      (gray 3) (gray (-2)) 5 "multiply" = Ok r /\
    tall (fun v => 0 <= v <= 1)%R r.
Proof.
  eexists. split; [reflexivity |].
  apply (blend_result_in_unit_range (comfy := reference_comfy)
           (gray 3) (gray (-2)) 5%R "multiply").
  reflexivity.
Defined.

Lemma blend_factor_zero_witness :
  Blend.blend_images (comfy := reference_comfy)
    (gray (1 / 2)) (gray 7) 0 "soft_light" = Ok (gray (1 / 2)).
Proof.
  apply (blend_factor_zero (comfy := reference_comfy)).
  - reflexivity.
  - wf_example.
  - wf_example.
  - unit_range_example.
  - simpl. auto 6.
Defined.

Lemma blend_normal_factor_one_witness :
  Blend.blend_images (comfy := reference_comfy)
    (gray 7) (gray (1 / 4)) 1 "normal" = Ok (gray (1 / 4)).
Proof.
  apply (blend_normal_factor_one (comfy := reference_comfy)).
  - reflexivity.
  - wf_example.
  - wf_example.
  - unit_range_example.
Defined.

Lemma blend_clamp_cuts_nothing_witness :
  exists r,
    Blend.blend_images (comfy := reference_comfy)
      (gray (1 / 2)) (gray (3 / 4)) (1 / 3) "soft_light" = Ok r /\
    shape r = (1, 1, 1, 1)%nat /\
    get 0%R r 0 0 0 0
    = (1 / 2 * (1 - 1 / 3)
       + blend_formula "soft_light" (1 / 2) (3 / 4) * (1 / 3))%R.
Proof.
  destruct (blend_clamp_cuts_nothing (comfy := reference_comfy)
              (gray (1 / 2)) (gray (3 / 4)) (1 / 3)%R "soft_light")
    as (r & E & Es & Hr).
  - reflexivity.
  - wf_example.
  - wf_example.
  - unit_range_example.
  - unit_range_example.
  - lra.
  - simpl. auto 6.
  - exists r. split; [exact E |]. split; [exact Es |].
    apply (Hr 0%nat 0%nat 0%nat 0%nat). simpl. lia.
Defined.

(** ** Blur and Sharpen by components *)

Section Convolution.
Local Open Scope R_scope.

Lemma Rsum_tabulate_ext (n : nat) (f g : nat -> R) :
  (forall i, (i < n)%nat -> f i = g i) ->
  Rsum (tabulate n f) = Rsum (tabulate n g).
Proof. intros H. now rewrite (tabulate_ext n f g H). Qed.

(** Permute, convolve with one kernel for every channel, permute back: the
    result has the shape of the image and the window sums as components. *)
Lemma conv_pipeline (image : Tensor R) (kernel : list (list R)) (r : nat)
  (B H W C : nat) :
  shape image = (B, H, W, C) -> (0 < H)%nat -> (0 < W)%nat -> (0 < C)%nat ->
  exists t,
    conv2d_depthwise (permute_0312 image)
      (repeat_kernel kernel (r * 2 + 1) C) ((r * 2 + 1) / 2) = Ok t /\
    denotes 0 (permute_0231 t) (B, H, W, C)
      (window_sum kernel (r * 2 + 1) r image).
Proof.
  intros Es HH HW HC. unfold conv2d_depthwise, repeat_kernel.
  rewrite (shape_permute_0312 image B H W C Es), shape_build.
  rewrite center_of_kernel.
  destruct (Nat.eqb_spec C 0); [lia |].
  rewrite Nat.eqb_refl. cbn [andb negb Nat.eqb].
  destruct (Nat.ltb_spec (H + 2 * r) (r * 2 + 1)); [lia |].
  destruct (Nat.ltb_spec (W + 2 * r) (r * 2 + 1)); [lia |].
  cbn [orb]. eexists. split; [reflexivity |].
  unfold permute_0231. rewrite shape_build.
  replace (H + 2 * r - (r * 2 + 1) + 1)%nat with H by lia.
  replace (W + 2 * r - (r * 2 + 1) + 1)%nat with W by lia.
  eapply denotes_ext; [apply denotes_build |].
  intros b y x c (Hb & Hy & Hx & Hc). cbv beta.
  rewrite get_build by (simpl; lia).
  unfold window_sum. apply Rsum_tabulate_ext. intros i Hi.
  apply Rsum_tabulate_ext. intros j Hj.
  rewrite get_build by (simpl; lia). f_equal.
  unfold padded, pixel_or_zero.
  rewrite (shape_permute_0312 image B H W C Es), Es.
  destruct (_ && _)%bool eqn:Ein; [| reflexivity].
  repeat (apply andb_prop in Ein; destruct Ein as [Ein ?]).
  repeat match goal with
         | H : (_ <? _)%nat = true |- _ => apply Nat.ltb_lt in H
         end.
  unfold permute_0312. rewrite Es. rewrite get_build; [reflexivity |].
  simpl. lia.
Qed.

End Convolution.

Section KernelSums.
Local Open Scope R_scope.

Lemma Rsum_map_const {A} (c : R) (l : list A) :
  Rsum (map (fun _ => c) l) = INR (length l) * c.
Proof.
  induction l as [| a l IH]; [simpl; ring |].
  cbn [map Rsum fold_right length]. fold (Rsum (map (fun _ : A => c) l)).
  rewrite IH, S_INR. ring.
Qed.

Lemma Rsum_tabulate_const (n : nat) (c : R) :
  Rsum (tabulate n (fun _ => c)) = INR n * c.
Proof. unfold tabulate. now rewrite Rsum_map_const, length_seq. Qed.

Lemma Rsum_set_nth (i : nat) (a : R) (l : list R) :
  (i < length l)%nat -> Rsum (set_nth i a l) = Rsum l - nth i l 0 + a.
Proof.
  revert i. induction l as [| x l IH]; intros [| i] Hi; simpl in *; try lia.
  - ring.
  - fold (Rsum (set_nth i a l)). fold (Rsum l). rewrite IH by lia. ring.
Qed.

Lemma map_set_nth {A B} (f : A -> B) (i : nat) (a : A) (l : list A) :
  map f (set_nth i a l) = set_nth i (f a) (map f l).
Proof.
  revert i. induction l as [| x l IH]; intros [| i]; simpl; auto.
  now rewrite IH.
Qed.

Lemma Rsum_map_scal (a : R) (l : list R) :
  Rsum (map (fun v => v * a) l) = Rsum l * a.
Proof.
  induction l as [| x l IH]; simpl; [ring |].
  fold (Rsum (map (fun v => v * a) l)). fold (Rsum l). rewrite IH. ring.
Qed.

Lemma sum2_map2_scal (a : R) (k : list (list R)) :
  sum2 (map2 (fun v => v * a) k) = sum2 k * a.
Proof.
  unfold sum2, map2. rewrite map_map.
  rewrite (map_ext _ (fun row => Rsum row * a)) by (intros; apply Rsum_map_scal).
  rewrite <- (map_map Rsum (fun v => v * a)). apply Rsum_map_scal.
Qed.

Lemma Rsum_tabulate_scal (n : nat) (f : nat -> R) (v : R) :
  Rsum (tabulate n (fun i => f i * v)) = Rsum (tabulate n f) * v.
Proof.
  unfold tabulate. rewrite <- (map_map f (fun u => u * v)).
  apply Rsum_map_scal.
Qed.

(** The sum of a square kernel, cell by cell. *)
Lemma sum2_by_cells (n : nat) (k : list (list R)) :
  length k = n -> Forall (fun row => length row = n) k ->
  sum2 k
  = Rsum (tabulate n (fun i => Rsum (tabulate n (fun j => nth j (nth i k []) 0)))).
Proof.
  intros Lk Fk. unfold sum2.
  rewrite <- (tabulate_nth_id k []) at 1. rewrite Lk, map_tabulate.
  apply Rsum_tabulate_ext. intros i Hi.
  assert (Lr : length (nth i k []) = n).
  { rewrite Forall_forall in Fk. apply Fk, nth_In. lia. }
  rewrite <- (tabulate_nth_id (nth i k []) 0) at 1. now rewrite Lr.
Qed.

Lemma sharpen_kernel_size (r : nat) (alpha : R) :
  length (Sharpen.sharpen_kernel r alpha) = (r * 2 + 1)%nat /\
  Forall (fun row => length row = (r * 2 + 1)%nat)
    (Sharpen.sharpen_kernel r alpha).
Proof.
  unfold Sharpen.sharpen_kernel, map2. rewrite center_of_kernel.
  split.
  - now rewrite length_map, set_nth_length, tabulate_length.
  - apply Forall_forall. intros row Hin. apply in_map_iff in Hin.
    destruct Hin as (row0 & <- & Hin). rewrite length_map.
    revert row0 Hin. apply Forall_forall. apply Forall_set_nth.
    + rewrite set_nth_length, tabulate_nth by lia. apply tabulate_length.
    + apply Forall_tabulate. intros i _. apply tabulate_length.
Qed.

Lemma sum2_sharpen_kernel (r : nat) (alpha : R) :
  sum2 (Sharpen.sharpen_kernel r alpha) = alpha.
Proof.
  unfold Sharpen.sharpen_kernel. rewrite sum2_map2_scal, center_of_kernel.
  set (ks := (r * 2 + 1)%nat).
  assert (Hr : (r < ks)%nat) by (unfold ks; lia).
  unfold sum2. rewrite map_set_nth, Rsum_set_nth
    by (now rewrite length_map, tabulate_length).
  rewrite (nth_map_in_range Rsum _ _ []) by (now rewrite tabulate_length).
  rewrite map_tabulate, tabulate_nth by exact Hr.
  rewrite Rsum_set_nth by (now rewrite tabulate_length).
  rewrite tabulate_nth by exact Hr.
  rewrite !Rsum_tabulate_const, pow_INR. ring.
Qed.

(** X5.  The sharpen kernel is a square of side [2 r + 1] whose cells sum
    to [alpha], whatever the radius is. *)
Theorem sharpen_kernel_sums_to_alpha (r : nat) (alpha : R) :
  length (Sharpen.sharpen_kernel r alpha) = (2 * r + 1)%nat /\
  Forall (fun row => length row = (2 * r + 1)%nat)
    (Sharpen.sharpen_kernel r alpha) /\
  sum2 (Sharpen.sharpen_kernel r alpha) = alpha.
Proof.
  destruct (sharpen_kernel_size r alpha) as [L F].
  replace (2 * r + 1)%nat with (r * 2 + 1)%nat by lia.
  split; [exact L |]. split; [exact F | apply sum2_sharpen_kernel].
Qed.

End KernelSums.

Section FlatRegions.
Local Open Scope R_scope.

Lemma window_sum_constant (kernel : list (list R)) (r : nat)
  (image : Tensor R) (b y x c : nat) (v : R) :
  length kernel = (r * 2 + 1)%nat ->
  Forall (fun row => length row = (r * 2 + 1)%nat) kernel ->
  (forall i j, (i < r * 2 + 1)%nat -> (j < r * 2 + 1)%nat ->
     pixel_or_zero image r b (y + i) (x + j) c = v) ->
  window_sum kernel (r * 2 + 1) r image b y x c = sum2 kernel * v.
Proof.
  intros Lk Fk Hv. rewrite (sum2_by_cells _ kernel Lk Fk).
  unfold window_sum. rewrite <- Rsum_tabulate_scal.
  apply Rsum_tabulate_ext. intros i Hi. rewrite <- Rsum_tabulate_scal.
  apply Rsum_tabulate_ext. intros j Hj. now rewrite Hv.
Qed.

Lemma flat_window_pixels (image : Tensor R) (r b y x c : nat) (v : R)
  (B H W C : nat) :
  shape image = (B, H, W, C) ->
  (r <= y)%nat -> (y + r < H)%nat -> (r <= x)%nat -> (x + r < W)%nat ->
  flat_window image r b y x c v ->
  forall i j, (i < r * 2 + 1)%nat -> (j < r * 2 + 1)%nat ->
    pixel_or_zero image r b (y + i) (x + j) c = v.
Proof.
  intros Es Hy1 Hy2 Hx1 Hx2 Hflat i j Hi Hj. unfold pixel_or_zero. rewrite Es.
  destruct (Nat.leb_spec r (y + i)); [| lia].
  destruct (Nat.ltb_spec (y + i - r) H); [| lia].
  destruct (Nat.leb_spec r (x + j)); [| lia].
  destruct (Nat.ltb_spec (x + j - r) W); [| lia].
  cbn [andb].
  replace (y + i - r)%nat with (y - r + i)%nat by lia.
  replace (x + j - r)%nat with (x - r + j)%nat by lia.
  apply Hflat; lia.
Qed.

(** X6.  Where the window of a pixel lies inside the image and is constant
    [v], the sharpened component is [clamp (alpha * v)]: the kernel scales
    flat regions by [alpha]. *)
Theorem sharpen_flat_region (image : Tensor R) (r : nat) (alpha v : R)
  (B H W C b y x c : nat) :
  shape image = (B, H, W, C) -> (1 <= r)%nat ->
  (b < B)%nat -> (c < C)%nat ->
  (r <= y)%nat -> (y + r < H)%nat -> (r <= x)%nat -> (x + r < W)%nat ->
  flat_window image r b y x c v ->
  exists out,
    Sharpen.sharpen image r alpha = Ok out /\
    get 0 out b y x c = clamp01 (alpha * v).
Proof.
  intros Es Hr Hb Hc Hy1 Hy2 Hx1 Hx2 Hflat.
  unfold Sharpen.sharpen, Sharpen.sharpened.
  destruct (Nat.eqb_spec r 0); [lia |]. rewrite Es.
  destruct (conv_pipeline image (Sharpen.sharpen_kernel r alpha) r B H W C Es)
    as (t & Et & Dt); try lia.
  rewrite Et. cbn [bind]. eexists. split; [reflexivity |].
  destruct (denotes_tmap 0 0 clamp01 _ _ _ Dt) as (_ & _ & G).
  rewrite G by (simpl; lia).
  destruct (sharpen_kernel_size r alpha) as [Lk Fk].
  rewrite (window_sum_constant _ _ _ _ _ _ _ v Lk Fk).
  - now rewrite sum2_sharpen_kernel.
  - eapply flat_window_pixels; eauto.
Qed.

End FlatRegions.

Section BlurProps.
Local Open Scope R_scope.

Lemma gaussian_kernel_size (r : nat) (sigma : R) :
  (1 <= r)%nat ->
  length (Blur.gaussian_kernel (r * 2 + 1) sigma) = (r * 2 + 1)%nat /\
  Forall (fun row => length row = (r * 2 + 1)%nat)
    (Blur.gaussian_kernel (r * 2 + 1) sigma).
Proof.
  intros Hr. rewrite (gaussian_kernel_samples r sigma Hr).
  unfold map2, gaussian_samples.
  replace (2 * r + 1)%nat with (r * 2 + 1)%nat by lia. split.
  - now rewrite length_map, tabulate_length.
  - rewrite map_tabulate. apply Forall_tabulate. intros i _.
    now rewrite length_map, tabulate_length.
Qed.

Lemma sum2_gaussian_kernel (r : nat) (sigma : R) :
  (1 <= r)%nat -> sum2 (Blur.gaussian_kernel (r * 2 + 1) sigma) = 1.
Proof.
  intros Hr. rewrite (gaussian_kernel_samples r sigma Hr), sum2_map2_div.
  pose proof (gaussian_samples_sum_pos r sigma). field. lra.
Qed.

Lemma gaussian_kernel_cell_pos (r : nat) (sigma : R) (i j : nat) :
  (1 <= r)%nat -> (i < r * 2 + 1)%nat -> (j < r * 2 + 1)%nat ->
  0 < nth j (nth i (Blur.gaussian_kernel (r * 2 + 1) sigma) []) 0.
Proof.
  intros Hr Hi Hj. rewrite (gaussian_kernel_samples r sigma Hr).
  unfold map2, gaussian_samples.
  rewrite map_tabulate, (tabulate_nth _ _ _ []) by lia.
  rewrite map_tabulate, (tabulate_nth _ _ _ 0) by lia.
  pose proof (gaussian_samples_sum_pos r sigma).
  apply Rdiv_lt_0_compat; [apply exp_pos | assumption].
Qed.

Lemma Rsum_map_le {A} (f g : A -> R) (l : list A) :
  (forall a, In a l -> f a <= g a) -> Rsum (map f l) <= Rsum (map g l).
Proof.
  induction l as [| a l IH]; intros H; simpl; [lra |].
  fold (Rsum (map f l)). fold (Rsum (map g l)).
  pose proof (H a (or_introl eq_refl)).
  assert (Rsum (map f l) <= Rsum (map g l)).
  { apply IH. intros a' Ha'. apply H. now right. }
  lra.
Qed.

Lemma Rsum_tabulate_le (n : nat) (f g : nat -> R) :
  (forall i, (i < n)%nat -> f i <= g i) ->
  Rsum (tabulate n f) <= Rsum (tabulate n g).
Proof.
  intros H. unfold tabulate. apply Rsum_map_le. intros i Hi.
  apply in_seq in Hi. apply H. lia.
Qed.

Lemma Rsum_tabulate_zero (n : nat) : Rsum (tabulate n (fun _ => 0)) = 0.
Proof. rewrite Rsum_tabulate_const. ring. Qed.

Lemma Rsum_tabulate_nonneg (n : nat) (f : nat -> R) :
  (forall i, (i < n)%nat -> 0 <= f i) -> 0 <= Rsum (tabulate n f).
Proof.
  intros H. pose proof (Rsum_tabulate_le n (fun _ => 0) f H) as Hle.
  now rewrite Rsum_tabulate_zero in Hle.
Qed.

(** A kernel without negative cells takes components of [0,1] to window
    sums between 0 and the sum of the kernel. *)
Lemma window_sum_bounds (kernel : list (list R)) (n p : nat)
  (image : Tensor R) (b y x c : nat) :
  length kernel = n -> Forall (fun row => length row = n) kernel ->
  (forall i j, (i < n)%nat -> (j < n)%nat -> 0 <= nth j (nth i kernel []) 0) ->
  (forall i j, 0 <= pixel_or_zero image p b (y + i) (x + j) c <= 1) ->
  0 <= window_sum kernel n p image b y x c <= sum2 kernel.
Proof.
  intros Lk Fk Hk Hp. rewrite (sum2_by_cells n kernel Lk Fk).
  unfold window_sum. split.
  - apply Rsum_tabulate_nonneg. intros i Hi.
    apply Rsum_tabulate_nonneg. intros j Hj.
    apply Rmult_le_pos; [now apply Hk | apply Hp].
  - apply Rsum_tabulate_le. intros i Hi.
    apply Rsum_tabulate_le. intros j Hj.
    pose proof (Hk i j Hi Hj) as H0. destruct (Hp i j) as [_ H1].
    apply (Rmult_le_compat_l _ _ _ H0) in H1. lra.
Qed.

Lemma pixel_or_zero_range (image : Tensor R) (p b y' x' c : nat)
  (B H W C : nat) :
  shape image = (B, H, W, C) -> wf image ->
  tall (fun v => 0 <= v <= 1) image -> (b < B)%nat -> (c < C)%nat ->
  0 <= pixel_or_zero image p b y' x' c <= 1.
Proof.
  intros Es Hwf Ht Hb Hc. unfold pixel_or_zero. rewrite Es.
  destruct (_ && _)%bool eqn:E; [| lra].
  repeat (apply andb_prop in E; destruct E as [E ?]).
  repeat match goal with
         | H : (_ <? _)%nat = true |- _ => apply Nat.ltb_lt in H
         end.
  apply (tall_get (fun v => 0 <= v <= 1)); auto. rewrite Es. simpl. lia.
Qed.

Lemma Forall_by_nth {A} (P : A -> Prop) (l : list A) (d : A) :
  (forall i, (i < length l)%nat -> P (nth i l d)) -> Forall P l.
Proof.
  intros H. apply Forall_forall. intros a Ha.
  destruct (In_nth l a d Ha) as (i & Hi & <-). now apply H.
Qed.

Lemma tall_by_get {A} (P : A -> Prop) (d : A) (t : Tensor A) :
  wf t ->
  (forall b y x c, in_shape (shape t) b y x c -> P (get d t b y x c)) ->
  tall P t.
Proof.
  intros Hwf Hg. destruct (shape t) as [[[B H] W] C] eqn:Es.
  pose proof (fun b y x => wf_lengths t B H W C b y x Es Hwf) as L.
  destruct (L 0 0 0)%nat as (L0 & _).
  unfold tall. apply (Forall_by_nth _ _ []). intros b Hb. rewrite L0 in Hb.
  destruct (L b 0 0)%nat as (_ & L1 & _).
  apply (Forall_by_nth _ _ []). intros y Hy. rewrite L1 in Hy by exact Hb.
  destruct (L b y 0)%nat as (_ & _ & L2 & _).
  apply (Forall_by_nth _ _ []). intros x Hx. rewrite L2 in Hx by assumption.
  destruct (L b y x) as (_ & _ & _ & L3).
  apply (Forall_by_nth _ _ d). intros c Hc. rewrite L3 in Hc by assumption.
  apply (Hg b y x c). simpl. auto.
Qed.

(** X7.  Where the window of a pixel lies inside the image and is constant
    [v], the blurred component is [v]. *)
Theorem blur_flat_region (image : Tensor R) (r : nat) (sigma v : R)
  (B H W C b y x c : nat) :
  shape image = (B, H, W, C) -> (1 <= r)%nat -> 0 < sigma ->
  (b < B)%nat -> (c < C)%nat ->
  (r <= y)%nat -> (y + r < H)%nat -> (r <= x)%nat -> (x + r < W)%nat ->
  flat_window image r b y x c v ->
  exists out,
    Blur.blur image r sigma = Ok out /\ get 0 out b y x c = v.
Proof.
  intros Es Hr _ Hb Hc Hy1 Hy2 Hx1 Hx2 Hflat. unfold Blur.blur.
  destruct (Nat.eqb_spec r 0); [lia |]. rewrite Es.
  destruct (conv_pipeline image (Blur.gaussian_kernel (r * 2 + 1) sigma)
              r B H W C Es) as (t & Et & Dt); try lia.
  rewrite Et. cbn [bind]. eexists. split; [reflexivity |].
  destruct Dt as (_ & _ & G). rewrite G by (simpl; lia).
  destruct (gaussian_kernel_size r sigma Hr) as [Lk Fk].
  rewrite (window_sum_constant _ _ _ _ _ _ _ v Lk Fk).
  - rewrite (sum2_gaussian_kernel r sigma Hr). ring.
  - eapply flat_window_pixels; eauto.
Qed.

(** X8.  On a batch that is not empty in height, width and channels, with
    components of [0,1], [blur] returns a batch of the same shape with
    components of [0,1]: it needs no clamp. *)
Theorem blur_keeps_unit_range (image : Tensor R) (r : nat) (sigma : R)
  (B H W C : nat) :
  shape image = (B, H, W, C) -> wf image ->
  (0 < H)%nat -> (0 < W)%nat -> (0 < C)%nat ->
  (1 <= r)%nat -> 0 < sigma ->
  tall (fun v => 0 <= v <= 1) image ->
  exists out,
    Blur.blur image r sigma = Ok out /\ shape out = (B, H, W, C) /\
    tall (fun v => 0 <= v <= 1) out.
Proof.
  intros Es Hwf HH HW HC Hr _ Ht. unfold Blur.blur.
  destruct (Nat.eqb_spec r 0); [lia |]. rewrite Es.
  destruct (conv_pipeline image (Blur.gaussian_kernel (r * 2 + 1) sigma)
              r B H W C Es) as (t & Et & Dt); try lia.
  rewrite Et. cbn [bind]. eexists. split; [reflexivity |].
  destruct Dt as (Eo & Wo & G). split; [exact Eo |].
  apply (tall_by_get _ 0); [exact Wo |]. rewrite Eo.
  intros b y x c Hi. rewrite (G b y x c Hi).
  simpl in Hi. destruct Hi as (Hb & _ & _ & Hc).
  destruct (gaussian_kernel_size r sigma Hr) as [Lk Fk].
  rewrite <- (sum2_gaussian_kernel r sigma Hr).
  apply window_sum_bounds; auto.
  - intros i j Hi Hj. left. now apply gaussian_kernel_cell_pos.
  - intros i j. now apply (pixel_or_zero_range image r b _ _ c B H W C).
Qed.

(** X9.  Radius 0 hands the image back untouched; on an image without
    rows, columns or channels every other radius makes [blur] and
    [sharpen] raise. *)
Theorem blur_sharpen_edge_cases (image : Tensor R) (r : nat) (x : R)
  (B H W C : nat) :
  shape image = (B, H, W, C) ->
  Blur.blur image 0 x = Ok image /\
  Sharpen.sharpen image 0 x = Ok image /\
  ((1 <= r)%nat -> H = 0%nat \/ W = 0%nat \/ C = 0%nat ->
   raises (Blur.blur image r x) /\ raises (Sharpen.sharpen image r x)).
Proof.
  intros Es. split; [reflexivity |]. split; [reflexivity |].
  intros Hr Hz.
  assert (Hc : forall kernel,
            raises (conv2d_depthwise (permute_0312 image)
                      (repeat_kernel kernel (r * 2 + 1) C) ((r * 2 + 1) / 2))).
  { intros kernel. unfold conv2d_depthwise, repeat_kernel.
    rewrite (shape_permute_0312 image B H W C Es), shape_build.
    rewrite center_of_kernel.
    destruct (Nat.eqb_spec C 0); [now eexists |].
    rewrite Nat.eqb_refl. cbn [andb negb Nat.eqb].
    destruct (Nat.ltb_spec (H + 2 * r) (r * 2 + 1));
      [now eexists |].
    destruct (Nat.ltb_spec (W + 2 * r) (r * 2 + 1));
      [now eexists |].
    lia. }
  unfold Blur.blur, Sharpen.sharpen, Sharpen.sharpened.
  destruct (Nat.eqb_spec r 0); [lia |]. rewrite Es. split.
  - destruct (Hc (Blur.gaussian_kernel (r * 2 + 1) x)) as [e He].
    rewrite He. now eexists.
  - destruct (Hc (Sharpen.sharpen_kernel r x)) as [e He].
    rewrite He. now eexists.
Qed.

End BlurProps.

Lemma flat_window_of_flat (v : R) :
  flat_window (flat 3 3 v) 1 0 1 1 0 v.
Proof.
  intros dy dx Hy Hx. unfold flat. apply get_build. simpl. lia.
Qed.

Lemma sharpen_flat_region_witness :
  exists out,
    Sharpen.sharpen (flat 3 3 (1 / 2)) 1 3 = Ok out /\
    get 0%R out 0 1 1 0 = clamp01 (3 * (1 / 2)).
Proof.
  apply (sharpen_flat_region (flat 3 3 (1 / 2)) 1 3%R (1 / 2)%R
           1 3 3 1 0 1 1 0); try lia.
  - reflexivity.
  - apply flat_window_of_flat.
Defined.

Lemma blur_flat_region_witness :
  exists out,
    Blur.blur (flat 3 3 (1 / 2)) 1 1 = Ok out /\
    get 0%R out 0 1 1 0 = (1 / 2)%R.
Proof.
  apply (blur_flat_region (flat 3 3 (1 / 2)) 1 1%R (1 / 2)%R
           1 3 3 1 0 1 1 0); try lia.
  - reflexivity.
  - lra.
  - apply flat_window_of_flat.
Defined.

Lemma blur_keeps_unit_range_witness :
  exists out,
    Blur.blur (flat 3 3 (1 / 2)) 1 1 = Ok out /\
    shape out = (1, 3, 3, 1)%nat /\
    tall (fun v => 0 <= v <= 1)%R out.
Proof.
  apply (blur_keeps_unit_range (flat 3 3 (1 / 2)) 1 1%R 1 3 3 1); try lia.
  - reflexivity.
  - apply wf_build.
  - lra.
  - apply (tall_by_get _ 0%R); [apply wf_build |].
    intros b y x c Hi. unfold flat. rewrite get_build by exact Hi. lra.
Defined.

Lemma blur_sharpen_edge_cases_witness :
  raises (Blur.blur (mkTensor (1, 0, 3, 1)%nat [[]]) 1 1) /\
  raises (Sharpen.sharpen (mkTensor (1, 0, 3, 1)%nat [[]]) 1 1).
Proof.
  destruct (blur_sharpen_edge_cases (mkTensor (1, 0, 3, 1)%nat [[]]) 1 1%R
              1 0 3 1 eq_refl) as (_ & _ & H).
  apply H; [lia | now left].
Defined.

(** ** Transpose, pixel by pixel *)

Section TransposePixels.
Local Open Scope nat_scope.

Lemma getpixel_transpose (im : Image) (m : TransposeMethod) (y x : nat) :
  y < im_height (pil_transpose im m) -> x < im_width (pil_transpose im m) ->
  getpixel (pil_transpose im m) y x
  = getpixel im (fst (source_pixel m (im_height im) (im_width im) y x))
               (snd (source_pixel m (im_height im) (im_width im) y x)).
Proof.
  destruct m; simpl; intros Hy Hx; unfold getpixel at 1; simpl;
    rewrite (tabulate_nth _ _ _ []) by exact Hy;
    now rewrite tabulate_nth by exact Hx.
Qed.

Lemma transpose_size (im : Image) (m : TransposeMethod) :
  swaps m = false \/ im_height im = im_width im ->
  im_height (pil_transpose im m) = im_height im /\
  im_width (pil_transpose im m) = im_width im.
Proof.
  intros [Hs | He]; destruct m; simpl in *; try discriminate; auto.
Qed.

Lemma transpose_pixels_rect (im : Image) (m : TransposeMethod) :
  rect (im_height (pil_transpose im m))
    (fun row : list rgb => length row = im_width (pil_transpose im m))
    (im_pixels (pil_transpose im m)).
Proof.
  destruct m; simpl; (split; [apply tabulate_length |]);
    apply Forall_tabulate; intros y _; apply tabulate_length.
Qed.

Lemma source_pixel_in_range (m : TransposeMethod) (h w y x : nat) :
  swaps m = false \/ h = w -> y < h -> x < w ->
  fst (source_pixel m h w y x) < h /\ snd (source_pixel m h w y x) < w.
Proof.
  intros [Hs | He]; destruct m; simpl in *; try discriminate; lia.
Qed.

(** The pixel (y, x) of the image read from an (H, W, 3) array. *)
Lemma np_array_pixel (im : Image) (t : Tensor3 byte) (H W y x : nat) :
  np_array im = t -> shape3 t = (H, W, 3) -> wf3 t -> y < H -> x < W ->
  nth x (nth y (data3 t) []) [] = rgb_list (getpixel im y x).
Proof.
  intros En Es Hwf Hy Hx. unfold wf3 in Hwf. rewrite Es in Hwf.
  destruct Hwf as [LH FH]. subst t. simpl in *.
  rewrite length_map in LH.
  assert (Lrow : length (nth y (im_pixels im) []) = W).
  { rewrite Forall_forall in FH.
    specialize (FH (map (fun p : rgb => let '(r, g, b) := p in [r; g; b])
                      (nth y (im_pixels im) []))).
    destruct FH as [L _].
    - apply in_map, nth_In. lia.
    - now rewrite length_map in L. }
  rewrite (nth_map_in_range _ _ _ []) by lia.
  rewrite (nth_map_in_range _ _ _ black) by lia.
  unfold getpixel, rgb_list. reflexivity.
Qed.

Lemma nth_rgb_list (p : rgb) (c : nat) (f : byte -> Q) :
  c < 3 -> nth c (map f (rgb_list p)) 0%Q = f (nth c (rgb_list p) x00).
Proof.
  destruct p as [[r g] b]. intros Hc.
  destruct c as [| [| [| c]]]; simpl; try reflexivity. lia.
Qed.

(** One image: for a method that keeps the shape, or on a square image,
    the stored array has the image's shape, and its component at (y, x) is
    the 8-bit value of the source pixel's component. *)
Lemma transpose_image_components (method : string) (m : TransposeMethod)
  (t : Tensor3 Q) (H W : nat) :
  shape3 t = (H, W, 3) -> wf3 t ->
  dict_get Transpose.methods method = Ok m ->
  swaps m = false \/ H = W ->
  exists v,
    transpose_image method t = Ok v /\ shape3 v = (H, W, 3) /\ wf3 v /\
    forall y x c, y < H -> x < W -> c < 3 ->
      get3 0%Q v y x c
      = requantize (get3 0%Q t (fst (source_pixel m H W y x))
                                (snd (source_pixel m H W y x)) c).
Proof.
  intros Es Hwf Hm Hsq. unfold transpose_image.
  assert (Eu : shape3 (to_uint8_array t) = (H, W, 3)) by exact Es.
  assert (Wu : wf3 (to_uint8_array t)).
  { unfold to_uint8_array. now repeat apply wf3_tmap3. }
  destruct (fromarray_np_array (to_uint8_array t) H W Eu Wu)
    as (im & Ei & En & Ew & Eh).
  rewrite Ei, Hm. cbn [bind]. unfold convert_RGB.
  assert (Hsq' : swaps m = false \/ im_height im = im_width im).
  { destruct Hsq; [now left | right; congruence]. }
  destruct (transpose_size im m Hsq') as [Th Tw].
  destruct (transpose_pixels_rect im m) as [Lp Fp].
  rewrite Th in Lp. rewrite Tw in Fp. rewrite Eh in Lp. rewrite Ew in Fp.
  eexists. split; [reflexivity |]. split; [| split].
  - simpl. now rewrite Th, Tw, Eh, Ew.
  - unfold wf3. simpl. rewrite Th, Tw, Eh, Ew. simpl.
    split; [now rewrite !length_map |].
    apply Forall_forall. intros row Hin. rewrite map_map in Hin.
    apply in_map_iff in Hin. destruct Hin as (row0 & <- & Hin).
    rewrite Forall_forall in Fp. split.
    + rewrite !length_map. now apply Fp.
    + apply Forall_forall. intros px Hpx. rewrite map_map in Hpx.
      apply in_map_iff in Hpx. destruct Hpx as ([[r g] b] & <- & _).
      reflexivity.
  - intros y x c Hy Hx Hc. unfold get3, from_uint8_array, np_array, tmap3.
    cbn [data3].
    assert (Lrow : length (nth y (im_pixels (pil_transpose im m)) []) = W).
    { rewrite Forall_forall in Fp. apply Fp, nth_In. lia. }
    rewrite map_map, (nth_map_in_range _ _ _ []) by lia.
    rewrite map_map, (nth_map_in_range _ _ _ black) by lia.
    fold (getpixel (pil_transpose im m) y x).
    rewrite getpixel_transpose by (rewrite ?Th, ?Tw; lia).
    rewrite Eh, Ew.
    destruct (source_pixel_in_range m H W y x Hsq Hy Hx) as [Sy Sx].
    set (sy := fst (source_pixel m H W y x)) in *.
    set (sx := snd (source_pixel m H W y x)) in *.
    change (let '(r, g, b) := getpixel im sy sx in [r; g; b])
      with (rgb_list (getpixel im sy sx)).
    rewrite nth_rgb_list by exact Hc.
    rewrite <- (np_array_pixel im _ H W sy sx En Eu Wu Sy Sx).
    unfold to_uint8_array. rewrite tmap3_tmap3. unfold tmap3. cbn [data3].
    destruct (wf_lengths (mkTensor (1, H, W, 3) [data3 t]) 1 H W 3 0 sy sx
                eq_refl) as (_ & L1 & L2 & L3).
    { unfold wf. simpl. split; [reflexivity |]. constructor; [| constructor].
      unfold wf3 in Hwf. now rewrite Es in Hwf. }
    simpl in L1, L2, L3.
    rewrite (nth_map_in_range _ _ _ []) by (rewrite L1; lia).
    rewrite (nth_map_in_range _ _ _ []) by (rewrite L2; lia).
    rewrite (nth_map_in_range _ _ _ 0%Q) by (rewrite L3; lia).
    reflexivity.
Qed.

End TransposePixels.

Section TransposeBatch.
Local Open Scope nat_scope.

Lemma byte_of_Z_of_byte (b : byte) : byte_of_Z (Z_of_byte b) = b.
Proof.
  unfold byte_of_Z. pose proof (Z_of_byte_range b) as Hr.
  rewrite Z.mod_small by lia. unfold Z_of_byte.
  now rewrite N2Z.id, Byte.of_to_N.
Qed.

Lemma requantize_from_uint8 (b : byte) : requantize (from_uint8 b) = from_uint8 b.
Proof.
  unfold requantize, to_uint8. f_equal.
  rewrite (Qtrunc_inject_Z _ (Z_of_byte b)).
  - apply byte_of_Z_of_byte.
  - unfold from_uint8. field.
Qed.

Lemma requantize_idempotent (v : Q) : requantize (requantize v) = requantize v.
Proof. unfold requantize at 2 3. apply requantize_from_uint8. Qed.

Lemma get_select {A} (d : A) (t : Tensor A) (b y x c : nat) :
  get3 d (select t b) y x c = get d t b y x c.
Proof.
  unfold select, get3, get. now destruct (shape t) as [[[B H] W] C].
Qed.

(** The batch: [transpose] returns a batch of the input's shape whose
    components are the 8-bit values of the source pixels' components. *)
Lemma transpose_denotes (image : Tensor Q) (method : string)
  (m : TransposeMethod) (B H W : nat) :
  shape image = (B, H, W, 3) -> wf image ->
  dict_get Transpose.methods method = Ok m ->
  swaps m = false \/ H = W ->
  exists r,
    Transpose.transpose image method = Ok r /\
    denotes 0%Q r (B, H, W, 3)
      (fun b y x c =>
         requantize (get 0%Q image b (fst (source_pixel m H W y x))
                                     (snd (source_pixel m H W y x)) c)).
Proof.
  intros Es Hwf Hm Hsq.
  assert (Hvs : forall b, b < B ->
            exists v,
              transpose_image method (select image b) = Ok v /\
              transposed method (select image b) = v /\
              shape3 v = (H, W, 3) /\ wf3 v /\
              forall y x c, y < H -> x < W -> c < 3 ->
                get3 0%Q v y x c
                = requantize (get 0%Q image b (fst (source_pixel m H W y x))
                                (snd (source_pixel m H W y x)) c)).
  { intros b Hb. destruct (wf_select image B H W 3 b Es Hwf Hb) as [E3 W3].
    destruct (transpose_image_components method m _ H W E3 W3 Hm Hsq)
      as (v & Ev & Esv & Wv & Gv).
    exists v. unfold transposed. rewrite Ev. repeat split; auto.
    intros y x c Hy Hx Hc. rewrite (Gv y x c Hy Hx Hc). now rewrite get_select. }
  rewrite transpose_loop, Es. simpl fst.
  rewrite (for_range_ok _ B H W 3 (fun b => transposed method (select image b))).
  - eexists. split; [reflexivity |]. split; [reflexivity |]. split.
    + unfold wf. simpl. split; [apply tabulate_length |].
      apply Forall_tabulate. intros b Hb.
      destruct (Hvs b Hb) as (v & _ & -> & Esv & Wv & _).
      unfold wf3 in Wv. now rewrite Esv in Wv.
    + intros b y x c (Hb & Hy & Hx & Hc). unfold get. simpl.
      rewrite (tabulate_nth _ _ _ []) by exact Hb.
      destruct (Hvs b Hb) as (v & _ & -> & _ & _ & Gv).
      now apply Gv.
  - intros b Hb. destruct (Hvs b Hb) as (v & Ev & -> & Esv & Wv & _). auto.
  - now rewrite shape_zeros_like.
  - unfold zeros_like, tmap. simpl. rewrite length_map.
    unfold wf in Hwf. rewrite Es in Hwf. apply Hwf.
Qed.

Lemma swaps_inverse (m : TransposeMethod) : swaps (inverse_method m) = swaps m.
Proof. now destruct m. Qed.

Lemma source_pixel_inverse (m : TransposeMethod) (h w y x : nat) :
  swaps m = false \/ h = w -> y < h -> x < w ->
  let p := source_pixel (inverse_method m) h w y x in
  source_pixel m h w (fst p) (snd p) = (y, x).
Proof.
  intros [Hs | He] Hy Hx; destruct m; simpl in *; try discriminate;
    subst; f_equal; lia.
Qed.

Lemma requantize_floor255 (v : Q) :
  (0 <= v <= 1)%Q -> requantize v = floor255 v.
Proof.
  intros Hv. unfold requantize, floor255, from_uint8.
  now rewrite (to_uint8_floor v Hv).
Qed.

Lemma tmap_ext_tall {A C} (P : A -> Prop) (f g : A -> C) (t : Tensor A) :
  tall P t -> (forall a, P a -> f a = g a) -> tmap f t = tmap g t.
Proof.
  intros Ht Hfg. unfold tmap. f_equal. unfold tall in Ht.
  repeat (apply map_ext_in; intros ? ?Hin;
          match goal with
          | F : Forall _ ?l, I : In _ ?l |- _ =>
              rewrite Forall_forall in F; specialize (F _ I)
          end).
  now apply Hfg.
Qed.

(** X10.  For a method that keeps the shape, and for every method on
    square images, [transpose] of a batch of RGB images with components
    in [0,1] is a permutation of the pixels after the cut to 8 bits: the
    component at (y, x) is [floor (255 v) / 255] for the component [v] of
    the source pixel. *)
Theorem transpose_permutes_pixels (image : Tensor Q) (method : string)
  (m : TransposeMethod) (B H W : nat) :
  shape image = (B, H, W, 3) -> wf image ->
  tall (fun v => 0 <= v <= 1)%Q image ->
  dict_get Transpose.methods method = Ok m ->
  swaps m = false \/ H = W ->
  exists r,
    Transpose.transpose image method = Ok r /\
    shape r = (B, H, W, 3) /\
    forall b y x c, b < B -> y < H -> x < W -> c < 3 ->
      get 0%Q r b y x c
      = floor255 (get 0%Q image b (fst (source_pixel m H W y x))
                                  (snd (source_pixel m H W y x)) c).
Proof.
  intros Es Hwf Hu Hm Hsq.
  destruct (transpose_denotes image method m B H W Es Hwf Hm Hsq)
    as (r & E & Er & _ & G).
  exists r. split; [exact E |]. split; [exact Er |].
  intros b y x c Hb Hy Hx Hc. rewrite G by (simpl; auto).
  apply requantize_floor255.
  destruct (source_pixel_in_range m H W y x Hsq Hy Hx) as [Sy Sx].
  apply (tall_get (fun v => 0 <= v <= 1)%Q); auto.
  rewrite Es. simpl. auto.
Qed.

(** X11.  On a batch of RGB images with components in [0,1], a method
    followed by the method that undoes it (a flip or the half turn by
    itself, the quarter turns by each other, on square images the two
    diagonal reflections by themselves) gives the batch back, cut to
    8 bits: every component [v] has become [floor (255 v) / 255]. *)
Theorem transpose_then_inverse (image : Tensor Q) (method method' : string)
  (m : TransposeMethod) (B H W : nat) :
  shape image = (B, H, W, 3) -> wf image ->
  tall (fun v => 0 <= v <= 1)%Q image ->
  dict_get Transpose.methods method = Ok m ->
  dict_get Transpose.methods method' = Ok (inverse_method m) ->
  swaps m = false \/ H = W ->
  exists r,
    Transpose.transpose image method = Ok r /\
    Transpose.transpose r method' = Ok (tmap floor255 image).
Proof.
  intros Es Hwf Hu Hm Hm' Hsq.
  destruct (transpose_denotes image method m B H W Es Hwf Hm Hsq)
    as (r & E & Er & Wr & G).
  exists r. split; [exact E |].
  assert (Hsq' : swaps (inverse_method m) = false \/ H = W).
  { now rewrite swaps_inverse. }
  destruct (transpose_denotes r method' (inverse_method m) B H W Er Wr Hm' Hsq')
    as (r2 & E2 & Er2 & Wr2 & G2).
  rewrite E2. f_equal.
  rewrite <- (tmap_ext_tall _ requantize floor255 image Hu requantize_floor255).
  apply (tensor_ext 0%Q); auto.
  - now rewrite Er2.
  - now apply wf_tmap.
  - rewrite Er2. intros b y x c Hi. rewrite (G2 b y x c Hi).
    destruct (denotes_tmap 0%Q 0%Q requantize image _ _ (denotes_self 0%Q image Hwf))
      as (_ & _ & Gt).
    rewrite Gt by (rewrite Es; exact Hi).
    simpl in Hi. destruct Hi as (Hb & Hy & Hx & Hc).
    destruct (source_pixel_in_range (inverse_method m) H W y x Hsq' Hy Hx)
      as [Sy Sx].
    rewrite G by (simpl; auto).
    pose proof (source_pixel_inverse m H W y x Hsq Hy Hx) as Hinv.
    cbv zeta in Hinv. rewrite Hinv. simpl fst. simpl snd.
    apply requantize_idempotent.
Qed.

End TransposeBatch.

Lemma wf_ex22 : wf ex22.
Proof. repeat (split || constructor). Qed.

Lemma unit_ex22 : tall (fun v => 0 <= v <= 1)%Q ex22.
Proof.
  unfold tall, ex22, px3. simpl.
  repeat (apply Forall_cons || apply Forall_nil); split; discriminate.
Qed.

Lemma transpose_permutes_pixels_witness :
  exists r,
    Transpose.transpose ex22 "Rotate 90°" = Ok r /\
    shape r = (1, 2, 2, 3)%nat /\
    get 0%Q r 0 0 0 1 = floor255 (get 0%Q ex22 0 0 1 1).
Proof.
  destruct (transpose_permutes_pixels ex22 "Rotate 90°" ROTATE_90 1 2 2
              eq_refl wf_ex22 unit_ex22 eq_refl (or_intror eq_refl))
    as (r & E & Es & G).
  exists r. split; [exact E |]. split; [exact Es |].
  apply (G 0%nat 0%nat 0%nat 1%nat); lia.
Defined.

Lemma transpose_then_inverse_witness :
  exists r,
    Transpose.transpose ex22 "Rotate 90°" = Ok r /\
    Transpose.transpose r "Rotate 270°" = Ok (tmap floor255 ex22).
Proof.
  exact (transpose_then_inverse ex22 "Rotate 90°" "Rotate 270°" ROTATE_90
           1 2 2 eq_refl wf_ex22 unit_ex22 eq_refl eq_refl (or_intror eq_refl)).
Defined.

(** ** Rotate and Quantize: shapes, fast paths and errors *)

Section RotateMore.
Context {pil : Pillow}.
Local Open Scope nat_scope.

(** X12.  Whatever the angle, the resampler, the number of colours and
    Pillow's kernels do, a batch that [rotate] or [quantize] returns has
    the shape of the input. *)
Theorem rotate_and_quantize_keep_shape (image r : Tensor Q) :
  (forall angle resample fill_color,
     Rotate.rotate image angle resample fill_color = Ok r ->
     shape r = shape image) /\
  (forall colors dither,
     Quantize.quantize image colors dither = Ok r -> shape r = shape image).
Proof.
  split.
  - intros angle resample fill_color. rewrite rotate_loop. unfold for_range.
    intros E. apply for_each_shape in E. now rewrite E.
  - intros colors dither. rewrite quantize_loop. unfold for_range.
    intros E. apply for_each_shape in E. now rewrite E.
Qed.

Lemma rotate_image_fast_path (angle : Q) (resample : string) (rs : Resampling)
  (fill_color : option string) (method : string) (m : TransposeMethod)
  (t : Tensor3 Q) :
  dict_get Rotate.resamplers resample = Ok rs ->
  returns (Rotate.parse_fill_color fill_color) ->
  dict_get Transpose.methods method = Ok m ->
  (forall im c, fromarray (to_uint8_array t) = Ok im ->
     Rotate.pil_rotate im angle rs c = pil_transpose im m) ->
  rotate_image angle resample fill_color t = transpose_image method t.
Proof.
  intros Hr [c Hc] Hm Hfast. unfold rotate_image, transpose_image.
  destruct (fromarray (to_uint8_array t)) as [im |] eqn:Ei; cbn [bind];
    [| reflexivity].
  rewrite Hc, Hr, Hm. cbn [bind]. now rewrite (Hfast im c eq_refl).
Qed.

Lemma rotate_as_transpose (image : Tensor Q) (angle : Q) (resample : string)
  (rs : Resampling) (fill_color : option string) (method : string)
  (m : TransposeMethod) :
  dict_get Rotate.resamplers resample = Ok rs ->
  returns (Rotate.parse_fill_color fill_color) ->
  dict_get Transpose.methods method = Ok m ->
  (forall b im c,
     fromarray (to_uint8_array (select image b)) = Ok im ->
     Rotate.pil_rotate im angle rs c = pil_transpose im m) ->
  Rotate.rotate image angle resample fill_color
  = Transpose.transpose image method.
Proof.
  intros Hr Hc Hm Hfast. rewrite rotate_loop, transpose_loop.
  unfold for_range. apply for_each_ext. intros b r. unfold store.
  rewrite (rotate_image_fast_path angle resample rs fill_color method m); auto.
  intros im c. apply Hfast.
Qed.

(** X13.  With a listed resampler and a fill colour that parses, [rotate]
    by 180 is [transpose] with "Rotate 180°", and on square images
    [rotate] by 90 and by 270 are [transpose] with "Rotate 90°" and
    "Rotate 270°": Pillow takes these angles without resampling. *)
Theorem rotate_right_angles_are_transposes (image : Tensor Q)
  (resample : string) (rs : Resampling) (fill_color : option string)
  (B H W C : nat) :
  shape image = (B, H, W, C) ->
  dict_get Rotate.resamplers resample = Ok rs ->
  returns (Rotate.parse_fill_color fill_color) ->
  Rotate.rotate image 180 resample fill_color
  = Transpose.transpose image "Rotate 180°" /\
  (H = W ->
   Rotate.rotate image 90 resample fill_color
   = Transpose.transpose image "Rotate 90°" /\
   Rotate.rotate image 270 resample fill_color
   = Transpose.transpose image "Rotate 270°").
Proof.
  intros Es Hr Hc.
  assert (Hsize : forall b im,
            fromarray (to_uint8_array (select image b)) = Ok im ->
            im_width im = W /\ im_height im = H).
  { intros b im. apply (@fromarray_size _ im H W C).
    unfold select. now rewrite Es. }
  split; [| intros Hsq; split].
  - apply (rotate_as_transpose image 180 resample rs fill_color _ ROTATE_180);
      auto.
  - apply (rotate_as_transpose image 90 resample rs fill_color _ ROTATE_90);
      auto.
    intros b im c Ei. destruct (Hsize b im Ei) as [Ew Eh].
    unfold Rotate.pil_rotate.
    change (Qeq_bool (Rotate.mod360 90) 0) with false.
    change (Qeq_bool (Rotate.mod360 90) 180) with false.
    change (Qeq_bool (Rotate.mod360 90) 90) with true.
    cbn [orb andb]. rewrite Ew, Eh, Hsq, Nat.eqb_refl. reflexivity.
  - apply (rotate_as_transpose image 270 resample rs fill_color _ ROTATE_270);
      auto.
    intros b im c Ei. destruct (Hsize b im Ei) as [Ew Eh].
    unfold Rotate.pil_rotate.
    change (Qeq_bool (Rotate.mod360 270) 0) with false.
    change (Qeq_bool (Rotate.mod360 270) 180) with false.
    change (Qeq_bool (Rotate.mod360 270) 90) with false.
    change (Qeq_bool (Rotate.mod360 270) 270) with true.
    cbn [orb andb]. rewrite Ew, Eh, Hsq, Nat.eqb_refl. reflexivity.
Qed.

(** X14.  On a batch of RGB images that is not empty, a fill colour that
    does not parse makes [rotate] raise the parser's exception, whatever
    the angle and the resampler are: the colour is parsed before the
    resampler is looked up. *)
Theorem rotate_bad_fill_raises (image : Tensor Q) (angle : Q)
  (resample : string) (fill_color : option string) (e : exn) (B H W : nat) :
  shape image = (S B, H, W, 3) -> wf image ->
  Rotate.parse_fill_color fill_color = Raise e ->
  Rotate.rotate image angle resample fill_color = Raise e.
Proof.
  intros Es Hwf He. rewrite rotate_loop, Es. simpl fst.
  unfold for_range. simpl seq. cbn [for_each]. unfold store at 1.
  destruct (wf_select image (S B) H W 3 0 Es Hwf) as [E3 W3]; [lia |].
  unfold rotate_image.
  destruct (fromarray_np_array (to_uint8_array (select image 0)) H W)
    as (im & Ei & _).
  { exact E3. }
  { unfold to_uint8_array. now repeat apply wf3_tmap3. }
  rewrite Ei, He. reflexivity.
Qed.

End RotateMore.

Section RotateFullTurns.
Context {pil : Pillow}.
Local Open Scope nat_scope.

Lemma rotate_image_full_turn (angle : Q) (resample : string) (rs : Resampling)
  (fill_color : option string) (t : Tensor3 Q) (H W : nat) :
  shape3 t = (H, W, 3) -> wf3 t ->
  Qeq_bool (Rotate.mod360 angle) 0 = true ->
  dict_get Rotate.resamplers resample = Ok rs ->
  returns (Rotate.parse_fill_color fill_color) ->
  rotate_image angle resample fill_color t = Ok (tmap3 requantize t).
Proof.
  intros Es Hwf Ha Hr [c Hc]. unfold rotate_image.
  destruct (fromarray_np_array (to_uint8_array t) H W) as (im & Ei & En & _).
  { exact Es. }
  { unfold to_uint8_array. now repeat apply wf3_tmap3. }
  rewrite Ei, Hc, Hr. cbn [bind].
  unfold Rotate.pil_rotate, convert_RGB. rewrite Ha.
  rewrite En. unfold from_uint8_array, to_uint8_array.
  now rewrite !tmap3_tmap3.
Qed.

(** X15.  For an angle that is a multiple of 360 (0 among them), every
    listed resampler and a fill colour that parses, [rotate] of a batch of
    RGB images with components in [0,1] returns the batch cut to 8 bits:
    the component [v] becomes [floor (255 v) / 255], and nothing else
    changes. *)
Theorem rotate_full_turn_requantizes (image : Tensor Q) (angle : Q)
  (resample : string) (rs : Resampling) (fill_color : option string)
  (B H W : nat) :
  shape image = (B, H, W, 3) -> wf image ->
  tall (fun v => 0 <= v <= 1)%Q image ->
  Qeq_bool (Rotate.mod360 angle) 0 = true ->
  dict_get Rotate.resamplers resample = Ok rs ->
  returns (Rotate.parse_fill_color fill_color) ->
  Rotate.rotate image angle resample fill_color = Ok (tmap floor255 image).
Proof.
  intros Es Hwf Hu Ha Hr Hc.
  assert (HB : length (data image) = B).
  { unfold wf in Hwf. rewrite Es in Hwf. apply Hwf. }
  rewrite <- (tmap_ext_tall _ requantize floor255 image Hu requantize_floor255).
  rewrite rotate_loop, Es. simpl fst.
  rewrite (for_range_ok _ B H W 3 (fun b => tmap3 requantize (select image b))).
  - f_equal. unfold tmap. rewrite Es. f_equal.
    transitivity (map (map (map (map requantize)))
                    (tabulate B (fun b => nth b (data image) []))).
    + rewrite map_tabulate. apply tabulate_ext. intros b Hb.
      unfold select. now rewrite Es.
    + rewrite <- HB. now rewrite tabulate_nth_id.
  - intros b Hb. destruct (wf_select image B H W 3 b Es Hwf Hb) as [E3 W3].
    split; [| split].
    + now apply (rotate_image_full_turn angle resample rs fill_color _ H W).
    + exact E3.
    + now apply wf3_tmap3.
  - now rewrite shape_zeros_like.
  - unfold zeros_like, tmap. simpl. now rewrite length_map.
Qed.

End RotateFullTurns.

(** X16.  The cut to 8 bits lowers a component of [0,1] by less than
    1/255, lands on a multiple of 1/255, and cuts nothing more when it is
    applied again. *)
Theorem requantize_error (v : Q) :
  0 <= v <= 1 ->
  0 <= v - requantize v /\ v - requantize v < 1 # 255 /\
  on_lattice (requantize v) /\
  requantize (requantize v) = requantize v.
Proof.
  intros Hv.
  assert (Hf : requantize v = inject_Z (Qfloor (v * 255)) / 255).
  { unfold requantize, from_uint8. now rewrite (to_uint8_floor v Hv). }
  pose proof (Qfloor_le (v * 255)) as Hlo.
  pose proof (Qlt_floor (v * 255)) as Hhi.
  rewrite inject_Z_plus in Hhi. change (inject_Z 1) with 1 in Hhi.
  split; [| split; [| split]].
  - rewrite Hf. apply (Qmult_le_r _ _ 255); [reflexivity |].
    field_simplify. lra.
  - rewrite Hf. apply (Qmult_lt_r _ _ 255); [reflexivity |].
    field_simplify. lra.
  - apply on_lattice_from_uint8.
  - apply requantize_idempotent.
Qed.

Lemma wf_ex12 : wf ex12.
Proof. repeat (split || constructor). Qed.

Lemma rotate_and_quantize_keep_shape_witness :
  exists r,
    Rotate.rotate (pil := Reference.pillow) ex12 45 "Bilinear"
      (Some "red"%string) = Ok r /\
    shape r = shape ex12.
Proof.
  eexists. split; [reflexivity |].
  apply (proj1 (rotate_and_quantize_keep_shape (pil := Reference.pillow)
                  ex12 _) 45 "Bilinear"%string (Some "red"%string)).
  reflexivity.
Defined.

Lemma rotate_right_angles_are_transposes_witness :
  Rotate.rotate (pil := Reference.pillow) ex12 180 "Bicubic"
    (Some "blue"%string)
  = Transpose.transpose ex12 "Rotate 180°".
Proof.
  apply (rotate_right_angles_are_transposes (pil := Reference.pillow)
           ex12 "Bicubic" BICUBIC (Some "blue"%string) 1 1 2 3).
  - reflexivity.
  - reflexivity.
  - eexists. reflexivity.
Defined.

Lemma rotate_bad_fill_raises_witness :
  Rotate.rotate (pil := Reference.pillow) ex12 30 "Bilinear"
    (Some "#zz0000"%string)
  = Raise (ValueError "Invalid color format").
Proof.
  apply (rotate_bad_fill_raises (pil := Reference.pillow)
           ex12 30 "Bilinear" (Some "#zz0000"%string) _ 0 1 2).
  - reflexivity.
  - exact wf_ex12.
  - reflexivity.
Defined.

Lemma unit_ex12 : tall (fun v => 0 <= v <= 1)%Q ex12.
Proof.
  unfold tall, ex12, px3. simpl.
  repeat (apply Forall_cons || apply Forall_nil); split; discriminate.
Qed.

Lemma rotate_full_turn_requantizes_witness :
  Rotate.rotate (pil := Reference.pillow) ex12 720 "Bicubic" None
  = Ok (tmap floor255 ex12).
Proof.
  apply (rotate_full_turn_requantizes (pil := Reference.pillow)
           ex12 720 "Bicubic" BICUBIC None 1 1 2).
  - reflexivity.
  - exact wf_ex12.
  - exact unit_ex12.
  - reflexivity.
  - reflexivity.
  - eexists. reflexivity.
Defined.

Lemma requantize_error_witness :
  0 <= (1 # 2) - requantize (1 # 2) /\
  (1 # 2) - requantize (1 # 2) < 1 # 255.
Proof.
  assert (H : 0 <= 1 # 2 <= 1) by (split; discriminate).
  destruct (requantize_error (1 # 2) H) as (H1 & H2 & _).
  split; assumption.
Defined.

(** ** The fill-colour parser: what it returns *)

Section Characters.

Ltac all_ascii c :=
  destruct c as [[] [] [] [] [] [] [] []]; vm_compute;
  intros; try discriminate; repeat split; try reflexivity; try discriminate.

Lemma hex_digit_lower (c : ascii) :
  is_hex c = true ->
  is_lower_hex (lower_char c) = true /\ hex_val (lower_char c) = hex_val c.
Proof. all_ascii c. Qed.

Lemma lower_hex_digit_range (c : ascii) :
  is_lower_hex c = true -> (0 <= hex_val c <= 15)%Z.
Proof. all_ascii c. Qed.

Lemma hex_digit_range (c : ascii) :
  is_hex c = true -> (0 <= hex_val c <= 15)%Z.
Proof. all_ascii c. Qed.

Lemma digit_not_letter (c : ascii) :
  is_digit c = true -> is_lower (lower_char c) = false.
Proof. all_ascii c. Qed.

Lemma digit_not_paren (c : ascii) :
  is_digit c = true ->
  Ascii.eqb "("%char c = false /\ Ascii.eqb c "#"%char = false.
Proof. all_ascii c. Qed.

Lemma digit_val_nonneg (c : ascii) : (0 <= digit_val c)%Z.
Proof. unfold digit_val. lia. Qed.

Lemma chars_lower (s : string) : chars (lower s) = map lower_char (chars s).
Proof.
  unfold lower, chars. apply list_ascii_of_string_of_list_ascii.
Qed.

Lemma length_chars (s : string) : length (chars s) = String.length s.
Proof.
  unfold chars. induction s as [| c s IH]; simpl; congruence.
Qed.

Lemma forallb_false_in {A} (f : A -> bool) (l : list A) (a : A) :
  In a l -> f a = false -> forallb f l = false.
Proof.
  intros Hin Hf. destruct (forallb f l) eqn:E; auto.
  rewrite forallb_forall in E. rewrite (E a Hin) in Hf. discriminate.
Qed.

Lemma int_dec_nonneg (s : list ascii) : (0 <= int_dec s)%Z.
Proof.
  unfold int_dec.
  assert (H : forall acc, (0 <= acc)%Z ->
            (0 <= fold_left (fun a c => 10 * a + digit_val c) s acc)%Z).
  { induction s as [| c s IH]; cbn [fold_left]; intros acc Ha; auto.
    apply IH. pose proof (digit_val_nonneg c). lia. }
  apply H. lia.
Qed.

End Characters.

Section ParserValues.
Local Open Scope nat_scope.

Lemma span_digits_app (ds rest : list ascii) :
  forallb is_digit ds = true -> no_digit_head rest ->
  span_digits (ds ++ rest) = (ds, rest).
Proof.
  intros Hd Hr. induction ds as [| d ds IH]; simpl in *.
  - destruct rest as [| c rest]; [reflexivity |]. simpl in Hr. simpl.
    now rewrite Hr.
  - apply andb_prop in Hd. destruct Hd as [Hd Hds]. rewrite Hd.
    now rewrite (IH Hds).
Qed.

Lemma group_digits_app (ds rest : list ascii) :
  forallb is_digit ds = true -> 1 <= length ds <= 3 -> no_digit_head rest ->
  group_digits (ds ++ rest) = Some (ds, rest).
Proof.
  intros Hd Hl Hr. unfold group_digits. rewrite (span_digits_app _ _ Hd Hr).
  destruct (Nat.leb_spec 1 (length ds)); [| lia].
  destruct (Nat.leb_spec (length ds) 3); [| lia]. reflexivity.
Qed.

Lemma findall_run (ds cur rest : list ascii) :
  forallb is_digit ds = true -> length cur <= 2 ->
  length cur + length ds <= 3 -> cur ++ ds <> [] -> no_digit_head rest ->
  findall_digits cur (ds ++ rest) = (cur ++ ds) :: findall_digits [] rest.
Proof.
  revert cur. induction ds as [| d ds IH]; intros cur Hd Hc Hl Hne Hr.
  - rewrite app_nil_r in *. simpl app.
    destruct rest as [| c rest].
    + destruct cur; [congruence | reflexivity].
    + simpl in Hr. simpl. rewrite Hr.
      destruct cur; [congruence | reflexivity].
  - simpl in Hd. apply andb_prop in Hd. destruct Hd as [Hd Hds].
    simpl app. cbn [findall_digits]. rewrite Hd.
    destruct (Nat.eqb_spec (length cur) 2) as [E2 | N2].
    + simpl in Hl. destruct ds; [| simpl in Hl; lia]. reflexivity.
    + rewrite (IH (cur ++ [d])); auto.
      * now rewrite <- app_assoc.
      * rewrite length_app. simpl. lia.
      * rewrite length_app. simpl in *. lia.
      * intros E. apply app_eq_nil in E. destruct E as [E _].
        apply app_eq_nil in E. destruct E as [_ E]. discriminate.
Qed.

Lemma findall_skip (c : ascii) (s : list ascii) :
  is_digit c = false -> findall_digits [] (c :: s) = findall_digits [] s.
Proof. intros H. simpl. now rewrite H. Qed.

Lemma findall_optional (c : ascii) (p s : list ascii) :
  is_digit c = false -> optional c p ->
  findall_digits [] (p ++ s) = findall_digits [] s.
Proof.
  intros Hc [-> | ->]; [reflexivity |]. now apply findall_skip.
Qed.

Lemma optional_no_digit (c c' : ascii) (p q : list ascii) :
  is_digit c = false -> is_digit c' = false ->
  optional c p -> optional c' q -> no_digit_head (p ++ q).
Proof.
  intros Hc Hc' [-> | ->] [-> | ->]; simpl; auto.
Qed.

Lemma findall_component (ds rest : list ascii) :
  1 <= length ds <= 3 -> forallb is_digit ds = true -> no_digit_head rest ->
  findall_digits [] (ds ++ rest) = ds :: findall_digits [] rest.
Proof.
  intros Hl Hd Hr. apply (findall_run ds [] rest Hd); simpl; try lia; auto.
  intros E. subst ds. simpl in Hl. lia.
Qed.

(** The digits of a string of the triplet form are its three components. *)
Lemma findall_triplet (lp r g b rp nl : list ascii) :
  optional "("%char lp -> optional ")"%char rp -> optional newline nl ->
  component r -> component g -> component b ->
  findall_digits []
    (lp ++ r ++ ","%char :: g ++ ","%char :: b ++ rp ++ nl)
  = [r; g; b].
Proof.
  intros Hlp Hrp Hnl (Lr & Dr & _) (Lg & Dg & _) (Lb & Db & _).
  assert (Hcomma : forall s, no_digit_head (","%char :: s)) by reflexivity.
  assert (Htail : no_digit_head (rp ++ nl)).
  { apply (optional_no_digit ")"%char newline); auto; reflexivity. }
  assert (Hnone : findall_digits [] (rp ++ nl) = []).
  { destruct Hrp as [-> | ->], Hnl as [-> | ->]; reflexivity. }
  rewrite (findall_optional "("%char lp) by (auto; reflexivity).
  rewrite (findall_component r) by auto.
  rewrite findall_skip by reflexivity.
  rewrite (findall_component g) by auto.
  rewrite findall_skip by reflexivity.
  rewrite (findall_component b) by auto.
  now rewrite Hnone.
Qed.

Lemma skip_open_paren (lp s : list ascii) (c : ascii) :
  optional "("%char lp -> is_digit c = true ->
  skip_char "("%char (lp ++ c :: s) = c :: s.
Proof.
  intros [-> | ->] Hc.
  - cbn [app skip_char]. destruct (digit_not_paren c Hc) as [E _].
    now rewrite E.
  - reflexivity.
Qed.

Lemma at_end_close_paren (rp nl : list ascii) :
  optional ")"%char rp -> optional newline nl ->
  at_end (skip_char ")"%char (rp ++ nl)) = true.
Proof. intros [-> | ->] [-> | ->]; reflexivity. Qed.

Lemma match_triplet_complete (lp r g b rp nl : list ascii) :
  optional "("%char lp -> optional ")"%char rp -> optional newline nl ->
  component r -> component g -> component b ->
  match_triplet (lp ++ r ++ ","%char :: g ++ ","%char :: b ++ rp ++ nl)
  = Some (r, g, b).
Proof.
  intros Hlp Hrp Hnl (Lr & Dr & _) (Lg & Dg & _) (Lb & Db & _).
  unfold match_triplet.
  destruct r as [| c r']; [simpl in Lr; lia |].
  assert (Hc : is_digit c = true).
  { simpl in Dr. now apply andb_prop in Dr. }
  replace (lp ++ (c :: r') ++ ","%char :: g ++ ","%char :: b ++ rp ++ nl)
    with (lp ++ c :: (r' ++ ","%char :: g ++ ","%char :: b ++ rp ++ nl))
    by reflexivity.
  rewrite (skip_open_paren lp _ c Hlp Hc).
  change (c :: r' ++ ","%char :: g ++ ","%char :: b ++ rp ++ nl)
    with ((c :: r') ++ ","%char :: g ++ ","%char :: b ++ rp ++ nl).
  rewrite (group_digits_app (c :: r')) by (auto; reflexivity).
  cbn [expect_char]. change (Ascii.eqb ","%char ","%char) with true. cbv iota.
  rewrite (group_digits_app g) by (auto; reflexivity).
  cbn [expect_char]. change (Ascii.eqb ","%char ","%char) with true. cbv iota.
  rewrite (group_digits_app b).
  - now rewrite (at_end_close_paren rp nl Hrp Hnl).
  - exact Db.
  - exact Lb.
  - apply (optional_no_digit ")"%char newline); auto; reflexivity.
Qed.

Lemma match_hex6_not_hash (digit : ascii -> bool) (c : ascii) (s : list ascii) :
  Ascii.eqb c "#"%char = false -> match_hex6 digit (c :: s) = false.
Proof.
  intros H. destruct s as [| a [| b [| c0 [| d [| e [| f rest]]]]]]; simpl;
    try reflexivity.
  now rewrite H.
Qed.

End ParserValues.

Section ParserResults.
Context {pil : Pillow}.
Local Open Scope nat_scope.

Lemma int_hex_pair (a b : ascii) :
  int_hex [a; b] = (16 * hex_val a + hex_val b)%Z.
Proof. unfold int_hex. cbn [fold_left]. lia. Qed.

Lemma int_hex_pair_range (a b : ascii) :
  is_lower_hex a = true -> is_lower_hex b = true ->
  (0 <= int_hex [a; b] <= 255)%Z.
Proof.
  intros Ha Hb. rewrite int_hex_pair.
  pose proof (lower_hex_digit_range a Ha). pose proof (lower_hex_digit_range b Hb).
  lia.
Qed.

Lemma getrgb_range (s : string) (c : color) :
  rgb_values pil -> Rotate.getrgb s = Ok c ->
  length c = 3 /\ Forall (fun z => (0 <= z <= 255)%Z) c.
Proof.
  intros Hv. unfold Rotate.getrgb.
  destruct (100 <? String.length s); [discriminate |].
  destruct (colormap (lower s)) as [v |] eqn:Ec.
  { intros E. inversion E; subst. exact (Hv _ _ Ec). }
  destruct (match_hex6 is_lower_hex (chars (lower s))) eqn:Eh; [| discriminate].
  destruct (chars (lower s)) as [| h [| r1 [| r2 [| g1 [| g2 [| b1 [| b2 rest]]]]]]];
    try discriminate Eh.
  intros E. inversion E; subst c. clear E.
  unfold match_hex6 in Eh. cbn [forallb] in Eh.
  repeat (apply andb_prop in Eh; destruct Eh as [Eh ?]).
  repeat match goal with
         | H : (_ && _)%bool = true |- _ =>
             apply andb_prop in H; destruct H as [? H]
         end.
  split; [reflexivity |].
  repeat (apply Forall_cons || apply Forall_nil);
    now apply int_hex_pair_range.
Qed.

(** X17.  Whatever the fill colour is, a colour that the parser returns is
    a triple of integers between 0 and 255 (the colours of Pillow's colour
    map being such triples). *)
Theorem parse_fill_color_is_rgb (fill_color : option string) (c : color) :
  rgb_values pil ->
  Rotate.parse_fill_color fill_color = Ok c ->
  length c = 3 /\ Forall (fun z => (0 <= z <= 255)%Z) c.
Proof.
  intros Hv. unfold Rotate.parse_fill_color.
  generalize (remove_spaces (Rotate.or_default fill_color)). intros s.
  unfold Rotate.parse_palette.
  destruct (match_hex6 is_hex (chars s) || Rotate.in_colormap (lower s))%bool.
  { now apply getrgb_range. }
  destruct (match_triplet (chars s)) as [[[g1 g2] g3] |] eqn:Em; [| discriminate].
  destruct (_ && _)%bool eqn:El; [| discriminate].
  apply andb_prop in El. destruct El as [El B3].
  apply andb_prop in El. destruct El as [B1 B2].
  apply Z.leb_le in B1, B2, B3.
  apply match_triplet_sound in Em.
  destruct Em as (lp & rp & nl & E & Hlp & Hrp & Hnl
                  & [L1 D1] & [L2 D2] & [L3 D3]).
  rewrite E, (findall_triplet lp g1 g2 g3 rp nl) by (unfold component; auto).
  intros Ec. inversion Ec; subst c. clear Ec.
  split; [reflexivity |].
  repeat (apply Forall_cons || apply Forall_nil);
    (split; [apply int_dec_nonneg | assumption]).
Qed.

Hypothesis names : lowercase_names pil.

Lemma not_a_name_char (s : string) (c : ascii) :
  In c (chars s) -> is_lower (lower_char c) = false ->
  colormap (lower s) = None.
Proof.
  intros Hin Hc. destruct (colormap (lower s)) as [v |] eqn:E; auto.
  apply names in E. rewrite chars_lower in E.
  rewrite (forallb_false_in is_lower _ (lower_char c)) in E;
    [discriminate | now apply in_map | exact Hc].
Qed.

(** X18.  ['#'] followed by six hexadecimal digits, in either case of the
    letters, parses to the three bytes that the pairs of digits denote
    (the names of the colour map being made of lower-case letters). *)
Theorem parse_hex_any_case (s : string) (r1 r2 g1 g2 b1 b2 : ascii) :
  chars s = ["#"%char; r1; r2; g1; g2; b1; b2] ->
  forallb is_hex [r1; r2; g1; g2; b1; b2] = true ->
  Rotate.parse_palette s
  = Ok [16 * hex_val r1 + hex_val r2; 16 * hex_val g1 + hex_val g2;
        16 * hex_val b1 + hex_val b2]%Z.
Proof.
  intros Es Hd. unfold Rotate.parse_palette.
  rewrite Es. unfold match_hex6 at 1. rewrite Hd.
  change (Ascii.eqb "#"%char "#"%char) with true.
  change (at_end []) with true. cbn [andb orb].
  unfold Rotate.getrgb.
  rewrite <- length_chars, Es. change (100 <? length _) with false. cbv iota.
  rewrite (not_a_name_char s "#"%char);
    [| rewrite Es; now left | reflexivity].
  rewrite chars_lower, Es. cbn [map].
  cbn [forallb] in Hd.
  repeat match goal with
         | H : (_ && _)%bool = true |- _ =>
             apply andb_prop in H; destruct H as [? H]
         end.
  repeat match goal with
         | H : is_hex ?c = true |- _ =>
             destruct (hex_digit_lower c H) as [? ?]; clear H
         end.
  change (lower_char "#"%char) with "#"%char.
  unfold match_hex6. cbn [forallb].
  repeat match goal with
         | H : is_lower_hex _ = true |- _ => rewrite H; clear H
         end.
  change (Ascii.eqb "#"%char "#"%char) with true.
  change (at_end []) with true. cbn [andb].
  rewrite !int_hex_pair.
  repeat match goal with
         | H : hex_val (lower_char _) = _ |- _ => rewrite H; clear H
         end.
  reflexivity.
Qed.

(** X19.  Three decimal components of one to three digits, each at most
    255, between commas, with or without a parenthesis on either side and
    a final newline, parse to the three numbers they denote (the names of
    the colour map being made of lower-case letters). *)
Theorem parse_triplet_components (s : string) (lp r g b rp nl : list ascii) :
  chars s = lp ++ r ++ ","%char :: g ++ ","%char :: b ++ rp ++ nl ->
  optional "("%char lp -> optional ")"%char rp -> optional newline nl ->
  component r -> component g -> component b ->
  Rotate.parse_palette s = Ok [int_dec r; int_dec g; int_dec b].
Proof.
  intros Es Hlp Hrp Hnl Hr Hg Hb. unfold Rotate.parse_palette.
  assert (Hx : match_hex6 is_hex (chars s) = false).
  { rewrite Es. destruct Hr as (Lr & Dr & _).
    destruct r as [| c r']; [simpl in Lr; lia |].
    cbn [forallb] in Dr. apply andb_prop in Dr. destruct Dr as [Dc _].
    destruct (digit_not_paren c Dc) as [_ Ec].
    destruct Hlp as [-> | ->]; cbn [app].
    - now apply match_hex6_not_hash.
    - now apply match_hex6_not_hash. }
  assert (Hn : Rotate.in_colormap (lower s) = false).
  { unfold Rotate.in_colormap.
    rewrite (not_a_name_char s ","%char); [reflexivity | | reflexivity].
    rewrite Es. apply in_or_app. right. apply in_or_app. right. now left. }
  rewrite Hx, Hn. cbn [orb]. rewrite Es.
  rewrite (match_triplet_complete lp r g b rp nl) by assumption.
  rewrite (findall_triplet lp r g b rp nl) by assumption.
  destruct Hr as (_ & _ & Br), Hg as (_ & _ & Bg), Hb as (_ & _ & Bb).
  apply Z.leb_le in Br, Bg, Bb. rewrite Br, Bg, Bb. reflexivity.
Qed.

End ParserResults.

Lemma reference_rgb_values : rgb_values Reference.pillow.
Proof.
  intros k v. simpl. unfold Reference.basic_colors. simpl.
  repeat match goal with
         | |- context [String.eqb k ?n] =>
             destruct (String.eqb_spec k n);
             [intros E; inversion E; subst; split;
              [reflexivity | repeat (apply Forall_cons || apply Forall_nil); lia] |]
         end.
  discriminate.
Qed.

Lemma parse_fill_color_is_rgb_witness :
  rgb_values Reference.pillow /\
  Rotate.parse_fill_color (pil := Reference.pillow) (Some "( 12, 7,255)"%string)
    = Ok [12; 7; 255]%Z /\
  length [12; 7; 255]%Z = 3%nat /\
  Forall (fun z => (0 <= z <= 255)%Z) [12; 7; 255]%Z.
Proof.
  split; [exact reference_rgb_values |].
  split; [reflexivity |].
  apply (parse_fill_color_is_rgb (pil := Reference.pillow)
           (Some "( 12, 7,255)"%string) [12; 7; 255]%Z).
  - exact reference_rgb_values.
  - reflexivity.
Defined.

Lemma parse_hex_any_case_witness :
  lowercase_names Reference.pillow /\
  Rotate.parse_palette (pil := Reference.pillow) "#Ff00aB" = Ok [255; 0; 171]%Z.
Proof.
  split; [exact reference_lowercase_names |].
  apply (parse_hex_any_case (pil := Reference.pillow) reference_lowercase_names
           "#Ff00aB" "F" "f" "0" "0" "a" "B"); reflexivity.
Defined.

Lemma parse_triplet_components_witness :
  lowercase_names Reference.pillow /\
  component (chars "1") /\ component (chars "22") /\ component (chars "255") /\
  Rotate.parse_palette (pil := Reference.pillow) "(1,22,255" = Ok [1; 22; 255]%Z.
Proof.
  assert (C : forall d : list ascii,
             (1 <=? length d)%nat && (length d <=? 3)%nat && forallb is_digit d
             && (int_dec d <=? 255)%Z = true -> component d).
  { intros d H. repeat (apply andb_prop in H; destruct H as [H ?]).
    apply Nat.leb_le in H. apply Nat.leb_le in H2. apply Z.leb_le in H0.
    unfold component. auto. }
  split; [exact reference_lowercase_names |].
  split; [now apply C |]. split; [now apply C |]. split; [now apply C |].
  apply (parse_triplet_components (pil := Reference.pillow)
           reference_lowercase_names "(1,22,255"
           ["("%char] (chars "1") (chars "22") (chars "255") [] []).
  - reflexivity.
  - now right.
  - now left.
  - now left.
  - now apply C.
  - now apply C.
  - now apply C.
Defined.

(** ** The shape of the blur kernel *)

Section KernelShape.
Local Open Scope R_scope.

Lemma gaussian_kernel_cell (r : nat) (sigma : R) (i j : nat) :
  (1 <= r)%nat -> (i < r * 2 + 1)%nat -> (j < r * 2 + 1)%nat ->
  nth j (nth i (Blur.gaussian_kernel (r * 2 + 1) sigma) []) 0
  = gaussian sigma (coordinate r i) (coordinate r j)
    / sum2 (gaussian_samples r sigma).
Proof.
  intros Hr Hi Hj. rewrite (gaussian_kernel_samples r sigma Hr).
  unfold map2, gaussian_samples.
  rewrite map_tabulate, (tabulate_nth _ _ _ []) by lia.
  rewrite map_tabulate, (tabulate_nth _ _ _ 0) by lia. reflexivity.
Qed.

Lemma coordinate_mirror (r i : nat) :
  (1 <= r)%nat -> (i <= 2 * r)%nat ->
  coordinate r (2 * r - i) = - coordinate r i.
Proof.
  intros Hr Hi. unfold coordinate. rewrite minus_INR by lia.
  rewrite mult_INR. simpl (INR 2).
  assert (Hr0 : INR r <> 0) by (apply not_0_INR; lia).
  field. exact Hr0.
Qed.

Lemma coordinate_centre (r : nat) : (1 <= r)%nat -> coordinate r r = 0.
Proof.
  intros Hr. unfold coordinate.
  assert (Hr0 : INR r <> 0) by (apply not_0_INR; lia).
  field. exact Hr0.
Qed.

Lemma gaussian_le_one (sigma x y : R) : 0 < sigma -> gaussian sigma x y <= 1.
Proof.
  intros Hs. unfold gaussian. rewrite <- exp_0.
  assert (H2 : 0 < 2 * sigma * sigma) by nra.
  assert (Hq : 0 <= (x * x + y * y) / (2 * sigma * sigma)).
  { apply Rmult_le_pos; [nra |]. left. now apply Rinv_0_lt_compat. }
  assert (Hle : - (x * x + y * y) / (2 * sigma * sigma) <= 0).
  { unfold Rdiv in *. rewrite <- Ropp_mult_distr_l. lra. }
  destruct Hle as [Hlt | ->]; [left; now apply exp_increasing | right; reflexivity].
Qed.


End KernelShape.


(** ** The border of a blurred image *)

Section BlurBorder.
Local Open Scope R_scope.

Lemma Rsum_map_le_at {A} (f g : A -> R) (l : list A) (a0 : A) (d : R) :
  (forall a, In a l -> f a <= g a) -> In a0 l -> f a0 + d <= g a0 ->
  Rsum (map f l) + d <= Rsum (map g l).
Proof.
  induction l as [| a l IH]; intros H Hin Hd; [destruct Hin |].
  simpl. fold (Rsum (map f l)). fold (Rsum (map g l)).
  assert (Hl : Rsum (map f l) <= Rsum (map g l)).
  { apply Rsum_map_le. intros a' Ha'. apply H. now right. }
  destruct Hin as [-> | Hin].
  - lra.
  - pose proof (H a (or_introl eq_refl)).
    assert (Rsum (map f l) + d <= Rsum (map g l)).
    { apply IH; auto. intros a' Ha'. apply H. now right. }
    lra.
Qed.

Lemma Rsum_tabulate_le_at (n : nat) (f g : nat -> R) (i0 : nat) (d : R) :
  (forall i, (i < n)%nat -> f i <= g i) -> (i0 < n)%nat -> f i0 + d <= g i0 ->
  Rsum (tabulate n f) + d <= Rsum (tabulate n g).
Proof.
  intros H Hi Hd. unfold tabulate. apply (Rsum_map_le_at f g _ i0); auto.
  - intros i Hin. apply in_seq in Hin. apply H. lia.
  - apply in_seq. lia.
Qed.

(** A window with a cell outside the image misses that cell's weight. *)
Lemma window_sum_missing_cell (kernel : list (list R)) (n p : nat)
  (image : Tensor R) (b y x c i0 j0 : nat) :
  length kernel = n -> Forall (fun row => length row = n) kernel ->
  (forall i j, (i < n)%nat -> (j < n)%nat -> 0 <= nth j (nth i kernel []) 0) ->
  (forall i j, 0 <= pixel_or_zero image p b (y + i) (x + j) c <= 1) ->
  (i0 < n)%nat -> (j0 < n)%nat ->
  pixel_or_zero image p b (y + i0) (x + j0) c = 0 ->
  window_sum kernel n p image b y x c + nth j0 (nth i0 kernel []) 0
  <= sum2 kernel.
Proof.
  intros Lk Fk Hk Hp Hi0 Hj0 Hz. rewrite (sum2_by_cells n kernel Lk Fk).
  unfold window_sum.
  assert (Hcell : forall i j, (i < n)%nat -> (j < n)%nat ->
            nth j (nth i kernel []) 0 * pixel_or_zero image p b (y + i) (x + j) c
            <= nth j (nth i kernel []) 0).
  { intros i j Hi Hj. pose proof (Hk i j Hi Hj) as H0.
    destruct (Hp i j) as [_ H1].
    apply (Rmult_le_compat_l _ _ _ H0) in H1. lra. }
  apply (Rsum_tabulate_le_at n _ _ i0); [| exact Hi0 |].
  - intros i Hi. apply Rsum_tabulate_le. intros j Hj. now apply Hcell.
  - apply (Rsum_tabulate_le_at n _ _ j0); [| exact Hj0 |].
    + intros j Hj. now apply Hcell.
    + rewrite Hz. lra.
Qed.

Lemma gaussian_kernel_corners (r : nat) (sigma : R) :
  (1 <= r)%nat ->
  nth (2 * r) (nth (2 * r) (Blur.gaussian_kernel (r * 2 + 1) sigma) []) 0
  = nth 0 (nth 0 (Blur.gaussian_kernel (r * 2 + 1) sigma) []) 0.
Proof.
  intros Hr. rewrite !gaussian_kernel_cell by lia.
  replace (2 * r)%nat with (2 * r - 0)%nat at 1 2 by lia.
  rewrite coordinate_mirror by lia. unfold gaussian.
  now rewrite Rmult_opp_opp.
Qed.


End BlurBorder.

